(** * Verification of [constructions/common/random.go]

    A shallow embedding of the deterministic, seed-keyed generator
    [RandomSource] of the OpenWhiteBox AES constructions, together with the
    parts of Go's [crypto/aes] and [crypto/cipher] packages that it calls,
    and the properties its specification states about it.

    Conventions.
    - A Go [byte] is a [Z] in [0, 256); every byte operation masks its
      result with [0xff], so results are bytes whatever the operands.
    - A Go [int] is a 64-bit signed integer: a [Z] wrapped by [wrap64]
      after every addition and multiplication; [/] and [%] truncate
      towards zero ([Z.quot], [Z.rem]).
    - A run-time panic is a value of [panic]; a computation returns a
      [result].  The rejection loop of the sampler has no bound: the model
      gives it fuel, and [OutOfFuel] is the result of a run that used it up.

    The properties of the specification are numbered C1 to C10; each is
    stated in the comment above its theorem, as the specification has it
    or, where the code differs, amended, with a lemma that shows the
    difference at a concrete input.  Further properties of the code, which
    the specification does not state, are numbered X1 to X12 and follow
    them. *)

From Stdlib Require Import ZArith List Lia Bool Sorted.
From stdpp Require Import base option list strings gmap relations.
Import ListNotations.
Local Open Scope Z_scope.

(** ** Results of Go computations *)

Inductive panic : Type :=
| NilDereference        (* method call on a nil interface value *)
| InputNotFullBlock     (* crypto/aes: input not full block *)
| OutputNotFullBlock    (* crypto/aes: output not full block *)
| IVLength              (* cipher.NewCTR: IV length must equal block size *)
| IndexOutOfRange       (* runtime error: index out of range *)
| MakeSliceLen          (* runtime error: makeslice: len out of range *)
| DivideByZero          (* runtime error: integer divide by zero *)
| ZeroVariables.        (* Dirichlet: Can't sample distribution of zero
                           variables and get a non-zero sum! *)

Inductive result (A : Type) : Type :=
| Ok (a : A)
| Panic (p : panic)
| OutOfFuel.
Arguments Ok {A} a.
Arguments Panic {A} p.
Arguments OutOfFuel {A}.

Definition rbind {A B} (r : result A) (k : A -> result B) : result B :=
  match r with
  | Ok a => k a
  | Panic p => Panic p
  | OutOfFuel => OutOfFuel
  end.

(** ** Machine integers *)

Definition wrap64 (z : Z) : Z := (z + 2 ^ 63) mod 2 ^ 64 - 2 ^ 63.

Definition int_add (a b : Z) : Z := wrap64 (a + b).
Definition int_mul (a b : Z) : Z := wrap64 (a * b).

Definition byte_xor (a b : Z) : Z := Z.land (Z.lxor a b) 255.

(** ** The block cipher: AES as in FIPS-197, which [crypto/aes] implements *)

Module AES.

Definition BlockSize : nat := 16.

(** Multiplication by [x] in GF(2^8) modulo [x^8 + x^4 + x^3 + x + 1]. *)
Definition xtime (a : Z) : Z :=
  let s := Z.land (Z.shiftl a 1) 255 in
  if Z.testbit a 7 then Z.lxor s 27 else s.

Fixpoint gmul_aux (n : nat) (a b acc : Z) : Z :=
  match n with
  | O => acc
  | S n' =>
      gmul_aux n' (xtime a) (Z.shiftr b 1)
               (if Z.testbit b 0 then Z.lxor acc a else acc)
  end.

Definition gmul (a b : Z) : Z := gmul_aux 8 (Z.land a 255) b 0.

(** The multiplicative inverse [a^254] (with [0] mapped to [0]). *)
Definition ginv (a : Z) : Z :=
  let a2 := gmul a a in
  let a4 := gmul a2 a2 in
  let a8 := gmul a4 a4 in
  let a16 := gmul a8 a8 in
  let a32 := gmul a16 a16 in
  let a64 := gmul a32 a32 in
  let a128 := gmul a64 a64 in
  gmul a128 (gmul a64 (gmul a32 (gmul a16 (gmul a8 (gmul a4 a2))))).

Definition rotl8 (a : Z) (n : Z) : Z :=
  Z.land (Z.lor (Z.shiftl a n) (Z.shiftr a (8 - n))) 255.

(** FIPS-197 5.1.1: inverse followed by the affine transformation. *)
Definition sbox_of (a : Z) : Z :=
  let i := ginv a in
  Z.lxor i (Z.lxor (rotl8 i 1) (Z.lxor (rotl8 i 2)
    (Z.lxor (rotl8 i 3) (Z.lxor (rotl8 i 4) 99)))).

Definition sbox : list Z :=
  Eval vm_compute in map (fun i => sbox_of (Z.of_nat i)) (seq 0 256).

Definition SubByte (a : Z) : Z := nth (Z.to_nat a) sbox 0.

(** *** Key expansion (FIPS-197 5.2); a word is a list of four bytes *)

Definition xorWord (a b : list Z) : list Z := zip_with byte_xor a b.

Definition RotWord (w : list Z) : list Z :=
  match w with
  | a :: t => t ++ [a]
  | [] => []
  end.

Definition SubWord (w : list Z) : list Z := map SubByte w.

Definition Rcon (i : nat) : list Z :=
  [Nat.iter (i - 1) xtime 1; 0; 0; 0].

Fixpoint words (n : nat) (key : list Z) : list (list Z) :=
  match n with
  | O => []
  | S n' => take 4 key :: words n' (drop 4 key)
  end.

Fixpoint expand (fuel Nk i : nat) (w : list (list Z)) : list (list Z) :=
  match fuel with
  | O => w
  | S fuel' =>
      let temp := nth (i - 1) w [] in
      let temp :=
        if (i mod Nk =? 0)%nat
        then xorWord (SubWord (RotWord temp)) (Rcon (i / Nk))
        else if ((6 <? Nk) && (i mod Nk =? 4))%nat
             then SubWord temp
             else temp in
      expand fuel' Nk (S i) (w ++ [xorWord (nth (i - Nk) w []) temp])
  end.

(** The expanded key: [4 * (Nr + 1)] words, [Nr = Nk + 6] rounds. *)
Definition KeyExpansion (key : list Z) : list (list Z) :=
  let Nk := (length key / 4)%nat in
  expand (4 * (Nk + 7) - Nk) Nk Nk (words Nk key).

Definition roundKey (w : list (list Z)) (round : nat) : list Z :=
  concat (take 4 (drop (4 * round) w)).

(** *** The cipher (FIPS-197 5.1); the state is stored column by column *)

Definition AddRoundKey (st k : list Z) : list Z := zip_with byte_xor st k.

Definition SubBytes (st : list Z) : list Z := map SubByte st.

Definition ShiftRows (st : list Z) : list Z :=
  map (fun i => nth ((i + 4 * (i mod 4)) mod 16) st 0) (seq 0 16).

Definition mixColumn (c : list Z) : list Z :=
  match c with
  | [a0; a1; a2; a3] =>
      [ Z.lxor (gmul a0 2) (Z.lxor (gmul a1 3) (Z.lxor a2 a3));
        Z.lxor a0 (Z.lxor (gmul a1 2) (Z.lxor (gmul a2 3) a3));
        Z.lxor a0 (Z.lxor a1 (Z.lxor (gmul a2 2) (gmul a3 3)));
        Z.lxor (gmul a0 3) (Z.lxor a1 (Z.lxor a2 (gmul a3 2))) ]
  | _ => c
  end.

Definition MixColumns (st : list Z) : list Z :=
  concat (map mixColumn (words 4 st)).

Fixpoint rounds (n round : nat) (w : list (list Z)) (st : list Z) : list Z :=
  match n with
  | O => st
  | S n' =>
      rounds n' (S round) w
        (AddRoundKey (MixColumns (ShiftRows (SubBytes st))) (roundKey w round))
  end.

Definition Cipher (w : list (list Z)) (block : list Z) : list Z :=
  let Nr := (length w / 4 - 1)%nat in
  let st := AddRoundKey (take 16 block) (roundKey w 0) in
  let st := rounds (Nr - 1) 1 w st in
  AddRoundKey (ShiftRows (SubBytes st)) (roundKey w Nr).

End AES.

Definition bytes_of_nats (l : list nat) : list Z := map Z.of_nat l.

(** ** [crypto/aes]: [NewCipher] and [Block.Encrypt] *)

Inductive error : Type :=
| KeySizeError (k : nat).   (* crypto/aes: invalid key size k *)

(** An [aesCipher] holds the expanded key; a [cipher.Block] interface value
    is either [nil] or such a cipher. *)
Record aesCipher : Type := { enc : list (list Z) }.

Definition Block : Type := option aesCipher.

Definition NewCipher (key : list Z) : Block * option error :=
  let k := length key in
  if decide (k = 16 \/ k = 24 \/ k = 32)%nat
  then (Some {| enc := AES.KeyExpansion key |}, None)
  else (None, Some (KeySizeError k)).

(** [c.Encrypt(dst, src)]: the value of [dst] afterwards. *)
Definition Encrypt (c : Block) (dst src : list Z) : result (list Z) :=
  match c with
  | None => Panic NilDereference
  | Some c =>
      if (length src <? AES.BlockSize)%nat then Panic InputNotFullBlock
      else if (length dst <? AES.BlockSize)%nat then Panic OutputNotFullBlock
      else Ok (AES.Cipher (enc c) src ++ drop AES.BlockSize dst)
  end.

(** ** [crypto/cipher]: counter mode and [StreamReader] *)

(** The state of a CTR stream: the cipher, the next counter block, and the
    key-stream bytes already produced and not yet used. *)
Record ctr : Type := { b : aesCipher; counter : list Z; out : list Z }.

Definition NewCTR (block : Block) (iv : list Z) : result ctr :=
  match block with
  | None => Panic NilDereference
  | Some c =>
      if decide (length iv = AES.BlockSize)
      then Ok {| b := c; counter := iv; out := [] |}
      else Panic IVLength
  end.

(** The counter is a big-endian integer of [BlockSize] bytes:
    [for i := len(ctr)-1; i >= 0; i-- { ctr[i]++; if ctr[i] != 0 { break } }]
    on the reversed list. *)
Fixpoint incr (rev_ctr : list Z) : list Z :=
  match rev_ctr with
  | [] => []
  | x :: t =>
      let x' := Z.land (x + 1) 255 in
      if x' =? 0 then x' :: incr t else x' :: t
  end.

Definition refill (x : ctr) : ctr :=
  {| b := b x;
     counter := rev (incr (rev (counter x)));
     out := out x ++ AES.Cipher (enc (b x)) (counter x) |}.

Definition nextByte (x : ctr) : Z * ctr :=
  let x := match out x with [] => refill x | _ => x end in
  (hd 0 (out x), {| b := b x; counter := counter x; out := tl (out x) |}).

(** [x.XORKeyStream(dst, src)] with [dst] and [src] the same slice: the
    slice afterwards, and the stream afterwards. *)
Fixpoint XORKeyStream (x : ctr) (src : list Z) : list Z * ctr :=
  match src with
  | [] => ([], x)
  | s :: src' =>
      let (k, x) := nextByte x in
      let (dst, x) := XORKeyStream x src' in
      (byte_xor s k :: dst, x)
  end.

(** [devNull.Read(p)]: every byte of [p] is set to zero, [len(p)] is
    returned. *)
Definition devNull_Read (p : list Z) : list Z * nat :=
  (map (fun _ => 0) p, length p).

(** [cipher.StreamReader{S: x, R: devNull{}}.Read(dst)]. *)
Definition Read (x : ctr) (dst : list Z) : list Z * ctr :=
  let (dst, n) := devNull_Read dst in
  let (head, x) := XORKeyStream x (take n dst) in
  (head ++ drop n dst, x).

(** ** The packages [primitives/encoding] and [primitives/matrix]

    Their sources are not part of the verified file: the generator only
    stores and returns their values, so they are an interface.  Both
    generators read from the [io.Reader] they are given and from nothing
    else. *)
Class Values : Type := {
  encoding_Shuffle : Type;
  matrix_Matrix : Type
}.

Class Primitives `{Values} : Type := {
  (* the zero values, which a Go map returns for a missing key *)
  zero_Shuffle : encoding_Shuffle;
  zero_Matrix : matrix_Matrix;
  encoding_GenerateShuffle : ctr -> result encoding_Shuffle;
  matrix_GenerateRandom : ctr -> Z -> result matrix_Matrix
}.

(** ** The generator *)

Definition bytes_of_string (s : string) : list Z :=
  map (fun c => Z.of_N (Byte.to_N c)) (String.list_byte_of_string s).

Section Generator.
Context `{Primitives}.

(** The caches are the maps [NewRandomSource] makes: a finite map, never
    the nil map of a struct literal. *)
Record RandomSource : Type := {
  Name : string;
  Seed : list Z;
  encodingCache : gmap (list Z) encoding_Shuffle;
  matrixCache : gmap (list Z) matrix_Matrix
}.

Definition NewRandomSource (name : string) (seed : list Z) : RandomSource :=
  {| Name := name; Seed := seed; encodingCache := ∅; matrixCache := ∅ |}.

(** The state a method runs in: the generator [rs] points to, and the
    number of key streams derived so far.  The counter is not a field of
    the Go struct: it instruments [Stream], so that the absence of a
    derivation can be stated. *)
Record State : Type := { rs : RandomSource; derived : nat }.

(** The state of a generator as [NewRandomSource] returns it, before any
    call. *)
Definition newState (name : string) (seed : list Z) : State :=
  {| rs := NewRandomSource name seed; derived := 0 |}.

(** A method of [*RandomSource]: from the state it is called in, it
    returns a value and the state it leaves, or panics. *)
Definition M (A : Type) : Type := State -> result (A * State).

Definition ret {A} (a : A) : M A := fun st => Ok (a, st).
Definition bind {A B} (m : M A) (k : A -> M B) : M B :=
  fun st => rbind (m st) (fun '(a, st') => k a st').
Definition lift {A} (r : result A) : M A :=
  fun st => rbind r (fun a => Ok (a, st)).
Definition get : M RandomSource := fun st => Ok (rs st, st).
Definition modify (f : RandomSource -> RandomSource) : M unit :=
  fun st => Ok (tt, {| rs := f (rs st); derived := derived st |}).
Definition tick : M unit :=
  fun st => Ok (tt, {| rs := rs st; derived := S (derived st) |}).

(** The value a computation returns, without the final state. *)
Definition value {A} (r : result (A * State)) : result A :=
  rbind r (fun '(a, _) => Ok a).

#[global] Instance M_bind : MBind M := fun A B k m => bind m k.

(** [subKey[i] ^= c] for [i, c := range name]. *)
Fixpoint xorName (i : nat) (name subKey : list Z) : result (list Z) :=
  match name with
  | [] => Ok subKey
  | c :: name' =>
      match subKey !! i with
      | None => Panic IndexOutOfRange
      | Some x => xorName (S i) name' (<[i := byte_xor x c]> subKey)
      end
  end.

Definition make_bytes (n : nat) : list Z := replicate n 0.

Definition subKey (label : list Z) : M (list Z) :=
  r ← get;
  let subKey := make_bytes 16 in
  let '(c, _) := NewCipher (Seed r) in
  subKey ← lift (Encrypt c subKey label);
  subKey ← lift (xorName 0 (bytes_of_string (Name r)) subKey);
  subKey ← lift (Encrypt c subKey subKey);
  ret subKey.

Definition Stream (label : list Z) : M ctr :=
  tick;;
  subKey ← subKey label;
  let '(block, _) := NewCipher subKey in
  stream ← lift (NewCTR block label);
  ret stream.

(** [key := [16]byte{}; copy(key[:], label)]. *)
Definition copy16 (label : list Z) : list Z :=
  take 16 label ++ replicate (16 - length label) 0.

(** [rs.encodingCache[key] = v] and [rs.matrixCache[key] = v]. *)
Definition storeShuffle (key : list Z) (v : encoding_Shuffle)
           (r : RandomSource) : RandomSource :=
  {| Name := Name r; Seed := Seed r;
     encodingCache := <[key := v]> (encodingCache r);
     matrixCache := matrixCache r |}.

Definition storeMatrix (key : list Z) (v : matrix_Matrix)
           (r : RandomSource) : RandomSource :=
  {| Name := Name r; Seed := Seed r;
     encodingCache := encodingCache r;
     matrixCache := <[key := v]> (matrixCache r) |}.

Definition Shuffle (label : list Z) : M encoding_Shuffle :=
  let key := copy16 label in
  r ← get;
  match encodingCache r !! key with
  | Some cached => ret cached
  | None =>
      s ← Stream label;
      v ← lift (encoding_GenerateShuffle s);
      modify (storeShuffle key v);;
      r ← get;
      ret (default zero_Shuffle (encodingCache r !! key))
  end.

Definition Matrix (label : list Z) (size : Z) : M matrix_Matrix :=
  let key := copy16 label in
  r ← get;
  match matrixCache r !! key with
  | Some cached => ret cached
  | None =>
      s ← Stream label;
      v ← lift (matrix_GenerateRandom s size);
      modify (storeMatrix key v);;
      r ← get;
      ret (default zero_Matrix (matrixCache r !! key))
  end.

(** [make([]int, length)]. *)
Definition make_ints (length : Z) : result (list Z) :=
  if length <? 0 then Panic MakeSliceLen
  else Ok (replicate (Z.to_nat length) 0).

(** [int / int]: truncated, and wrapped ([MinInt64 / -1]). *)
Definition int_quot (a b : Z) : Z := wrap64 (Z.quot a b).

(** First loop of [guess], [n] iterations from [pos] on:
    [out[pos] = int(buff[pos]); candSum += out[pos]]. *)
Fixpoint guess_load (n pos : nat) (buff out : list Z) (candSum : Z)
  : result (list Z * Z) :=
  match n with
  | O => Ok (out, candSum)
  | S n' =>
      match buff !! pos, out !! pos with
      | Some x, Some _ =>
          guess_load n' (S pos) buff (<[pos := x]> out) (int_add candSum x)
      | _, _ => Panic IndexOutOfRange
      end
  end.

(** Second loop of [guess], [n] iterations from [pos] on. *)
Fixpoint guess_scale (n pos : nat) (sum candSum : Z) (out : list Z)
  : result (list Z) :=
  match n with
  | O => Ok out
  | S n' =>
      match out !! pos with
      | None => Panic IndexOutOfRange
      | Some x =>
          let x := int_mul x sum in
          if candSum =? 0 then Panic DivideByZero
          else
            let r := Z.rem x candSum in
            let x := int_quot x candSum in
            let x := if r >=? int_quot candSum 2 then int_add x 1 else x in
            guess_scale n' (S pos) sum candSum (<[pos := x]> out)
      end
  end.

(** The closure [guess]: it reads [length] bytes from the stream [s] and
    overwrites [out]. *)
Definition guess (length sum : Z) (s : ctr) (out : list Z)
  : result (list Z * ctr) :=
  let buff := make_bytes (Z.to_nat length) in
  let (buff, s) := Read s buff in
  match guess_load (Z.to_nat length) 0 buff out 0 with
  | Ok (out, candSum) =>
      rbind (guess_scale (Z.to_nat length) 0 sum candSum out)
            (fun out => Ok (out, s))
  | Panic p => Panic p
  | OutOfFuel => OutOfFuel
  end.

(** [for candSum != sum { candSum = 0; guess(); for _, x := range out
    { candSum += x } }], at most [fuel] iterations. *)
Fixpoint Dirichlet_loop (fuel : nat) (length sum : Z) (s : ctr)
         (out : list Z) (candSum : Z) : result (list Z) :=
  if candSum =? sum then Ok out
  else
    match fuel with
    | O => OutOfFuel
    | S fuel' =>
        match guess length sum s out with
        | Ok (out, s) =>
            Dirichlet_loop fuel' length sum s out (fold_left int_add out 0)
        | Panic p => Panic p
        | OutOfFuel => OutOfFuel
        end
    end.

Definition Dirichlet (fuel : nat) (label : list Z) (length sum : Z)
  : M (list Z) :=
  if (length =? 0) && negb (sum =? 0) then lift (Panic ZeroVariables)
  else
    out ← lift (make_ints length);
    s ← Stream label;
    lift (Dirichlet_loop fuel length sum s out 0).

(** [for i := 1; i < length; i++ { out[i] += out[i-1] }], [n] iterations
    from [i] on. *)
Fixpoint Monotone_loop (n i : nat) (out : list Z) : result (list Z) :=
  match n with
  | O => Ok out
  | S n' =>
      match out !! i, out !! (i - 1)%nat with
      | Some x, Some y => Monotone_loop n' (S i) (<[i := int_add x y]> out)
      | _, _ => Panic IndexOutOfRange
      end
  end.

Definition Monotone (fuel : nat) (label : list Z) (length max : Z)
  : M (list Z) :=
  out ← Dirichlet fuel label length max;
  lift (Monotone_loop (Z.to_nat (length - 1)) 1 out).

End Generator.

(** ** An instance of the interface, and concrete inputs

    The general statements below hold for every instance of [Primitives].
    To run the generator on concrete inputs, this module gives one
    instance: the permutation generator draws sixteen bytes and applies a
    Fisher-Yates shuffle to [0 .. 15]; the matrix generator draws [size]
    rows of [size] bits and retries until the rows are linearly independent
    over GF(2). *)
Module Model.

Definition swap (i j : nat) (p : list Z) : list Z :=
  match p !! i, p !! j with
  | Some x, Some y => <[j := x]> (<[i := y]> p)
  | _, _ => p
  end.

Fixpoint fisherYates (i : nat) (draws p : list Z) : list Z :=
  match i, draws with
  | S i', d :: draws' =>
      fisherYates i' draws' (swap i (Z.to_nat (d mod Z.of_nat (S i))) p)
  | _, _ => p
  end.

(** Modelled from the spec: [encoding.GenerateShuffle], absent from the
    sources; "draw bytes from the Keystream Source ... and apply a standard
    uniform-shuffle algorithm (e.g., Fisher-Yates driven by the stream) over
    16 elements". *)
Definition GenerateShuffle (reader : ctr) : result (list Z) :=
  let (draws, _) := Read reader (replicate 16 0) in
  Ok (fisherYates 15 draws (map Z.of_nat (seq 0 16))).

(** A row of [size] bits is an integer below [2 ^ size]. *)
Fixpoint readRows (n : nat) (size : Z) (reader : ctr) : list Z * ctr :=
  match n with
  | O => ([], reader)
  | S n' =>
      let (bytes, reader) :=
        Read reader (replicate (Z.to_nat ((size + 7) / 8)) 0) in
      let row := fold_right (fun x acc => x + 256 * acc) 0 bytes in
      let (rows, reader) := readRows n' size reader in
      (row mod 2 ^ size :: rows, reader)
  end.

(** Gaussian elimination, pivoting on the lowest set bit of each row. *)
Fixpoint independent (n : nat) (rows : list Z) : bool :=
  match n, rows with
  | S n', r :: rest =>
      if r =? 0 then false
      else
        let p := Z.land r (- r) in
        independent n'
          (map (fun x => if Z.land x p =? 0 then x else Z.lxor x r) rest)
  | _, _ => true
  end.

Fixpoint sample (fuel : nat) (size : Z) (reader : ctr) : result (list Z) :=
  match fuel with
  | O => OutOfFuel
  | S fuel' =>
      let (rows, reader) := readRows (Z.to_nat size) size reader in
      if independent (length rows) rows then Ok rows
      else sample fuel' size reader
  end.

(** Modelled from the spec: [matrix.GenerateRandom], absent from the
    sources; "repeatedly sample random square bit-matrices of the requested
    size until one is invertible over GF(2)", here at most 64 times. *)
Definition GenerateRandom (reader : ctr) (size : Z) : result (list Z) :=
  if size <? 0 then Panic MakeSliceLen else sample 64 size reader.

#[global] Instance values : Values := {|
  encoding_Shuffle := list Z;
  matrix_Matrix := list Z
|}.

#[global] Instance primitives : Primitives := {|
  zero_Shuffle := [];
  zero_Matrix := [];
  encoding_GenerateShuffle := GenerateShuffle;
  matrix_GenerateRandom := GenerateRandom
|}.

Definition seed0 : list Z := replicate 16 0.

(** A fresh generator named ["test"] with the all-zero seed. *)
Definition fresh : State := newState "test" seed0.

(** The label ["m1"], padded to one block. *)
Definition m1 : list Z := copy16 (bytes_of_string "m1").

(** The label ["m1"] as it is (two bytes), and a label of 17 bytes. *)
Definition m1_raw : list Z := bytes_of_string "m1".
Definition m1_long : list Z := m1 ++ [7].

(** A name of 17 bytes. *)
Definition long_name : string := "seventeen-bytes-x".

(** A label under which the key stream of [fresh] starts with a zero
    byte, and that stream. *)
Definition zero_label : list Z := 156 :: replicate 15 0.

Definition zero_stream : ctr :=
  Eval vm_compute in
    match Stream zero_label fresh with
    | Ok (s, _) => s
    | _ => {| b := {| enc := [] |}; counter := []; out := [] |}
    end.

(** The state of [fresh] after the calls [Shuffle(m1)] and
    [Matrix(m1, 8)]. *)
Definition used : State :=
  Eval vm_compute in
    match (Shuffle m1;; Matrix m1 8) fresh with
    | Ok (_, st) => st
    | _ => fresh
    end.

End Model.

(** ** Auxiliary notions used in the statements *)

Definition word4 (w : list Z) : Prop := length w = 4%nat.

(** The key sizes [aes.NewCipher] accepts. *)
Definition valid_key (key : list Z) : Prop :=
  (length key = 16 \/ length key = 24 \/ length key = 32)%nat.

Definition is_byte (x : Z) : Prop := 0 <= x < 256.

Definition Zsum (l : list Z) : Z := fold_right Z.add 0 l.

Definition name_bytes `{Values} (st : State) : list Z :=
  bytes_of_string (Name (rs st)).

(** The labels and generators [Stream] accepts. *)
Definition streamable `{Values} (st : State) (label : list Z) : Prop :=
  valid_key (Seed (rs st)) /\ length label = 16%nat /\
  (length (name_bytes st) <= 16)%nat.

(** The state after one more key-stream derivation. *)
Definition ticked `{Values} (st : State) : State :=
  {| rs := rs st; derived := S (derived st) |}.

(** A name cut to its first sixteen bytes. *)
Definition truncate16 (name : string) : string := String.substring 0 16 name.

(** The same generator under another name. *)
Definition rename `{Values} (name : string) (st : State)
  : State :=
  {| rs := {| Name := name; Seed := Seed (rs st);
              encodingCache := encodingCache (rs st);
              matrixCache := matrixCache (rs st) |};
     derived := derived st |}.

(** One entry of [out] after the second loop of [guess]. *)
Definition scale (sum candSum x : Z) : Z :=
  let x := int_mul x sum in
  let r := Z.rem x candSum in
  let x := int_quot x candSum in
  if r >=? int_quot candSum 2 then int_add x 1 else x.

(** The number of times [x * sum] wraps around. *)
Definition wraps (sum x : Z) : Z := (x * sum + 2 ^ 63) / 2 ^ 64.

(** The rounded quotient of the wrapped product by [c], before the
    increment wraps. *)
Definition rounded (sum c x : Z) : Z :=
  let p := int_mul x sum in
  Z.quot p c + (if Z.rem p c >=? c / 2 then 1 else 0).

(** The weights the first call of [guess] draws from the stream [s]. *)
Definition draw (s : ctr) (len : Z) : list Z :=
  (Read s (make_bytes (Z.to_nat len))).1.

(** The running prefix sum of a sequence: entry [i] is the sum of the
    entries [0 .. i]. *)
Fixpoint running (acc : Z) (l : list Z) : list Z :=
  match l with
  | [] => []
  | x :: t => (acc + x) :: running (acc + x) t
  end.

Definition prefix_sums (l : list Z) : list Z := running 0 l.

(** The first [n] bytes of the key stream of a label. *)
Definition streamPrefix `{Values} (label : list Z) (n : nat) : M (list Z) :=
  s ← Stream label; ret (Read s (make_bytes n)).1.

(** One method call on the generator that returns. *)
Inductive step `{Primitives} : State -> State -> Prop :=
| step_subKey label k st st' :
    subKey label st = Ok (k, st') -> step st st'
| step_Stream label s st st' :
    Stream label st = Ok (s, st') -> step st st'
| step_Shuffle label v st st' :
    Shuffle label st = Ok (v, st') -> step st st'
| step_Matrix label size v st st' :
    Matrix label size st = Ok (v, st') -> step st st'
| step_Dirichlet fuel label len sum v st st' :
    Dirichlet fuel label len sum st = Ok (v, st') -> step st st'
| step_Monotone fuel label len max v st st' :
    Monotone fuel label len max st = Ok (v, st') -> step st st'.

(** Every cached permutation (matrix) is what the generator derives from
    the key stream of its key (for some size). *)
Definition cache_sound `{Primitives} (st : State) : Prop :=
  (forall k v, encodingCache (rs st) !! k = Some v ->
     rbind (value (Stream k st)) encoding_GenerateShuffle = Ok v) /\
  (forall k v, matrixCache (rs st) !! k = Some v ->
     exists size,
       rbind (value (Stream k st)) (fun s => matrix_GenerateRandom s size) = Ok v).

(** ** Further notions: the key stream block by block *)

(** The counter block after [c]: the big-endian successor. *)
Definition nextCounter (c : list Z) : list Z := rev (incr (rev c)).

(** [n] blocks of counter-mode key stream from the counter block [iv]:
    the encryptions of [iv], [iv + 1], ... *)
Fixpoint keystream (k : aesCipher) (iv : list Z) (n : nat) : list Z :=
  match n with
  | O => []
  | S n' => AES.Cipher (enc k) iv ++ keystream k (nextCounter iv) n'
  end.

(** A list of bytes as an integer, least significant byte first, and most
    significant byte first. *)
Fixpoint littleEndian (l : list Z) : Z :=
  match l with
  | [] => 0
  | x :: t => x + 256 * littleEndian t
  end.

Definition bigEndian (l : list Z) : Z := littleEndian (rev l).

(** The stream after one draw of [len] bytes. *)
Definition skip (len : Z) (s : ctr) : ctr :=
  (Read s (make_bytes (Z.to_nat len))).2.

(** The share of the weight [x] in [sum], for weights adding up to [c]:
    the quotient of [x * sum] by [c], plus one when the remainder is at
    least [c / 2]. *)
Definition share (sum c x : Z) : Z :=
  x * sum / c + (if (x * sum) mod c >=? c / 2 then 1 else 0).

(** The candidate that the closure [guess] computes from the stream [s]:
    the weights it draws, scaled in [int] arithmetic. *)
Definition candidate (len sum : Z) (s : ctr) : list Z :=
  map (scale sum (Zsum (draw s len))) (draw s len).

(** The steps of a sequence: entry [i] minus entry [i - 1], the first
    entry as it is. *)
Definition differences (l : list Z) : list Z := zip_with Z.sub l (0 :: l).

(** Further concrete inputs. *)
Module Inputs.

(** The name ["test"] followed by one zero byte. *)
Definition padded_name : string :=
  String.append "test" (String (Ascii.ascii_of_nat 0) EmptyString).

(** Another name. *)
Definition other_name : string := "other".

End Inputs.

(** ** Further notions: the cipher as a permutation of blocks *)

(** The 256 bytes. *)
Definition all_bytes : list Z := map Z.of_nat (seq 0 256).

Definition is_byteb (x : Z) : bool := (0 <=? x) && (x <? 256).

(** A block: sixteen bytes. *)
Definition is_block (l : list Z) : Prop := length l = 16%nat /\ Forall is_byte l.

(** A column of the state: four bytes. *)
Definition is_column (l : list Z) : Prop := length l = 4%nat /\ Forall is_byte l.

Definition xorColumn (u v : list Z) : list Z := zip_with Z.lxor u v.

Definition eqb_list (l1 l2 : list Z) : bool := bool_decide (l1 = l2).

(** [MixColumns] on one column, four times over. *)
Definition mix4 (c : list Z) : list Z :=
  AES.mixColumn (AES.mixColumn (AES.mixColumn (AES.mixColumn c))).

(** The operations of the monad [M], unfolded to state passing. *)
Ltac run_M :=
  unfold mbind, M_bind, bind, get, modify, tick, lift, ret; simpl.

(** Equations between exclusive ors of the same operands, bit by bit. *)
Ltac lxor_ac :=
  apply Z.bits_inj'; intros ? _; rewrite !Z.lxor_spec;
  repeat match goal with
         | |- context [Z.testbit ?a ?n] => destruct (Z.testbit a n)
         end; reflexivity.

(** * Properties *)

(** ** The cipher agrees with the test vectors of FIPS-197, Appendix C *)

Example aes128_fips197 :
  AES.Cipher (AES.KeyExpansion (bytes_of_nats (seq 0 16)))
    [0x00; 0x11; 0x22; 0x33; 0x44; 0x55; 0x66; 0x77;
     0x88; 0x99; 0xaa; 0xbb; 0xcc; 0xdd; 0xee; 0xff]
  = [0x69; 0xc4; 0xe0; 0xd8; 0x6a; 0x7b; 0x04; 0x30;
     0xd8; 0xcd; 0xb7; 0x80; 0x70; 0xb4; 0xc5; 0x5a].
Proof. vm_compute. reflexivity. Qed.

Example aes192_fips197 :
  AES.Cipher (AES.KeyExpansion (bytes_of_nats (seq 0 24)))
    [0x00; 0x11; 0x22; 0x33; 0x44; 0x55; 0x66; 0x77;
     0x88; 0x99; 0xaa; 0xbb; 0xcc; 0xdd; 0xee; 0xff]
  = [0xdd; 0xa9; 0x7c; 0xa4; 0x86; 0x4c; 0xdf; 0xe0;
     0x6e; 0xaf; 0x70; 0xa0; 0xec; 0x0d; 0x71; 0x91].
Proof. vm_compute. reflexivity. Qed.

Example aes256_fips197 :
  AES.Cipher (AES.KeyExpansion (bytes_of_nats (seq 0 32)))
    [0x00; 0x11; 0x22; 0x33; 0x44; 0x55; 0x66; 0x77;
     0x88; 0x99; 0xaa; 0xbb; 0xcc; 0xdd; 0xee; 0xff]
  = [0x8e; 0xa2; 0xb7; 0xca; 0x51; 0x67; 0x45; 0xbf;
     0xea; 0xfc; 0x49; 0x90; 0x4b; 0x49; 0x60; 0x89].
Proof. vm_compute. reflexivity. Qed.

(** ** Machine arithmetic *)

Lemma wrap64_range z : - 2 ^ 63 <= wrap64 z < 2 ^ 63.
Proof. unfold wrap64. pose proof (Z.mod_pos_bound (z + 2 ^ 63) (2 ^ 64)). lia. Qed.

Lemma wrap64_id z : - 2 ^ 63 <= z < 2 ^ 63 -> wrap64 z = z.
Proof. intros Hz. unfold wrap64. rewrite Z.mod_small; lia. Qed.

Lemma wrap64_decomp z : wrap64 z = z - 2 ^ 64 * ((z + 2 ^ 63) / 2 ^ 64).
Proof. unfold wrap64. rewrite Z.mod_eq by lia. lia. Qed.

Lemma wrap64_add_l a b : wrap64 (wrap64 a + b) = wrap64 (a + b).
Proof.
  unfold wrap64 at 1 3. f_equal.
  rewrite (wrap64_decomp a).
  replace (a - 2 ^ 64 * ((a + 2 ^ 63) / 2 ^ 64) + b + 2 ^ 63)
    with (a + b + 2 ^ 63 + (- ((a + 2 ^ 63) / 2 ^ 64)) * 2 ^ 64) by ring.
  apply Z.mod_add. lia.
Qed.

Lemma byte_xor_range a b : 0 <= byte_xor a b < 256.
Proof.
  unfold byte_xor. change 255 with (Z.ones 8). rewrite Z.land_ones by lia.
  apply Z.mod_pos_bound. lia.
Qed.

(** ** The key schedule and the cipher produce whole blocks *)

Lemma length_words n key : length (AES.words n key) = n.
Proof. revert key. induction n; intros; simpl; auto. Qed.

Lemma words_word4 n key :
  (4 * n <= length key)%nat -> Forall word4 (AES.words n key).
Proof.
  revert key. induction n; intros key Hk; simpl; constructor.
  - unfold word4. rewrite length_take. lia.
  - apply IHn. rewrite length_drop. lia.
Qed.

Lemma nth_word4 (w : list (list Z)) i :
  Forall word4 w -> (i < length w)%nat -> word4 (nth i w []).
Proof.
  intros Hw Hi. rewrite Forall_forall in Hw. apply Hw.
  apply list_elem_of_In. apply nth_In. exact Hi.
Qed.

Lemma xorWord_word4 a b : word4 a -> word4 b -> word4 (AES.xorWord a b).
Proof. unfold word4, AES.xorWord. intros Ha Hb. rewrite length_zip_with. lia. Qed.

Lemma SubWord_word4 a : word4 a -> word4 (AES.SubWord a).
Proof. unfold word4, AES.SubWord. now rewrite length_map. Qed.

Lemma RotWord_word4 a : word4 a -> word4 (AES.RotWord a).
Proof.
  unfold word4. destruct a; simpl; [lia|]. rewrite length_app. simpl. lia.
Qed.

Lemma expand_spec fuel Nk i w :
  (1 <= Nk <= i)%nat -> i = length w -> Forall word4 w ->
  Forall word4 (AES.expand fuel Nk i w) /\
  length (AES.expand fuel Nk i w) = (length w + fuel)%nat.
Proof.
  revert i w. induction fuel as [|fuel IH]; intros i w Hi Hl Hw; simpl.
  - split; [exact Hw | lia].
  - assert (Ht : word4 (nth (i - 1) w [])) by (apply nth_word4; [exact Hw | lia]).
    assert (Hp : word4 (nth (i - Nk) w [])) by (apply nth_word4; [exact Hw | lia]).
    edestruct (IH (S i)) as [IH1 IH2]; cycle 3.
    + split; [exact IH1 |]. rewrite IH2, length_app. simpl. lia.
    + lia.
    + rewrite length_app. simpl. lia.
    + apply Forall_app. split; [exact Hw |]. constructor; [| constructor].
      apply xorWord_word4; [exact Hp |].
      destruct (i mod Nk =? 0)%nat.
      * apply xorWord_word4; [| reflexivity].
        apply SubWord_word4, RotWord_word4, Ht.
      * destruct ((6 <? Nk)%nat && (i mod Nk =? 4)%nat);
          [apply SubWord_word4 |]; exact Ht.
Qed.

Lemma KeyExpansion_spec key :
  valid_key key ->
  Forall word4 (AES.KeyExpansion key) /\
  (length (AES.KeyExpansion key) = 4 * (length key / 4 + 7))%nat.
Proof.
  intros Hk. unfold AES.KeyExpansion.
  assert (HNk : (4 * (length key / 4) = length key /\ 4 <= length key / 4)%nat).
  { destruct Hk as [-> | [-> | ->]]; split; vm_compute; try reflexivity; lia. }
  destruct HNk as [H4 HNk].
  edestruct (expand_spec (4 * (length key / 4 + 7) - length key / 4)
               (length key / 4) (length key / 4)
               (AES.words (length key / 4) key)) as [E1 E2].
  - lia.
  - now rewrite length_words.
  - apply words_word4. lia.
  - split; [exact E1 |]. rewrite E2, length_words. lia.
Qed.

Lemma length_concat_word4 (w : list (list Z)) :
  Forall word4 w -> length (concat w) = (4 * length w)%nat.
Proof.
  induction 1 as [|x w Hx Hw IH]; simpl; [reflexivity |].
  rewrite length_app, IH. unfold word4 in Hx. lia.
Qed.

Lemma length_Cipher key block :
  valid_key key -> length (AES.Cipher (AES.KeyExpansion key) block) = 16%nat.
Proof.
  intros Hk. destruct (KeyExpansion_spec key Hk) as [Hw Hl].
  unfold AES.Cipher, AES.AddRoundKey. rewrite length_zip_with.
  unfold AES.ShiftRows at 1. rewrite length_map, length_seq.
  unfold AES.roundKey. rewrite length_concat_word4.
  - rewrite length_take, length_drop, Hl.
    assert (4 * (length key / 4 + 7) / 4 = length key / 4 + 7)%nat as ->.
    { rewrite Nat.mul_comm. apply Nat.div_mul. lia. }
    lia.
  - apply Forall_take, Forall_drop, Hw.
Qed.

(** ** The key stream *)

Lemma XORKeyStream_cons x s src :
  XORKeyStream x (s :: src) =
  let (k, x1) := nextByte x in
  let (dst, x2) := XORKeyStream x1 src in (byte_xor s k :: dst, x2).
Proof. reflexivity. Qed.

Lemma XORKeyStream_length x src : length (XORKeyStream x src).1 = length src.
Proof.
  revert x. induction src as [|s src IH]; intros x; [reflexivity |].
  rewrite XORKeyStream_cons.
  destruct (nextByte x) as [k x1]. specialize (IH x1).
  destruct (XORKeyStream x1 src) as [dst x2]. simpl in *. now rewrite IH.
Qed.

Lemma XORKeyStream_bytes x src : Forall is_byte (XORKeyStream x src).1.
Proof.
  revert x. induction src as [|s src IH]; intros x; [constructor |].
  rewrite XORKeyStream_cons.
  destruct (nextByte x) as [k x1]. specialize (IH x1).
  destruct (XORKeyStream x1 src) as [dst x2]. simpl in *.
  constructor; [apply byte_xor_range | exact IH].
Qed.

Lemma Read_eq x dst :
  Read x dst = XORKeyStream x (map (fun _ => 0) dst).
Proof.
  unfold Read, devNull_Read.
  rewrite take_ge, drop_ge by (rewrite length_map; lia).
  destruct (XORKeyStream x (map (fun _ => 0) dst)) as [h x'].
  now rewrite app_nil_r.
Qed.

Lemma Read_length x dst : length (Read x dst).1 = length dst.
Proof. rewrite Read_eq, XORKeyStream_length. apply length_map. Qed.

Lemma Read_bytes x dst : Forall is_byte (Read x dst).1.
Proof. rewrite Read_eq. apply XORKeyStream_bytes. Qed.

(** ** Subkey derivation *)

Lemma NewCipher_valid key :
  valid_key key -> NewCipher key = (Some {| enc := AES.KeyExpansion key |}, None).
Proof. intros Hk. unfold NewCipher. now rewrite decide_True. Qed.

Lemma NewCipher_invalid key :
  ~ valid_key key -> NewCipher key = (None, Some (KeySizeError (length key))).
Proof. intros Hk. unfold NewCipher. now rewrite decide_False. Qed.

Lemma Encrypt_ok key dst src :
  valid_key key -> (16 <= length src)%nat -> length dst = 16%nat ->
  exists k, Encrypt (NewCipher key).1 dst src = Ok k /\ length k = 16%nat /\
            k = AES.Cipher (AES.KeyExpansion key) src.
Proof.
  intros Hk Hs Hd. rewrite (NewCipher_valid key Hk). simpl.
  unfold AES.BlockSize.
  destruct (Nat.ltb_spec (length src) 16); [lia |].
  destruct (Nat.ltb_spec (length dst) 16); [lia |].
  rewrite drop_ge by lia. rewrite app_nil_r.
  eexists. split; [reflexivity |]. split; [| reflexivity].
  now apply length_Cipher.
Qed.

Lemma xorName_ok i name sk :
  (i + length name <= length sk)%nat ->
  exists sk', xorName i name sk = Ok sk' /\ length sk' = length sk /\
    (forall j, (j < i \/ i + length name <= j)%nat -> sk' !! j = sk !! j) /\
    (forall j c x, name !! j = Some c -> sk !! (i + j)%nat = Some x ->
                   sk' !! (i + j)%nat = Some (byte_xor x c)).
Proof.
  revert i sk. induction name as [|c name IH]; intros i sk Hl; simpl in *.
  - exists sk. repeat split; auto. intros j c x Hc. now rewrite lookup_nil in Hc.
  - destruct (lookup_lt_is_Some_2 sk i) as [x Hx]; [lia |]. rewrite Hx.
    destruct (IH (S i) (<[i := byte_xor x c]> sk)) as (sk' & E & L & Out & In).
    { rewrite length_insert. lia. }
    exists sk'. split; [exact E |]. rewrite length_insert in L.
    split; [exact L |]. split.
    + intros j Hj. rewrite Out by lia. apply list_lookup_insert_ne. lia.
    + intros [|j] c' x' Hc Hx'; simpl in Hc.
      * injection Hc as <-. rewrite Nat.add_0_r in *. rewrite Out by lia.
        rewrite list_lookup_insert_eq by lia. congruence.
      * replace (i + S j)%nat with (S i + j)%nat in * by lia.
        apply In; [exact Hc |]. rewrite list_lookup_insert_ne by lia. exact Hx'.
Qed.

Lemma xorName_panic i name sk :
  (i <= length sk < i + length name)%nat ->
  xorName i name sk = Panic IndexOutOfRange.
Proof.
  revert i sk. induction name as [|c name IH]; intros i sk Hl; simpl in *; [lia |].
  destruct (sk !! i) as [x|] eqn:Hx; [| reflexivity].
  apply lookup_lt_Some in Hx. apply IH. rewrite length_insert. lia.
Qed.

Section Proofs.
Context `{Primitives}.

Lemma subKey_unfold label st :
  subKey label st =
  rbind (rbind (Encrypt (NewCipher (Seed (rs st))).1 (make_bytes 16) label)
          (fun k => rbind (xorName 0 (name_bytes st) k)
             (fun k => Encrypt (NewCipher (Seed (rs st))).1 k k)))
        (fun k => Ok (k, st)).
Proof.
  unfold subKey, name_bytes. run_M.
  destruct (NewCipher (Seed (rs st))) as [c e]. simpl.
  destruct (Encrypt c (make_bytes 16) label) as [k| |]; simpl; try reflexivity.
  destruct (xorName 0 (bytes_of_string (Name (rs st))) k) as [k'| |];
    simpl; try reflexivity.
  destruct (Encrypt c k' k') as [k''| |]; reflexivity.
Qed.

Lemma subKey_bad_seed label st :
  ~ valid_key (Seed (rs st)) -> subKey label st = Panic NilDereference.
Proof.
  intros Hk. rewrite subKey_unfold, (NewCipher_invalid _ Hk). reflexivity.
Qed.

Lemma subKey_short_label label st :
  valid_key (Seed (rs st)) -> (length label < 16)%nat ->
  subKey label st = Panic InputNotFullBlock.
Proof.
  intros Hk Hl. rewrite subKey_unfold, (NewCipher_valid _ Hk). simpl.
  unfold AES.BlockSize. destruct (Nat.ltb_spec (length label) 16); [reflexivity | lia].
Qed.

Lemma subKey_long_name label st :
  valid_key (Seed (rs st)) -> (16 <= length label)%nat ->
  (16 < length (name_bytes st))%nat ->
  subKey label st = Panic IndexOutOfRange.
Proof.
  intros Hk Hl Hn. rewrite subKey_unfold.
  destruct (Encrypt_ok (Seed (rs st)) (make_bytes 16) label Hk Hl)
    as (k & -> & Lk & _); [reflexivity |].
  simpl. rewrite xorName_panic by lia. reflexivity.
Qed.

Lemma subKey_ok label st :
  valid_key (Seed (rs st)) -> (16 <= length label)%nat ->
  (length (name_bytes st) <= 16)%nat ->
  exists k, subKey label st = Ok (k, st) /\ length k = 16%nat.
Proof.
  intros Hk Hl Hn. rewrite subKey_unfold.
  destruct (Encrypt_ok (Seed (rs st)) (make_bytes 16) label Hk Hl)
    as (k & -> & Lk & _); [reflexivity |].
  simpl. destruct (xorName_ok 0 (name_bytes st) k) as (k' & -> & Lk' & _);
    [lia |].
  simpl. destruct (Encrypt_ok (Seed (rs st)) k' k' Hk) as (k'' & -> & Lk'' & _);
    [lia | lia |].
  simpl. eauto.
Qed.
End Proofs.

(** ** The key-stream source *)

Section StreamProofs.
Context `{Primitives}.

Lemma Stream_unfold label st :
  Stream label st =
  rbind (subKey label (ticked st))
        (fun '(k, st') => rbind (NewCTR (NewCipher k).1 label)
                                (fun s => Ok (s, st'))).
Proof.
  unfold Stream, ticked. run_M.
  destruct (subKey label _) as [[k st']| |]; simpl; try reflexivity.
  destruct (NewCipher k) as [c e]. simpl.
  destruct (NewCTR c label); reflexivity.
Qed.

Lemma Stream_ok label st :
  streamable st label ->
  exists k, subKey label st = Ok (k, st) /\ length k = 16%nat /\
    Stream label st =
    Ok ({| b := {| enc := AES.KeyExpansion k |}; counter := label; out := [] |},
        ticked st).
Proof.
  intros (Hk & Hl & Hn).
  destruct (subKey_ok label st) as (k & E & Lk); [exact Hk | lia | exact Hn |].
  exists k. split; [exact E |]. split; [exact Lk |].
  rewrite Stream_unfold. rewrite subKey_unfold in *. simpl in *.
  unfold name_bytes in *. simpl.
  destruct (rbind (Encrypt _ _ label) _) as [k'| |]; simpl in *; try discriminate.
  injection E as ->. rewrite NewCipher_valid by (left; exact Lk). simpl.
  rewrite decide_True by exact Hl. reflexivity.
Qed.

Lemma Stream_panics label st :
  ~ streamable st label -> exists p, Stream label st = Panic p.
Proof.
  intros Hns. rewrite Stream_unfold.
  assert (Hk : valid_key (Seed (rs st)) \/ ~ valid_key (Seed (rs st)))
    by (unfold valid_key; lia).
  destruct Hk as [Hk | Hk].
  2: { rewrite subKey_bad_seed by exact Hk. simpl. eauto. }
  destruct (Nat.lt_ge_cases (length label) 16) as [Hl | Hl].
  { rewrite subKey_short_label by assumption. simpl. eauto. }
  destruct (Nat.lt_ge_cases 16 (length (name_bytes st))) as [Hn | Hn].
  { rewrite subKey_long_name by assumption. simpl. eauto. }
  destruct (subKey_ok label (ticked st)) as (k & -> & Lk); try assumption.
  simpl. rewrite NewCipher_valid by (left; exact Lk). simpl.
  rewrite decide_False; [eauto |].
  intros Hl'. apply Hns. repeat split; assumption.
Qed.

(** A derivation that returns has counted itself and changed nothing
    else. *)
Lemma Stream_state label s st st' :
  Stream label st = Ok (s, st') -> st' = ticked st.
Proof.
  rewrite Stream_unfold, subKey_unfold.
  destruct (rbind (Encrypt _ _ label) _) as [k| |]; simpl; try discriminate.
  destruct (NewCTR _ label); simpl; try discriminate. now intros [= _ <-].
Qed.

Lemma streamable_dec label st : streamable st label \/ ~ streamable st label.
Proof. unfold streamable, valid_key. lia. Qed.

End StreamProofs.

(** ** Subkey derivation and the name, the label and the seed *)

Lemma length_bytes_of_string s : length (bytes_of_string s) = String.length s.
Proof.
  unfold bytes_of_string, String.list_byte_of_string.
  rewrite !length_map. induction s; simpl; congruence.
Qed.

Lemma substring_all n s : (String.length s <= n)%nat -> String.substring 0 n s = s.
Proof.
  revert n. induction s as [|c s IH]; intros n Hn; simpl in *.
  - destruct n; reflexivity.
  - destruct n; [lia |]. rewrite IH by lia. reflexivity.
Qed.

Section NameProofs.
Context `{Primitives}.

(** C5, amended.  With a seed of a valid size and a label of at least one
    block: for a name of at most 16 bytes the name is XORed into the first
    [len(name)] bytes of the encrypted label and the other bytes of that
    block are left as they are, the subkey is the encryption of the result,
    and it is the subkey derived under the name cut to 16 bytes (which is the
    same name); for a name longer than 16 bytes the loop indexes the block
    out of range and the derivation panics. *)
Theorem subKey_name_xor (label : list Z) (st : State) :
  valid_key (Seed (rs st)) -> (16 <= length label)%nat ->
  ((length (name_bytes st) <= 16)%nat ->
   exists block block' k,
     Encrypt (NewCipher (Seed (rs st))).1 (make_bytes 16) label = Ok block /\
     xorName 0 (name_bytes st) block = Ok block' /\
     length block' = 16%nat /\
     (forall j, (length (name_bytes st) <= j)%nat -> block' !! j = block !! j) /\
     (forall j c x, name_bytes st !! j = Some c -> block !! j = Some x ->
                    block' !! j = Some (byte_xor x c)) /\
     Encrypt (NewCipher (Seed (rs st))).1 block' block' = Ok k /\
     subKey label st = Ok (k, st) /\
     value (subKey label (rename (truncate16 (Name (rs st))) st)) = Ok k) /\
  ((16 < length (name_bytes st))%nat ->
   subKey label st = Panic IndexOutOfRange).
Proof.
  intros Hk Hl. split; [| now apply subKey_long_name].
  intros Hn.
  destruct (Encrypt_ok (Seed (rs st)) (make_bytes 16) label Hk Hl)
    as (block & E1 & L1 & _); [reflexivity |].
  destruct (xorName_ok 0 (name_bytes st) block) as (block' & E2 & L2 & Out & In);
    [lia |].
  destruct (Encrypt_ok (Seed (rs st)) block' block' Hk) as (k & E3 & L3 & _);
    [lia | lia |].
  exists block, block', k.
  assert (E : subKey label st = Ok (k, st)).
  { rewrite subKey_unfold, E1. simpl. rewrite E2. simpl. rewrite E3. reflexivity. }
  split; [exact E1 |]. split; [exact E2 |]. split; [lia |].
  split; [intros j Hj; apply Out; lia |].
  split; [intros j c x Hc Hx; apply (In j c x Hc Hx) |].
  split; [exact E3 |]. split; [exact E |].
  - unfold truncate16. rewrite substring_all.
    + replace (rename (Name (rs st)) st) with st; [now rewrite E |].
      destruct st as [[n s e m] d]. reflexivity.
    + unfold name_bytes in Hn. rewrite length_bytes_of_string in Hn. exact Hn.
Qed.

(** C7, amended.  A seed whose length is not 16, 24 or 32 bytes makes
    [aes.NewCipher] return a nil cipher and a [KeySizeError]; the error is
    discarded and the derivation panics on the nil cipher at the first
    encryption.  A seed of 16, 24 or 32 bytes is accepted (with a label of at
    least one block and a name of at most 16 bytes the derivation returns a
    16-byte subkey and leaves the state as it is). *)
Theorem subKey_seed_size (label : list Z) (st : State) :
  (~ valid_key (Seed (rs st)) ->
   NewCipher (Seed (rs st)) = (None, Some (KeySizeError (length (Seed (rs st))))) /\
   subKey label st = Panic NilDereference) /\
  (valid_key (Seed (rs st)) -> (16 <= length label)%nat ->
   (length (name_bytes st) <= 16)%nat ->
   exists k, subKey label st = Ok (k, st) /\ length k = 16%nat).
Proof.
  split.
  - intros Hk. split; [now apply NewCipher_invalid | now apply subKey_bad_seed].
  - apply subKey_ok.
Qed.

(** C6, amended.  [Stream] passes the label as it is to the block cipher and
    to [cipher.NewCTR]: a label that is not exactly 16 bytes long makes it
    panic; a label of exactly 16 bytes is its own truncation and padding, it
    is the initial counter block, and the derivation succeeds when the seed
    has a valid size and the name at most 16 bytes. *)
Theorem Stream_label_block (label : list Z) (st : State) :
  (length label <> 16%nat -> exists p, Stream label st = Panic p) /\
  (length label = 16%nat ->
   copy16 label = label /\
   Stream label st = Stream (copy16 label) st /\
   (valid_key (Seed (rs st)) -> (length (name_bytes st) <= 16)%nat ->
    exists s, Stream label st = Ok (s, ticked st) /\
              counter s = label /\ out s = [])).
Proof.
  split.
  - intros Hl. apply Stream_panics. intros (_ & Hl' & _). contradiction.
  - intros Hl.
    assert (Hc : copy16 label = label).
    { unfold copy16. rewrite take_ge by lia. rewrite Hl. simpl. apply app_nil_r. }
    split; [exact Hc |]. split; [now rewrite Hc |].
    intros Hk Hn. destruct (Stream_ok label st) as (k & _ & _ & E).
    { repeat split; assumption. }
    eexists. split; [exact E |]. split; reflexivity.
Qed.

End NameProofs.

(** ** The derivations at concrete inputs *)

(** [subKey_name_xor] at the generator [fresh] (name ["test"]) and the
    label [m1]. *)
Lemma subKey_name_xor_witness :
  valid_key (Seed (rs Model.fresh)) /\ (16 <= length Model.m1)%nat /\
  (length (name_bytes Model.fresh) <= 16)%nat /\
  exists k, subKey Model.m1 Model.fresh = Ok (k, Model.fresh).
Proof.
  assert (Hk : valid_key (Seed (rs Model.fresh))) by (left; reflexivity).
  assert (Hl : (16 <= length Model.m1)%nat) by (vm_compute; lia).
  assert (Hn : (length (name_bytes Model.fresh) <= 16)%nat) by (vm_compute; lia).
  split; [exact Hk |]. split; [exact Hl |]. split; [exact Hn |].
  destruct (subKey_name_xor Model.m1 Model.fresh Hk Hl) as [Hshort _].
  destruct (Hshort Hn) as (block & block' & k & _ & _ & _ & _ & _ & _ & E & _).
  exists k. exact E.
Defined.

(** C5 as stated fails: under a name of 17 bytes the derivation panics,
    under the name cut to its first 16 bytes it returns a subkey. *)
Lemma subKey_long_name_counterexample :
  value (subKey Model.m1 (newState Model.long_name Model.seed0))
    = Panic IndexOutOfRange /\
  value (subKey Model.m1
           (newState (truncate16 Model.long_name) Model.seed0))
    = Ok [248; 156; 198; 230; 155; 11; 17; 238; 216; 105; 34; 149; 120; 221; 19; 183] /\
  value (subKey Model.m1 (newState Model.long_name Model.seed0))
    <> value (subKey Model.m1
                (newState (truncate16 Model.long_name) Model.seed0)).
Proof. repeat split; vm_compute; try reflexivity; discriminate. Qed.

(** The two cases of [subKey_seed_size] at seeds of 5 and of 24 bytes. *)
Lemma subKey_seed_size_witness :
  (~ valid_key (replicate 5 0) /\
   subKey Model.m1 (newState "test" (replicate 5 0)) = Panic NilDereference) /\
  (valid_key (replicate 24 0) /\
   exists k, subKey Model.m1 (newState "test" (replicate 24 0))
             = Ok (k, newState "test" (replicate 24 0))).
Proof.
  split.
  - assert (Hk : ~ valid_key (Seed (rs (newState "test" (replicate 5 0))))).
    { vm_compute. lia. }
    split; [exact Hk |].
    exact (proj2 (proj1 (subKey_seed_size Model.m1 _) Hk)).
  - assert (Hk : valid_key (Seed (rs (newState "test" (replicate 24 0))))).
    { right; left; reflexivity. }
    split; [exact Hk |].
    destruct (proj2 (subKey_seed_size Model.m1 _) Hk) as (k & E & _).
    + vm_compute; lia.
    + vm_compute; lia.
    + exists k. exact E.
Defined.

(** C7 as stated fails: a seed of 24 bytes is not 16 bytes long and the
    derivation returns a subkey; under a seed of 5 bytes the derivation does
    not return the [KeySizeError] of [aes.NewCipher], it panics on the nil
    cipher. *)
Lemma subKey_seed_counterexample :
  length (replicate 24 0 : list Z) <> 16%nat /\
  value (subKey Model.m1 (newState "test" (replicate 24 0)))
    = Ok [238; 86; 107; 111; 41; 124; 24; 63; 12; 82; 250; 145; 114; 178; 182; 197] /\
  (NewCipher (replicate 5 0)).2 = Some (KeySizeError 5) /\
  value (subKey Model.m1 (newState "test" (replicate 5 0)))
    = Panic NilDereference.
Proof. repeat split; vm_compute; try reflexivity; try lia. Qed.

(** ** The key stream at concrete labels *)

(** The two cases of [Stream_label_block] at the labels [m1_raw] (two
    bytes) and [m1] (one block). *)
Lemma Stream_label_block_witness :
  (exists p, Stream Model.m1_raw Model.fresh = Panic p) /\
  (exists s, Stream Model.m1 Model.fresh = Ok (s, ticked Model.fresh) /\
             counter s = Model.m1 /\ out s = []).
Proof.
  split.
  - apply (proj1 (Stream_label_block Model.m1_raw Model.fresh)).
    vm_compute. lia.
  - destruct (proj2 (Stream_label_block Model.m1 Model.fresh)) as (_ & _ & Hs).
    + reflexivity.
    + apply Hs; [left; reflexivity | vm_compute; lia].
Defined.

(** C6 as stated fails: the two-byte label ["m1"] and a label of 17 bytes
    make [Stream] panic, while the same labels padded or cut to 16 bytes
    give a stream. *)
Lemma Stream_label_counterexample :
  Stream Model.m1_raw Model.fresh = Panic InputNotFullBlock /\
  (exists s, Stream (copy16 Model.m1_raw) Model.fresh = Ok (s, ticked Model.fresh)) /\
  Stream Model.m1_long Model.fresh = Panic IVLength /\
  (exists s, Stream (copy16 Model.m1_long) Model.fresh = Ok (s, ticked Model.fresh)).
Proof.
  split; [vm_compute; reflexivity |].
  split; [eexists; vm_compute; reflexivity |].
  split; [vm_compute; reflexivity |].
  eexists; vm_compute; reflexivity.
Qed.

(** ** The two loops of [guess] *)

Lemma guess_load_spec n pos (buff out : list Z) c :
  (pos + n)%nat = length buff -> length out = length buff ->
  guess_load n pos buff out c =
  Ok (take pos out ++ drop pos buff, fold_left int_add (drop pos buff) c).
Proof.
  revert pos out c. induction n as [|n IH]; intros pos out c Hn Ho; simpl.
  - rewrite drop_ge by lia. rewrite take_ge by lia. now rewrite app_nil_r.
  - destruct (lookup_lt_is_Some_2 buff pos) as [x Hx]; [lia |].
    destruct (lookup_lt_is_Some_2 out pos) as [y Hy]; [lia |].
    rewrite Hx, Hy, IH; [| lia | now rewrite length_insert].
    rewrite (drop_S buff x pos Hx). simpl.
    rewrite (take_S_r (<[pos:=x]> out) pos x).
    + rewrite take_insert_ge by lia. now rewrite <- app_assoc.
    + apply list_lookup_insert_eq. lia.
Qed.

Lemma guess_scale_spec n pos sum c (out : list Z) :
  c <> 0 -> (pos + n)%nat = length out ->
  guess_scale n pos sum c out =
  Ok (take pos out ++ map (scale sum c) (drop pos out)).
Proof.
  intros Hc. revert pos out. induction n as [|n IH]; intros pos out Hn; simpl.
  - rewrite drop_ge by lia. rewrite take_ge by lia. now rewrite app_nil_r.
  - destruct (lookup_lt_is_Some_2 out pos) as [x Hx]; [lia |].
    rewrite Hx. destruct (Z.eqb_spec c 0) as [|_]; [contradiction |].
    rewrite IH by (rewrite length_insert; lia).
    rewrite (drop_S out x pos Hx). simpl.
    rewrite (take_S_r (<[pos:=scale sum c x]> out) pos (scale sum c x)).
    + rewrite take_insert_ge by lia. rewrite drop_insert_lt by lia.
      now rewrite <- app_assoc.
    + apply list_lookup_insert_eq. lia.
Qed.

Lemma guess_scale_zero n pos sum (out : list Z) :
  (pos < length out)%nat ->
  guess_scale (S n) pos sum 0 out = Panic DivideByZero.
Proof.
  intros Hp. simpl. destruct (lookup_lt_is_Some_2 out pos) as [x ->]; [lia |].
  reflexivity.
Qed.

Lemma guess_spec len sum s (out : list Z) :
  0 <= len -> length out = Z.to_nat len ->
  guess len sum s out =
  let buff := (Read s (make_bytes (Z.to_nat len))).1 in
  let candSum := fold_left int_add buff 0 in
  if (candSum =? 0) && (0 <? len) then Panic DivideByZero
  else if candSum =? 0 then Ok (out, (Read s (make_bytes (Z.to_nat len))).2)
       else Ok (map (scale sum candSum) buff,
                (Read s (make_bytes (Z.to_nat len))).2).
Proof.
  intros Hl Ho. unfold guess.
  pose proof (Read_length s (make_bytes (Z.to_nat len))) as Hb.
  destruct (Read s (make_bytes (Z.to_nat len))) as [buff s']. simpl in *.
  unfold make_bytes in Hb. rewrite length_replicate in Hb.
  rewrite guess_load_spec by lia. simpl. rewrite drop_0.
  set (c := fold_left int_add buff 0).
  destruct (Z.eqb_spec c 0) as [Hc | Hc]; simpl.
  - rewrite Hc. destruct (Z.ltb_spec 0 len) as [Hpos | Hpos].
    + destruct (Z.to_nat len) as [|n] eqn:En; [lia |].
      rewrite guess_scale_zero by lia. reflexivity.
    + replace (Z.to_nat len) with 0%nat in * by lia.
      destruct out, buff; try discriminate. reflexivity.
  - rewrite guess_scale_spec by (try exact Hc; lia). simpl. rewrite drop_0.
    reflexivity.
Qed.

(** ** Sums of machine integers *)

Lemma fold_left_int_add l a :
  fold_left int_add l (wrap64 a) = wrap64 (a + Zsum l).
Proof.
  revert a. induction l as [|x l IH]; intros a; simpl.
  - now rewrite Z.add_0_r.
  - unfold int_add at 2. rewrite wrap64_add_l, IH. f_equal. lia.
Qed.

Lemma fold_left_int_add_0 l : fold_left int_add l 0 = wrap64 (Zsum l).
Proof. apply (fold_left_int_add l 0). Qed.

Lemma Zsum_bytes l : Forall is_byte l -> 0 <= Zsum l <= 255 * Z.of_nat (length l).
Proof.
  induction 1 as [|x l Hx Hl IH]; simpl; [lia |]. unfold is_byte in Hx. lia.
Qed.

Lemma Zsum_nonneg l : Forall (fun x => 0 <= x) l -> 0 <= Zsum l.
Proof. induction 1; simpl; lia. Qed.

Lemma Zsum_upper l :
  Forall (fun x => 0 <= x) l -> Forall (fun x => x <= Zsum l) l.
Proof.
  induction 1 as [|x l Hx Hl IH]; simpl; constructor.
  - pose proof (Zsum_nonneg l Hl). lia.
  - eapply Forall_impl; [exact IH |]. simpl. intros y Hy. lia.
Qed.

(** ** Rounding in the second loop of [guess]

    For a weight [x] the product [x * sum] wraps [wraps sum x] times; the
    entry computed from it is, up to a multiple of [2 ^ 64], the rounded
    quotient [rounded sum c x]. *)

Section Rounding.
Variables sum c : Z.
Hypothesis Hsum : 0 <= sum < 2 ^ 63.
Hypothesis Hc : 0 < c < 2 ^ 63.

Lemma int_mul_wraps x : int_mul x sum = x * sum - 2 ^ 64 * wraps sum x.
Proof. unfold int_mul, wraps. apply wrap64_decomp. Qed.

Lemma wraps_bound x : is_byte x -> 0 <= wraps sum x /\ 2 * wraps sum x <= x.
Proof.
  intros Hx. unfold is_byte in Hx. unfold wraps.
  assert (0 <= x * sum) by (apply Z.mul_nonneg_nonneg; lia).
  assert (x * sum <= x * (2 ^ 63 - 1)) by (apply Z.mul_le_mono_nonneg_l; lia).
  split.
  - apply Z.div_pos; lia.
  - pose proof (Z.mul_div_le (x * sum + 2 ^ 63) (2 ^ 64)). lia.
Qed.

Lemma quot_int64 p : - 2 ^ 63 <= p < 2 ^ 63 -> - 2 ^ 63 <= Z.quot p c < 2 ^ 63.
Proof.
  intros Hp. destruct (Z.le_gt_cases 0 p) as [H0 | H0].
  - pose proof (Z.quot_pos p c H0 ltac:(lia)).
    pose proof (Z.quot_le_upper_bound p c p ltac:(lia)).
    assert (p <= c * p) by nia. lia.
  - pose proof (Z.quot_opp_l p c ltac:(lia)) as Ho.
    pose proof (Z.quot_pos (- p) c ltac:(lia) ltac:(lia)).
    pose proof (Z.quot_le_upper_bound (- p) c (- p) ltac:(lia)).
    assert (- p <= c * - p) by nia. lia.
Qed.

Lemma scale_rounded x :
  exists w, scale sum c x = rounded sum c x - 2 ^ 64 * w.
Proof.
  unfold scale, rounded, int_quot.
  pose proof (wrap64_range (x * sum)) as Hp. fold (int_mul x sum) in Hp.
  set (p := int_mul x sum) in *.
  rewrite (wrap64_id (Z.quot p c)) by (apply quot_int64; exact Hp).
  rewrite (wrap64_id (Z.quot c 2)).
  2: { pose proof (Z.quot_pos c 2 ltac:(lia) ltac:(lia)).
       pose proof (Z.quot_le_upper_bound c 2 c ltac:(lia) ltac:(lia)). lia. }
  rewrite Z.quot_div_nonneg by lia.
  destruct (Z.rem p c >=? c / 2).
  - unfold int_add. rewrite wrap64_decomp. eexists. reflexivity.
  - exists 0. lia.
Qed.

Lemma rounded_error x :
  - c < c * rounded sum c x - int_mul x sum <= c.
Proof.
  unfold rounded. set (p := int_mul x sum).
  pose proof (Z.quot_rem' p c) as Hqr.
  assert (Hr : - c < Z.rem p c < c).
  { pose proof (Z.rem_bound_abs p c ltac:(lia)). lia. }
  assert (0 <= c / 2) by (apply Z.div_pos; lia).
  destruct (Z.geb_spec (Z.rem p c) (c / 2)); lia.
Qed.

Lemma rounded_exact x :
  wraps sum x = 0 -> 0 <= x ->
  0 <= rounded sum c x /\
  (rounded sum c x < 2 ^ 63 -> scale sum c x = rounded sum c x).
Proof.
  intros Hw Hx.
  assert (Hp : int_mul x sum = x * sum) by (rewrite int_mul_wraps, Hw; lia).
  assert (H0 : 0 <= x * sum) by (apply Z.mul_nonneg_nonneg; lia).
  assert (Hq : 0 <= Z.quot (x * sum) c) by (apply Z.quot_pos; lia).
  split.
  - unfold rounded. rewrite Hp. destruct (_ >=? _); lia.
  - intros Hlt. unfold scale, rounded in *. rewrite Hp in *.
    unfold int_quot.
    assert (Hq' : Z.quot (x * sum) c < 2 ^ 63) by (destruct (_ >=? _); lia).
    rewrite (wrap64_id (Z.quot (x * sum) c)) by lia.
    rewrite (wrap64_id (Z.quot c 2)).
    2: { pose proof (Z.quot_pos c 2 ltac:(lia) ltac:(lia)).
         pose proof (Z.quot_le_upper_bound c 2 c ltac:(lia) ltac:(lia)). lia. }
    rewrite Z.quot_div_nonneg by lia.
    destruct (_ >=? _); [| lia].
    unfold int_add. apply wrap64_id. lia.
Qed.

(** The sums over a list of weights. *)
Lemma scale_sums buff :
  Forall is_byte buff ->
  exists W,
    Zsum (map (scale sum c) buff) = Zsum (map (rounded sum c) buff) - 2 ^ 64 * W /\
    0 <= Zsum (map (wraps sum) buff) /\
    2 * Zsum (map (wraps sum) buff) <= Zsum buff /\
    - c * Z.of_nat (length buff)
      <= c * Zsum (map (rounded sum c) buff)
         - (sum * Zsum buff - 2 ^ 64 * Zsum (map (wraps sum) buff))
      <= c * Z.of_nat (length buff).
Proof.
  induction 1 as [|x l Hx Hl IH].
  - exists 0. simpl. lia.
  - destruct IH as (W & E & K0 & K2 & D).
    destruct (scale_rounded x) as (w & Ew).
    pose proof (wraps_bound x Hx) as [Hw0 Hw2].
    pose proof (rounded_error x) as He. rewrite int_mul_wraps in He.
    exists (W + w). cbn [map Zsum fold_right length]. fold (Zsum (map (scale sum c) l)).
    fold (Zsum (map (rounded sum c) l)). fold (Zsum (map (wraps sum) l)). fold (Zsum l).
    rewrite Nat2Z.inj_succ. split; [lia |]. split; [lia |]. split; [lia |]. nia.
Qed.

End Rounding.

(** ** An accepted candidate is exact

    If the wrapped sum of the scaled weights equals [sum], no product
    wrapped around, every entry is the rounded quotient, and the entries
    are non-negative and sum to [sum] as integers. *)

Lemma Forall_wraps_zero sum buff :
  Forall is_byte buff -> 0 <= sum < 2 ^ 63 ->
  Zsum (map (wraps sum) buff) = 0 -> Forall (fun x => wraps sum x = 0) buff.
Proof.
  intros Hb Hs. induction Hb as [|x l Hx Hl IH]; intros Hz; constructor.
  - pose proof (wraps_bound sum Hs x Hx).
    assert (0 <= Zsum (map (wraps sum) l)).
    { apply Zsum_nonneg. apply Forall_map. eapply Forall_impl; [exact Hl |].
      intros y Hy. apply (wraps_bound sum Hs y Hy). }
    simpl in Hz. lia.
  - apply IH. pose proof (wraps_bound sum Hs x Hx).
    assert (0 <= Zsum (map (wraps sum) l)).
    { apply Zsum_nonneg. apply Forall_map. eapply Forall_impl; [exact Hl |].
      intros y Hy. apply (wraps_bound sum Hs y Hy). }
    simpl in Hz. lia.
Qed.

Lemma Zsum_wraps_small sum buff :
  Forall is_byte buff -> 0 <= sum -> 255 * sum < 2 ^ 63 ->
  Zsum (map (wraps sum) buff) = 0.
Proof.
  intros Hb H0 Hs. induction Hb as [|x l Hx Hl IH]; simpl; [reflexivity |].
  rewrite IH. unfold wraps, is_byte in *. rewrite Z.div_small; [reflexivity |].
  assert (0 <= x * sum) by (apply Z.mul_nonneg_nonneg; lia).
  assert (x * sum <= 255 * sum) by (apply Z.mul_le_mono_nonneg_r; lia). lia.
Qed.

Lemma scale_exact sum buff :
  Forall is_byte buff -> 0 <= sum < 2 ^ 63 ->
  Z.of_nat (length buff) <= 2 ^ 28 \/
  (Z.of_nat (length buff) <= 2 ^ 55 /\ 255 * sum < 2 ^ 63) ->
  0 < Zsum buff ->
  wrap64 (Zsum (map (scale sum (Zsum buff)) buff)) = sum ->
  Forall (fun x => 0 <= x) (map (scale sum (Zsum buff)) buff) /\
  Zsum (map (scale sum (Zsum buff)) buff) = sum.
Proof.
  intros Hb Hs Hn Hpos Hw.
  set (c := Zsum buff) in *.
  pose proof (Zsum_bytes buff Hb) as Hcb. fold c in Hcb.
  assert (Hc : 0 < c < 2 ^ 63) by lia.
  destruct (scale_sums sum c Hs Hc buff Hb) as (W & E & K0 & K2 & D).
  fold c in K2, D.
  set (U := Zsum (map (rounded sum c) buff)) in *.
  pose proof (Zsum_wraps_small sum buff Hb) as Ksmall.
  set (K := Zsum (map (wraps sum) buff)) in *.
  rewrite wrap64_decomp, E in Hw.
  set (j := W + (U - 2 ^ 64 * W + 2 ^ 63) / 2 ^ 64) in *.
  assert (HU : U = sum + 2 ^ 64 * j) by (unfold j; lia).
  assert (HjK : j = 0 /\ K = 0).
  { destruct Hn as [Hn | [Hn Hsmall]].
    - (* few weights: the rounding errors stay below one wrap *)
      assert (Hcn : c * Z.of_nat (length buff) < 2 ^ 64) by nia.
      assert (Hz : c * j + K = 0).
      { assert (- 2 ^ 64 < 2 ^ 64 * (c * j + K) < 2 ^ 64) by nia. lia. }
      assert (Hj : j = 0) by nia.
      split; [exact Hj | nia].
    - (* small products: none wraps *)
      assert (HK : K = 0) by (apply Ksmall; lia).
      split; [| exact HK].
      assert (- Z.of_nat (length buff) <= 2 ^ 64 * j <= Z.of_nat (length buff))
        by nia.
      lia. }
  destruct HjK as [Hj HK].
  assert (Hall : Forall (fun x => wraps sum x = 0) buff)
    by (apply Forall_wraps_zero; assumption).
  assert (Hr0 : Forall (fun x => 0 <= x) (map (rounded sum c) buff)).
  { apply Forall_map. rewrite Forall_forall in *. intros x Hx.
    apply (rounded_exact sum c Hs Hc x (Hall x Hx)). apply (Hb x Hx). }
  assert (Hmap : map (scale sum c) buff = map (rounded sum c) buff).
  { pose proof (Zsum_upper _ Hr0) as Hup. fold U in Hup.
    rewrite Forall_map in Hup. apply map_ext_in. intros x Hx.
    rewrite Forall_forall in Hup, Hall, Hb.
    apply list_elem_of_In in Hx.
    apply (rounded_exact sum c Hs Hc x (Hall x Hx)); [apply (Hb x Hx) |].
    specialize (Hup x Hx). simpl in Hup. lia. }
  rewrite Hmap. split; [exact Hr0 | fold U; lia].
Qed.

(** ** The sum-constrained sampler *)

Lemma draw_bytes s len : Forall is_byte (draw s len).
Proof. apply Read_bytes. Qed.

Lemma length_draw s len : length (draw s len) = Z.to_nat len.
Proof. unfold draw. rewrite Read_length. apply length_replicate. Qed.

Lemma candSum_draw s len :
  len <= 2 ^ 55 -> fold_left int_add (draw s len) 0 = Zsum (draw s len).
Proof.
  intros Hl. rewrite fold_left_int_add_0. apply wrap64_id.
  pose proof (Zsum_bytes _ (draw_bytes s len)) as Hb.
  rewrite length_draw in Hb. lia.
Qed.

Lemma Zsum_zero l : Forall (fun x => x = 0) l -> Zsum l = 0.
Proof. induction 1; simpl; lia. Qed.

Lemma Zsum_zero_inv l :
  Forall (fun x => 0 <= x) l -> Zsum l = 0 -> Forall (fun x => x = 0) l.
Proof.
  induction 1 as [|x l Hx Hl IH]; intros Hz; constructor;
    pose proof (Zsum_nonneg l Hl); simpl in Hz; [lia | apply IH; lia].
Qed.

Lemma bytes_nonneg l : Forall is_byte l -> Forall (fun x => 0 <= x) l.
Proof.
  intros Hl. eapply Forall_impl; [exact Hl |]. unfold is_byte. intros; lia.
Qed.

Lemma Dirichlet_loop_exact fuel len sum :
  0 < len -> 0 <= sum < 2 ^ 63 ->
  len <= 2 ^ 28 \/ (len <= 2 ^ 55 /\ 255 * sum < 2 ^ 63) ->
  forall s (out : list Z) candSum res,
    length out = Z.to_nat len ->
    (candSum = sum ->
     Forall (fun x => 0 <= x) out /\ Zsum out = sum) ->
    Dirichlet_loop fuel len sum s out candSum = Ok res ->
    length res = Z.to_nat len /\ Forall (fun x => 0 <= x) res /\ Zsum res = sum.
Proof.
  intros Hlen Hsum Hrange.
  induction fuel as [|fuel IH]; intros s out candSum res Ho Hinv; simpl.
  - destruct (Z.eqb_spec candSum sum) as [Heq | Hne]; [| discriminate].
    intros [= <-]. split; [exact Ho | apply Hinv, Heq].
  - destruct (Z.eqb_spec candSum sum) as [Heq | Hne].
    { intros [= <-]. split; [exact Ho | apply Hinv, Heq]. }
    rewrite guess_spec by (try exact Ho; lia). cbv zeta.
    fold (draw s len). rewrite candSum_draw by lia.
    destruct (Z.eqb_spec (Zsum (draw s len)) 0) as [Hz | Hz]; simpl.
    { destruct (Z.ltb_spec 0 len); [discriminate | lia]. }
    apply IH.
    + rewrite length_map. apply length_draw.
    + rewrite fold_left_int_add_0. intros Hw.
      pose proof (Zsum_nonneg _ (bytes_nonneg _ (draw_bytes s len))).
      apply scale_exact; try assumption.
      * apply draw_bytes.
      * rewrite length_draw. lia.
      * lia.
Qed.

Lemma Dirichlet_loop_start_exact fuel len sum s (res : list Z) :
  0 < len -> 0 <= sum < 2 ^ 63 ->
  len <= 2 ^ 28 \/ (len <= 2 ^ 55 /\ 255 * sum < 2 ^ 63) ->
  Dirichlet_loop fuel len sum s (replicate (Z.to_nat len) 0) 0 = Ok res ->
  length res = Z.to_nat len /\ Forall (fun x => 0 <= x) res /\ Zsum res = sum.
Proof.
  intros Hlen Hsum Hrange. apply Dirichlet_loop_exact; try assumption.
  - apply length_replicate.
  - intros <-. split.
    + apply Forall_replicate. lia.
    + induction (Z.to_nat len); simpl; lia.
Qed.

Section SamplerProofs.
Context `{Primitives}.

Lemma Dirichlet_unfold fuel label len sum st :
  Dirichlet fuel label len sum st =
  if (len =? 0) && negb (sum =? 0) then Panic ZeroVariables
  else rbind (make_ints len) (fun out =>
       rbind (Stream label st) (fun '(s, st') =>
       rbind (Dirichlet_loop fuel len sum s out 0) (fun r => Ok (r, st')))).
Proof.
  unfold Dirichlet. destruct ((len =? 0) && negb (sum =? 0)); [reflexivity |].
  run_M. destruct (make_ints len); reflexivity.
Qed.

(** A call that returns has derived the stream and left the loop with its
    result. *)
Lemma Dirichlet_inv fuel label len sum st st' (out : list Z) :
  0 < len -> Dirichlet fuel label len sum st = Ok (out, st') ->
  exists s,
    Stream label st = Ok (s, st') /\
    Dirichlet_loop fuel len sum s (replicate (Z.to_nat len) 0) 0 = Ok out.
Proof.
  intros Hlen. rewrite Dirichlet_unfold.
  destruct (Z.eqb_spec len 0) as [| _]; [lia |]. simpl.
  unfold make_ints. destruct (Z.ltb_spec len 0); [lia |]. simpl.
  destruct (Stream label st) as [[s st1]| |]; simpl; try discriminate.
  destruct (Dirichlet_loop fuel len sum s _ 0) as [res| |] eqn:E; simpl;
    try discriminate.
  intros [= <- <-]. exists s. split; [reflexivity | exact E].
Qed.


(** C2, amended.  With [length == 0] the sampler panics when
    [targetSum != 0]; with [targetSum == 0] it returns the empty sequence
    when [Stream] accepts the generator and the label (seed of 16, 24 or 32
    bytes, label of exactly 16 bytes, name of at most 16 bytes), and panics
    otherwise. *)
Theorem Dirichlet_zero_length (fuel : nat) (label : list Z) (sum : Z)
        (st : State) :
  (sum <> 0 -> Dirichlet fuel label 0 sum st = Panic ZeroVariables) /\
  (streamable st label -> Dirichlet fuel label 0 0 st = Ok ([], ticked st)) /\
  (~ streamable st label -> exists p, Dirichlet fuel label 0 0 st = Panic p).
Proof.
  split; [| split].
  - intros Hs. rewrite Dirichlet_unfold. simpl.
    destruct (Z.eqb_spec sum 0); [contradiction | reflexivity].
  - intros Hst. rewrite Dirichlet_unfold. simpl.
    destruct (Stream_ok label st Hst) as (k & _ & _ & ->). simpl.
    destruct fuel; reflexivity.
  - intros Hst. rewrite Dirichlet_unfold. simpl.
    destruct (Stream_panics label st Hst) as (p & ->). simpl. eauto.
Qed.

(** C10.  In a call with [0 < length] the second loop of [guess] divides by
    the sum of the drawn weights without a guard.  At any point [s1] of the
    key stream: when all [length] bytes drawn there are zero, [guess] panics
    with a division by zero, and so does an iteration of the sampler's loop
    that draws them (it does not draw again); when at least one byte drawn
    is nonzero, [guess] returns.  In particular the sampler panics when its
    first draw is all zero and [sum != 0].  ([length <= 2 ^ 55]: the sum of
    the weights does not wrap around.) *)
Theorem guess_divide_by_zero (fuel : nat) (label : list Z) (len sum : Z)
        (st st' : State) (s s1 : ctr) (out : list Z) (candSum : Z) :
  0 < len <= 2 ^ 55 -> length out = Z.to_nat len ->
  (Forall (fun x => x = 0) (draw s1 len) ->
   guess len sum s1 out = Panic DivideByZero /\
   (candSum <> sum ->
    Dirichlet_loop (S fuel) len sum s1 out candSum = Panic DivideByZero)) /\
  (~ Forall (fun x => x = 0) (draw s1 len) ->
   exists out' s2, guess len sum s1 out = Ok (out', s2)) /\
  (Stream label st = Ok (s, st') -> Forall (fun x => x = 0) (draw s len) ->
   sum <> 0 -> Dirichlet (S fuel) label len sum st = Panic DivideByZero).
Proof.
  intros Hlen Ho.
  assert (G : forall (s0 : ctr) (o : list Z), length o = Z.to_nat len ->
            guess len sum s0 o =
            if Zsum (draw s0 len) =? 0 then Panic DivideByZero
            else Ok (map (scale sum (Zsum (draw s0 len))) (draw s0 len),
                     (Read s0 (make_bytes (Z.to_nat len))).2)).
  { intros s0 o Hlo. rewrite guess_spec by (try exact Hlo; lia). cbv zeta.
    fold (draw s0 len). rewrite candSum_draw by lia.
    destruct (Z.eqb_spec (Zsum (draw s0 len)) 0); simpl; [| reflexivity].
    destruct (Z.ltb_spec 0 len); [reflexivity | lia]. }
  split; [| split].
  - intros Hz. apply Zsum_zero in Hz.
    assert (Hg : guess len sum s1 out = Panic DivideByZero)
      by (rewrite (G s1 out Ho), Hz; reflexivity).
    split; [exact Hg |].
    intros Hne. cbn [Dirichlet_loop]. rewrite Hg.
    destruct (Z.eqb_spec candSum sum); [contradiction | reflexivity].
  - intros Hnz. rewrite (G s1 out Ho).
    destruct (Z.eqb_spec (Zsum (draw s1 len)) 0) as [Hz | _]; [| eauto].
    exfalso. apply Hnz. apply Zsum_zero_inv; [| exact Hz].
    apply bytes_nonneg, draw_bytes.
  - intros Hs Hz Hsum. apply Zsum_zero in Hz. rewrite Dirichlet_unfold.
    destruct (Z.eqb_spec len 0) as [| _]; [lia |]. simpl.
    unfold make_ints. destruct (Z.ltb_spec len 0); [lia |]. simpl.
    rewrite Hs. cbn [rbind Dirichlet_loop].
    rewrite G by apply length_replicate. rewrite Hz.
    destruct sum; [lia | reflexivity | reflexivity].
Qed.

End SamplerProofs.

(** ** The sampler at concrete inputs *)


(** The three cases of [Dirichlet_zero_length]. *)
Lemma Dirichlet_zero_length_witness :
  Dirichlet 1 Model.m1 0 5 Model.fresh = Panic ZeroVariables /\
  Dirichlet 1 Model.m1 0 0 Model.fresh = Ok ([], ticked Model.fresh) /\
  exists p, Dirichlet 1 Model.m1_raw 0 0 Model.fresh = Panic p.
Proof.
  split; [| split].
  - apply (proj1 (Dirichlet_zero_length 1 Model.m1 5 Model.fresh)). lia.
  - apply (proj1 (proj2 (Dirichlet_zero_length 1 Model.m1 0 Model.fresh))).
    split; [left; reflexivity | split; [reflexivity | vm_compute; lia]].
  - apply (proj2 (proj2 (Dirichlet_zero_length 1 Model.m1_raw 0 Model.fresh))).
    intros (_ & Hl & _). vm_compute in Hl. lia.
Defined.

(** C2 as stated fails: with [length == 0], [targetSum == 0] and the
    two-byte label ["m1"] the sampler panics, where the claim has it return
    the empty sequence and allows a panic only for [length == 0] and
    [targetSum != 0]. *)
Lemma Dirichlet_panics_counterexample :
  Dirichlet 1 Model.m1_raw 0 0 Model.fresh = Panic InputNotFullBlock /\
  Dirichlet 1 Model.m1_raw 0 0 Model.fresh <> Ok ([], ticked Model.fresh).
Proof. split; vm_compute; [reflexivity | discriminate]. Qed.

(** [guess_divide_by_zero] at a real input: under [zero_label] the key
    stream of [fresh] starts with a zero byte, and the sampler with
    [length = 1] divides by zero. *)
Lemma guess_divide_by_zero_witness :
  Stream Model.zero_label Model.fresh = Ok (Model.zero_stream, ticked Model.fresh) /\
  draw Model.zero_stream 1 = [0] /\
  guess 1 5 Model.zero_stream [0] = Panic DivideByZero /\
  Dirichlet 1 Model.zero_label 1 5 Model.fresh = Panic DivideByZero.
Proof.
  assert (E : Stream Model.zero_label Model.fresh
              = Ok (Model.zero_stream, ticked Model.fresh))
    by (vm_compute; reflexivity).
  assert (D : draw Model.zero_stream 1 = [0]) by (vm_compute; reflexivity).
  assert (Z0 : Forall (fun x => x = 0) (draw Model.zero_stream 1))
    by (rewrite D; repeat constructor).
  split; [exact E |]. split; [exact D |].
  destruct (guess_divide_by_zero 0 Model.zero_label 1 5 Model.fresh
              (ticked Model.fresh) Model.zero_stream Model.zero_stream [0] 0)
    as (Hzero & _ & Hfirst); [lia | reflexivity |].
  split; [apply Hzero, Z0 | apply Hfirst; [exact E | exact Z0 | lia]].
Defined.

(** ** The monotone sequence generator *)

Lemma Monotone_loop_spec n i (out : list Z) a :
  (1 <= i)%nat -> (i + n)%nat = length out ->
  out !! (i - 1)%nat = Some a -> 0 <= a ->
  Forall (fun x => 0 <= x) (drop i out) -> a + Zsum (drop i out) < 2 ^ 63 ->
  Monotone_loop n i out = Ok (take i out ++ running a (drop i out)).
Proof.
  revert i out a. induction n as [|n IH]; intros i out a Hi Hn Ha Ha0 Hpos Hlt; simpl.
  - rewrite drop_ge by lia. rewrite take_ge by lia. now rewrite app_nil_r.
  - destruct (lookup_lt_is_Some_2 out i) as [x Hx]; [lia |].
    rewrite Hx, Ha. rewrite (drop_S out x i Hx) in *.
    apply Forall_cons in Hpos as [Hx0 Hpos]. simpl in Hlt.
    pose proof (Zsum_nonneg _ Hpos) as Hs0.
    assert (Hadd : int_add x a = a + x).
    { unfold int_add. rewrite wrap64_id; lia. }
    rewrite Hadd.
    rewrite (IH (S i) (<[i := a + x]> out) (a + x)).
    + rewrite (take_S_r (<[i := a + x]> out) i (a + x))
        by (apply list_lookup_insert_eq; lia).
      rewrite take_insert_ge by lia. rewrite drop_insert_lt by lia.
      simpl. now rewrite <- app_assoc.
    + lia.
    + rewrite length_insert. lia.
    + replace (S i - 1)%nat with i by lia. apply list_lookup_insert_eq. lia.
    + lia.
    + rewrite drop_insert_lt by lia. exact Hpos.
    + rewrite drop_insert_lt by lia. lia.
Qed.

Lemma running_lower a l :
  Forall (fun x => 0 <= x) l -> Forall (fun y => a <= y) (running a l).
Proof.
  intros Hl. revert a. induction Hl as [|x l Hx Hl IH]; intros a; simpl;
    constructor; [lia |].
  eapply Forall_impl; [apply IH |]. simpl. intros; lia.
Qed.

Lemma running_sorted a l :
  Forall (fun x => 0 <= x) l -> Sorted Z.le (running a l).
Proof.
  intros Hl. revert a. induction Hl as [|x l Hx Hl IH]; intros a; simpl;
    constructor; [apply IH |].
  pose proof (running_lower (a + x) l Hl) as Hlow.
  destruct (running (a + x) l); constructor. now inversion Hlow.
Qed.

Lemma running_last a l :
  l <> [] -> last (running a l) = Some (a + Zsum l).
Proof.
  revert a. induction l as [|x l IH]; intros a Hne; [contradiction |].
  destruct l as [|y l].
  - simpl. f_equal. lia.
  - change (running a (x :: y :: l))
      with ((a + x) :: running (a + x) (y :: l)).
    change (running (a + x) (y :: l))
      with ((a + x + y) :: running (a + x + y) l) at 1.
    rewrite last_cons_cons.
    change ((a + x + y) :: running (a + x + y) l)
      with (running (a + x) (y :: l)).
    rewrite IH by discriminate. f_equal. simpl. lia.
Qed.

Lemma Monotone_loop_prefix_sums (d : list Z) :
  d <> [] -> Forall (fun x => 0 <= x) d -> Zsum d < 2 ^ 63 ->
  Monotone_loop (length d - 1) 1 d = Ok (prefix_sums d).
Proof.
  intros Hne Hpos Hlt. destruct d as [|y d]; [contradiction |].
  apply Forall_cons in Hpos as [Hy Hpos].
  rewrite (Monotone_loop_spec _ 1 (y :: d) y); simpl in *; try lia; auto.
Qed.

Section MonotoneProofs.
Context `{Primitives}.

Lemma Monotone_unfold fuel label len max st :
  Monotone fuel label len max st =
  rbind (Dirichlet fuel label len max st) (fun '(out, st') =>
    rbind (Monotone_loop (Z.to_nat (len - 1)) 1 out) (fun r => Ok (r, st'))).
Proof. reflexivity. Qed.


(** The monotone generator returns only when the sampler does. *)
Lemma Monotone_fails fuel label len max st :
  (forall d st', Dirichlet fuel label len max st <> Ok (d, st')) ->
  forall r, Monotone fuel label len max st <> Ok r.
Proof.
  intros Hd r. rewrite Monotone_unfold.
  destruct (Dirichlet fuel label len max st) as [[d st']| |]; simpl;
    [| discriminate | discriminate].
  exfalso. apply (Hd d st'). reflexivity.
Qed.

End MonotoneProofs.


(** ** Fuel

    The fuel bounds the iterations of the rejection loop.  A result other
    than [OutOfFuel] is the result of the loop itself: more fuel gives the
    same. *)

Lemma Dirichlet_loop_fuel fuel fuel' len sum s (out : list Z) candSum :
  (fuel <= fuel')%nat ->
  Dirichlet_loop fuel len sum s out candSum <> OutOfFuel ->
  Dirichlet_loop fuel' len sum s out candSum
  = Dirichlet_loop fuel len sum s out candSum.
Proof.
  revert fuel' s out candSum.
  induction fuel as [|fuel IH]; intros fuel' s out candSum Hle Hr.
  - destruct fuel'; simpl in *; destruct (candSum =? sum); congruence.
  - destruct fuel' as [|fuel']; [lia |]. simpl in *.
    destruct (candSum =? sum); [reflexivity |].
    destruct (guess len sum s out) as [[o s']| |]; try reflexivity.
    apply IH; [lia | exact Hr].
Qed.

Section FuelProofs.
Context `{Values}.

Lemma Dirichlet_fuel fuel fuel' label len sum (st : State) :
  (fuel <= fuel')%nat ->
  Dirichlet fuel label len sum st <> OutOfFuel ->
  Dirichlet fuel' label len sum st = Dirichlet fuel label len sum st.
Proof.
  intros Hle. rewrite !Dirichlet_unfold.
  destruct ((len =? 0) && negb (sum =? 0)); [reflexivity |].
  destruct (make_ints len) as [o| |]; simpl; try reflexivity.
  destruct (Stream label st) as [[s st']| |]; simpl; try reflexivity.
  intros Hr. rewrite (Dirichlet_loop_fuel fuel fuel'); [reflexivity | exact Hle |].
  intros E. rewrite E in Hr. apply Hr. reflexivity.
Qed.

Lemma Monotone_fuel fuel fuel' label len max (st : State) :
  (fuel <= fuel')%nat ->
  Monotone fuel label len max st <> OutOfFuel ->
  Monotone fuel' label len max st = Monotone fuel label len max st.
Proof.
  intros Hle. rewrite !Monotone_unfold. intros Hr.
  rewrite (Dirichlet_fuel fuel fuel'); [reflexivity | exact Hle |].
  intros E. rewrite E in Hr. apply Hr. reflexivity.
Qed.

End FuelProofs.

(** ** The caches of the permutation and matrix generators *)

Section CacheProofs.
Context `{Primitives}.

Lemma Shuffle_hit label st cached :
  encodingCache (rs st) !! copy16 label = Some cached ->
  Shuffle label st = Ok (cached, st).
Proof.
  intros Hc. unfold Shuffle. run_M. now rewrite Hc.
Qed.

Lemma Matrix_hit label size st cached :
  matrixCache (rs st) !! copy16 label = Some cached ->
  Matrix label size st = Ok (cached, st).
Proof.
  intros Hc. unfold Matrix. run_M. now rewrite Hc.
Qed.

Lemma Shuffle_miss label st :
  encodingCache (rs st) !! copy16 label = None ->
  Shuffle label st =
  rbind (Stream label st) (fun '(s, st') =>
  rbind (encoding_GenerateShuffle s) (fun v =>
    Ok (v, {| rs := storeShuffle (copy16 label) v (rs st');
              derived := derived st' |}))).
Proof.
  intros Hc. unfold Shuffle. run_M.
  rewrite Hc. destruct (Stream label st) as [[s st']| |]; simpl; try reflexivity.
  destruct (encoding_GenerateShuffle s) as [v| |]; simpl; try reflexivity.
  now rewrite lookup_insert_eq.
Qed.

Lemma Matrix_miss label size st :
  matrixCache (rs st) !! copy16 label = None ->
  Matrix label size st =
  rbind (Stream label st) (fun '(s, st') =>
  rbind (matrix_GenerateRandom s size) (fun v =>
    Ok (v, {| rs := storeMatrix (copy16 label) v (rs st');
              derived := derived st' |}))).
Proof.
  intros Hc. unfold Matrix. run_M.
  rewrite Hc. destruct (Stream label st) as [[s st']| |]; simpl; try reflexivity.
  destruct (matrix_GenerateRandom s size) as [v| |]; simpl; try reflexivity.
  now rewrite lookup_insert_eq.
Qed.

(** A returned permutation is in the cache afterwards, under the key of the
    label. *)
Lemma Shuffle_cached label st v st' :
  Shuffle label st = Ok (v, st') ->
  encodingCache (rs st') !! copy16 label = Some v.
Proof.
  destruct (encodingCache (rs st) !! copy16 label) as [c|] eqn:Hc.
  - rewrite (Shuffle_hit _ _ _ Hc). intros [= <- <-]. exact Hc.
  - rewrite (Shuffle_miss _ _ Hc).
    destruct (Stream label st) as [[s st1]| |]; simpl; try discriminate.
    destruct (encoding_GenerateShuffle s) as [w| |]; simpl; try discriminate.
    intros [= <- <-]. simpl. apply lookup_insert_eq.
Qed.

Lemma Matrix_cached label size st v st' :
  Matrix label size st = Ok (v, st') ->
  matrixCache (rs st') !! copy16 label = Some v.
Proof.
  destruct (matrixCache (rs st) !! copy16 label) as [c|] eqn:Hc.
  - rewrite (Matrix_hit _ _ _ _ Hc). intros [= <- <-]. exact Hc.
  - rewrite (Matrix_miss _ _ _ Hc).
    destruct (Stream label st) as [[s st1]| |]; simpl; try discriminate.
    destruct (matrix_GenerateRandom s size) as [w| |]; simpl; try discriminate.
    intros [= <- <-]. simpl. apply lookup_insert_eq.
Qed.

(** C9.  A call of the permutation generator (of the matrix generator, with
    any size) with a label whose key is in the cache returns the stored
    value and leaves the whole state as it is: both caches, the name, the
    seed, and the number of key streams derived.  In particular the second
    of two calls with the same label returns what the first returned and
    changes nothing. *)
Theorem cache_hit_unchanged (label : list Z) (size size' : Z) (st : State) :
  (forall cached, encodingCache (rs st) !! copy16 label = Some cached ->
                  Shuffle label st = Ok (cached, st)) /\
  (forall cached, matrixCache (rs st) !! copy16 label = Some cached ->
                  Matrix label size st = Ok (cached, st)) /\
  (forall v st', Shuffle label st = Ok (v, st') ->
                 Shuffle label st' = Ok (v, st')) /\
  (forall v st', Matrix label size st = Ok (v, st') ->
                 Matrix label size' st' = Ok (v, st')).
Proof.
  split; [| split; [| split]].
  - intros cached. apply Shuffle_hit.
  - intros cached. apply Matrix_hit.
  - intros v st' E. apply Shuffle_hit. eapply Shuffle_cached, E.
  - intros v st' E. apply Matrix_hit. eapply Matrix_cached, E.
Qed.

(** C8, amended.  For two labels with the same 16-byte key (the first 16
    bytes, zero-padded): once a call with one of them has returned a
    permutation (a matrix), a call with the other returns the same value
    from the cache and changes nothing, whatever the labels are beyond byte
    16; and when the key is not in the cache, a call with a label that is
    not exactly 16 bytes long panics. *)
Theorem cache_key_collision (l1 l2 : list Z) (size1 size2 : Z) (st : State) :
  copy16 l1 = copy16 l2 ->
  (forall v st', Shuffle l1 st = Ok (v, st') -> Shuffle l2 st' = Ok (v, st')) /\
  (forall v st', Matrix l1 size1 st = Ok (v, st') ->
                 Matrix l2 size2 st' = Ok (v, st')) /\
  (length l1 <> 16%nat ->
   (encodingCache (rs st) !! copy16 l1 = None ->
    exists p, Shuffle l1 st = Panic p) /\
   (matrixCache (rs st) !! copy16 l1 = None ->
    exists p, Matrix l1 size1 st = Panic p)).
Proof.
  intros Hk. split; [| split].
  - intros v st' E. apply Shuffle_hit. rewrite <- Hk. eapply Shuffle_cached, E.
  - intros v st' E. apply Matrix_hit. rewrite <- Hk. eapply Matrix_cached, E.
  - intros Hl.
    destruct (Stream_panics l1 st) as (p & Hp).
    { intros (_ & Hl' & _). contradiction. }
    split; intros Hc.
    + rewrite (Shuffle_miss _ _ Hc), Hp. simpl. eauto.
    + rewrite (Matrix_miss _ _ _ Hc), Hp. simpl. eauto.
Qed.

End CacheProofs.

(** ** The caches at concrete labels *)

(** [cache_hit_unchanged] at the second of two calls [Shuffle(m1)] on a
    fresh generator: one key stream was derived, by the first call. *)
Lemma cache_hit_unchanged_witness :
  exists v st',
    Shuffle Model.m1 Model.fresh = Ok (v, st') /\
    encodingCache (rs st') !! copy16 Model.m1 = Some v /\
    Shuffle Model.m1 st' = Ok (v, st') /\
    derived st' = 1%nat.
Proof.
  eexists. eexists.
  assert (E : Shuffle Model.m1 Model.fresh = Ok (_, _)) by (vm_compute; reflexivity).
  split; [exact E |].
  split; [vm_compute; reflexivity |].
  split; [| reflexivity].
  apply (proj1 (proj2 (proj2 (cache_hit_unchanged Model.m1 8 8 Model.fresh))) _ _ E).
Defined.

(** [cache_key_collision] at the labels [m1] and [m1_long], which share
    their key: after the call with [m1], the call with [m1_long] returns
    the cached permutation. *)
Lemma cache_key_collision_witness :
  copy16 Model.m1 = copy16 Model.m1_long /\
  exists v st',
    Shuffle Model.m1 Model.fresh = Ok (v, st') /\
    Shuffle Model.m1_long st' = Ok (v, st').
Proof.
  assert (Hk : copy16 Model.m1 = copy16 Model.m1_long) by (vm_compute; reflexivity).
  split; [exact Hk |].
  eexists. eexists.
  assert (E : Shuffle Model.m1 Model.fresh = Ok (_, _)) by (vm_compute; reflexivity).
  split; [exact E |].
  apply (proj1 (cache_key_collision Model.m1 Model.m1_long 8 8 Model.fresh Hk) _ _ E).
Defined.

(** C8 as stated fails: the labels [m1] (16 bytes) and [m1_long] (17 bytes)
    agree on their first 16 bytes; on a fresh generator the call with [m1]
    returns a permutation (a matrix), the call with [m1_long] panics. *)
Lemma cache_key_counterexample :
  copy16 Model.m1 = copy16 Model.m1_long /\
  (exists v st', Shuffle Model.m1 Model.fresh = Ok (v, st')) /\
  Shuffle Model.m1_long Model.fresh = Panic IVLength /\
  (exists v st', Matrix Model.m1 8 Model.fresh = Ok (v, st')) /\
  Matrix Model.m1_long 8 Model.fresh = Panic IVLength.
Proof.
  split; [vm_compute; reflexivity |].
  split; [eexists; eexists; vm_compute; reflexivity |].
  split; [vm_compute; reflexivity |].
  split; [eexists; eexists; vm_compute; reflexivity |].
  vm_compute; reflexivity.
Qed.

(** ** Determinism *)

Lemma value_rbind {A B} `{Values} (r : result (A * State)) (f : A -> result B) :
  value (rbind r (fun '(a, st') => rbind (f a) (fun b => Ok (b, st'))))
  = rbind (value r) f.
Proof.
  destruct r as [[a st']| |]; simpl; try reflexivity.
  destruct (f a); reflexivity.
Qed.

Section DeterminismProofs.
Context `{Primitives}.

(** What the read-only derivations return depends on the name and the seed
    only. *)
Lemma subKey_value label st1 st2 :
  Name (rs st1) = Name (rs st2) -> Seed (rs st1) = Seed (rs st2) ->
  value (subKey label st1) = value (subKey label st2).
Proof.
  intros HN HS. rewrite !subKey_unfold. unfold name_bytes. rewrite HN, HS.
  destruct (rbind (Encrypt _ _ label) _); reflexivity.
Qed.

Lemma Stream_value label st1 st2 :
  Name (rs st1) = Name (rs st2) -> Seed (rs st1) = Seed (rs st2) ->
  value (Stream label st1) = value (Stream label st2).
Proof.
  intros HN HS. rewrite !Stream_unfold.
  rewrite !(value_rbind _ (fun k => NewCTR (NewCipher k).1 label)).
  f_equal. apply subKey_value; assumption.
Qed.

Lemma streamPrefix_value label n st1 st2 :
  Name (rs st1) = Name (rs st2) -> Seed (rs st1) = Seed (rs st2) ->
  value (streamPrefix label n st1) = value (streamPrefix label n st2).
Proof.
  intros HN HS. pose proof (Stream_value label st1 st2 HN HS) as E.
  unfold streamPrefix. run_M.
  destruct (Stream label st1) as [[s1 st1']| |],
           (Stream label st2) as [[s2 st2']| |]; simpl in *; congruence.
Qed.

Lemma Dirichlet_value fuel label len sum st1 st2 :
  Name (rs st1) = Name (rs st2) -> Seed (rs st1) = Seed (rs st2) ->
  value (Dirichlet fuel label len sum st1)
  = value (Dirichlet fuel label len sum st2).
Proof.
  intros HN HS. pose proof (Stream_value label st1 st2 HN HS) as E.
  rewrite !Dirichlet_unfold.
  destruct ((len =? 0) && negb (sum =? 0)); [reflexivity |].
  destruct (make_ints len) as [o| |]; simpl; try reflexivity.
  destruct (Stream label st1) as [[s1 st1']| |],
           (Stream label st2) as [[s2 st2']| |]; simpl in *;
    try congruence.
  injection E as <-. destruct (Dirichlet_loop fuel len sum s1 o 0); reflexivity.
Qed.

Lemma Monotone_value fuel label len max st1 st2 :
  Name (rs st1) = Name (rs st2) -> Seed (rs st1) = Seed (rs st2) ->
  value (Monotone fuel label len max st1)
  = value (Monotone fuel label len max st2).
Proof.
  intros HN HS. pose proof (Dirichlet_value fuel label len max st1 st2 HN HS) as E.
  rewrite !Monotone_unfold.
  rewrite !(value_rbind _ (fun out => Monotone_loop (Z.to_nat (len - 1)) 1 out)).
  now rewrite E.
Qed.

(** A call that returns keeps the name and the seed, and every entry of
    both caches. *)
Lemma Dirichlet_state fuel label len sum v st st' :
  Dirichlet fuel label len sum st = Ok (v, st') -> st' = ticked st.
Proof.
  rewrite Dirichlet_unfold.
  destruct ((len =? 0) && negb (sum =? 0)); [discriminate |].
  destruct (make_ints len) as [o| |]; simpl; try discriminate.
  destruct (Stream label st) as [[s st1]| |] eqn:E; simpl; try discriminate.
  apply Stream_state in E as ->.
  destruct (Dirichlet_loop fuel len sum s o 0); simpl; try discriminate.
  now intros [= _ <-].
Qed.

Lemma step_keeps st st' :
  step st st' ->
  Name (rs st') = Name (rs st) /\ Seed (rs st') = Seed (rs st) /\
  (forall k v, encodingCache (rs st) !! k = Some v ->
               encodingCache (rs st') !! k = Some v) /\
  (forall k v, matrixCache (rs st) !! k = Some v ->
               matrixCache (rs st') !! k = Some v).
Proof.
  destruct 1 as [label k st st' E | label s st st' E | label v st st' E
                | label size v st st' E | fuel label len sum v st st' E
                | fuel label len max v st st' E].
  - rewrite subKey_unfold in E.
    destruct (rbind (Encrypt _ _ label) _); simpl in E; try discriminate.
    injection E as _ <-. auto.
  - apply Stream_state in E as ->. simpl. auto.
  - destruct (encodingCache (rs st) !! copy16 label) as [c|] eqn:Hc.
    + rewrite (Shuffle_hit _ _ _ Hc) in E. injection E as _ <-. auto.
    + rewrite (Shuffle_miss _ _ Hc) in E.
      destruct (Stream label st) as [[s st1]| |] eqn:Es; simpl in E;
        try discriminate.
      apply Stream_state in Es as ->.
      destruct (encoding_GenerateShuffle s); simpl in E; try discriminate.
      injection E as _ <-. simpl.
      split; [reflexivity |]. split; [reflexivity |]. split; [| auto].
      intros k w Hk. rewrite lookup_insert_ne; [exact Hk | congruence].
  - destruct (matrixCache (rs st) !! copy16 label) as [c|] eqn:Hc.
    + rewrite (Matrix_hit _ _ _ _ Hc) in E. injection E as _ <-. auto.
    + rewrite (Matrix_miss _ _ _ Hc) in E.
      destruct (Stream label st) as [[s st1]| |] eqn:Es; simpl in E;
        try discriminate.
      apply Stream_state in Es as ->.
      destruct (matrix_GenerateRandom s size); simpl in E; try discriminate.
      injection E as _ <-. simpl.
      split; [reflexivity |]. split; [reflexivity |]. split; [auto |].
      intros k w Hk. rewrite lookup_insert_ne; [exact Hk | congruence].
  - apply Dirichlet_state in E as ->. simpl. auto.
  - rewrite Monotone_unfold in E.
    destruct (Dirichlet fuel label len max st) as [[d st1]| |] eqn:D;
      simpl in E; try discriminate.
    apply Dirichlet_state in D as ->.
    destruct (Monotone_loop _ 1 d); simpl in E; try discriminate.
    injection E as _ <-. simpl. auto.
Qed.

Lemma steps_keep st st' :
  rtc step st st' ->
  Name (rs st') = Name (rs st) /\ Seed (rs st') = Seed (rs st) /\
  (forall k v, encodingCache (rs st) !! k = Some v ->
               encodingCache (rs st') !! k = Some v) /\
  (forall k v, matrixCache (rs st) !! k = Some v ->
               matrixCache (rs st') !! k = Some v).
Proof.
  induction 1 as [st | st st1 st' Hs _ IH]; [auto |].
  destruct (step_keeps _ _ Hs) as (N1 & S1 & E1 & M1).
  destruct IH as (N2 & S2 & E2 & M2).
  repeat split; [congruence | congruence | auto | auto].
Qed.

End DeterminismProofs.

(** ** The cache holds what the generators derive *)

Lemma copy16_block (label : list Z) : length label = 16%nat -> copy16 label = label.
Proof.
  intros Hl. unfold copy16. rewrite take_ge by lia. rewrite Hl. apply app_nil_r.
Qed.

Section SoundProofs.
Context `{Primitives}.

Lemma Stream_returns_block label s st st' :
  Stream label st = Ok (s, st') -> length label = 16%nat.
Proof.
  intros E. destruct (Nat.eq_dec (length label) 16%nat) as [Hl | Hl]; [exact Hl |].
  destruct (Stream_panics label st) as (p & Hp).
  - intros (_ & Hl' & _). contradiction.
  - congruence.
Qed.

Lemma cache_sound_keys st st' :
  Name (rs st') = Name (rs st) -> Seed (rs st') = Seed (rs st) ->
  encodingCache (rs st') = encodingCache (rs st) ->
  matrixCache (rs st') = matrixCache (rs st) ->
  cache_sound st -> cache_sound st'.
Proof.
  intros HN HS HE HM [He Hm]. split.
  - intros k v Hk. rewrite (Stream_value k st' st HN HS). apply He. congruence.
  - intros k v Hk. rewrite (Stream_value k st' st HN HS). apply Hm. congruence.
Qed.

Lemma step_sound st st' : step st st' -> cache_sound st -> cache_sound st'.
Proof.
  intros Hs Hc.
  destruct Hs as [label k st st' E | label s st st' E | label v st st' E
                 | label size v st st' E | fuel label len sum v st st' E
                 | fuel label len max v st st' E].
  - rewrite subKey_unfold in E.
    destruct (rbind (Encrypt _ _ label) _); simpl in E; try discriminate.
    injection E as _ <-. exact Hc.
  - apply Stream_state in E as ->. now apply (cache_sound_keys st).
  - destruct (encodingCache (rs st) !! copy16 label) as [c|] eqn:Hk.
    + rewrite (Shuffle_hit _ _ _ Hk) in E. injection E as _ <-. exact Hc.
    + rewrite (Shuffle_miss _ _ Hk) in E.
      destruct (Stream label st) as [[s st1]| |] eqn:Es; simpl in E;
        try discriminate.
      pose proof (Stream_state _ _ _ _ Es); subst st1.
      destruct (encoding_GenerateShuffle s) as [w| |] eqn:Eg; simpl in E;
        try discriminate.
      injection E as <- <-. destruct Hc as [He Hm].
      pose proof (Stream_returns_block _ _ _ _ Es) as Hl.
      rewrite (copy16_block label Hl) in *.
      split; simpl.
      * intros k v. rewrite lookup_insert. case_decide as Hd.
        -- intros [= <-]. subst k.
           erewrite Stream_value; [rewrite Es; exact Eg | reflexivity ..].
        -- intros Hv. erewrite Stream_value; [apply He, Hv | reflexivity ..].
      * intros k v Hv. erewrite Stream_value; [apply Hm, Hv | reflexivity ..].
  - destruct (matrixCache (rs st) !! copy16 label) as [c|] eqn:Hk.
    + rewrite (Matrix_hit _ _ _ _ Hk) in E. injection E as _ <-. exact Hc.
    + rewrite (Matrix_miss _ _ _ Hk) in E.
      destruct (Stream label st) as [[s st1]| |] eqn:Es; simpl in E;
        try discriminate.
      pose proof (Stream_state _ _ _ _ Es); subst st1.
      destruct (matrix_GenerateRandom s size) as [w| |] eqn:Eg; simpl in E;
        try discriminate.
      injection E as <- <-. destruct Hc as [He Hm].
      pose proof (Stream_returns_block _ _ _ _ Es) as Hl.
      rewrite (copy16_block label Hl) in *.
      split; simpl.
      * intros k v Hv. erewrite Stream_value; [apply He, Hv | reflexivity ..].
      * intros k v. rewrite lookup_insert. case_decide as Hd.
        -- intros [= <-]. subst k. exists size.
           erewrite Stream_value; [rewrite Es; exact Eg | reflexivity ..].
        -- intros Hv. erewrite Stream_value; [apply Hm, Hv | reflexivity ..].
  - apply Dirichlet_state in E as ->. now apply (cache_sound_keys st).
  - rewrite Monotone_unfold in E.
    destruct (Dirichlet fuel label len max st) as [[d st1]| |] eqn:D;
      simpl in E; try discriminate.
    apply Dirichlet_state in D as ->.
    destruct (Monotone_loop _ 1 d); simpl in E; try discriminate.
    injection E as _ <-. now apply (cache_sound_keys st).
Qed.

Lemma newState_sound name seed : cache_sound (newState name seed).
Proof. split; intros k v Hk; simpl in Hk; now rewrite lookup_empty in Hk. Qed.

Lemma reachable_sound name seed st :
  rtc step (newState name seed) st ->
  cache_sound st /\ Name (rs st) = name /\ Seed (rs st) = seed.
Proof.
  intros Hr. split.
  - revert st Hr. apply rtc_ind_r; [apply newState_sound |].
    intros y z _ Hs IH. eapply step_sound; eassumption.
  - destruct (steps_keep _ _ Hr) as (HN & HS & _). simpl in *. auto.
Qed.

Lemma Shuffle_value_miss label st :
  encodingCache (rs st) !! copy16 label = None ->
  value (Shuffle label st) = rbind (value (Stream label st)) encoding_GenerateShuffle.
Proof.
  intros Hk. rewrite (Shuffle_miss _ _ Hk).
  destruct (Stream label st) as [[s st1]| |]; simpl; try reflexivity.
  destruct (encoding_GenerateShuffle s); reflexivity.
Qed.

Lemma Matrix_value_miss label size st :
  matrixCache (rs st) !! copy16 label = None ->
  value (Matrix label size st)
  = rbind (value (Stream label st)) (fun s => matrix_GenerateRandom s size).
Proof.
  intros Hk. rewrite (Matrix_miss _ _ _ Hk).
  destruct (Stream label st) as [[s st1]| |]; simpl; try reflexivity.
  destruct (matrix_GenerateRandom s size); reflexivity.
Qed.

Lemma Shuffle_value_sound label st :
  cache_sound st -> length label = 16%nat ->
  value (Shuffle label st) = rbind (value (Stream label st)) encoding_GenerateShuffle.
Proof.
  intros [He _] Hl.
  destruct (encodingCache (rs st) !! copy16 label) as [c|] eqn:Hk.
  - rewrite (Shuffle_hit _ _ _ Hk). simpl. symmetry. apply He.
    now rewrite <- (copy16_block label Hl).
  - now apply Shuffle_value_miss.
Qed.

End SoundProofs.

(** ** Determinism of the derivations *)

Section DeterminismTheorem.
Context `{Primitives}.

(** C4, amended.  Let [st1] and [st2] be two states of generators
    constructed with the same name and seed, each after any sequence of
    calls (none, for a fresh generator).  The subkey, the prefix of the key
    stream, the sampler and the monotone generator return the same in [st1]
    and in [st2].  The permutation generator returns the same in both for a
    label of one block, and for any label whose key is in neither cache (so
    on two fresh generators); the matrix generator returns the same in both
    when the key is in neither cache.  On one generator, a later call of the
    permutation (matrix) generator with the same label returns what an
    earlier call returned.  Beyond these cases the two cached generators are
    not a function of seed, name, label and size: what they return depends
    on what the cache holds. *)
Theorem derivations_deterministic (name : string) (seed label : list Z)
        (n fuel : nat) (len sum size : Z) (st1 st2 : State) :
  rtc step (newState name seed) st1 ->
  rtc step (newState name seed) st2 ->
  value (subKey label st1) = value (subKey label st2) /\
  value (streamPrefix label n st1) = value (streamPrefix label n st2) /\
  value (Dirichlet fuel label len sum st1)
    = value (Dirichlet fuel label len sum st2) /\
  value (Monotone fuel label len sum st1)
    = value (Monotone fuel label len sum st2) /\
  (length label = 16%nat ->
   value (Shuffle label st1) = value (Shuffle label st2)) /\
  (encodingCache (rs st1) !! copy16 label = None ->
   encodingCache (rs st2) !! copy16 label = None ->
   value (Shuffle label st1) = value (Shuffle label st2)) /\
  (matrixCache (rs st1) !! copy16 label = None ->
   matrixCache (rs st2) !! copy16 label = None ->
   value (Matrix label size st1) = value (Matrix label size st2)) /\
  (forall v st1' st1'',
     Shuffle label st1 = Ok (v, st1') -> rtc step st1' st1'' ->
     value (Shuffle label st1'') = Ok v) /\
  (forall v st1' st1'',
     Matrix label size st1 = Ok (v, st1') -> rtc step st1' st1'' ->
     value (Matrix label size st1'') = Ok v).
Proof.
  intros R1 R2.
  destruct (reachable_sound _ _ _ R1) as (C1 & N1 & S1).
  destruct (reachable_sound _ _ _ R2) as (C2 & N2 & S2).
  assert (HN : Name (rs st1) = Name (rs st2)) by congruence.
  assert (HS : Seed (rs st1) = Seed (rs st2)) by congruence.
  split; [now apply subKey_value |].
  split; [now apply streamPrefix_value |].
  split; [now apply Dirichlet_value |].
  split; [now apply Monotone_value |].
  split.
  { intros Hl. rewrite !Shuffle_value_sound by assumption.
    now rewrite (Stream_value label st1 st2). }
  split.
  { intros K1 K2. rewrite !Shuffle_value_miss by assumption.
    now rewrite (Stream_value label st1 st2). }
  split.
  { intros K1 K2. rewrite !Matrix_value_miss by assumption.
    now rewrite (Stream_value label st1 st2). }
  split.
  - intros v st1' st1'' E Hr. apply Shuffle_cached in E.
    destruct (steps_keep _ _ Hr) as (_ & _ & Keep & _).
    rewrite (Shuffle_hit label st1'' v (Keep _ _ E)). reflexivity.
  - intros v st1' st1'' E Hr. apply Matrix_cached in E.
    destruct (steps_keep _ _ Hr) as (_ & _ & _ & Keep).
    rewrite (Matrix_hit label size st1'' v (Keep _ _ E)). reflexivity.
Qed.

End DeterminismTheorem.

(** [derivations_deterministic] at a fresh generator and at the same
    generator after two calls. *)
Lemma derivations_deterministic_witness :
  rtc step (newState "test" Model.seed0) Model.fresh /\
  rtc step (newState "test" Model.seed0) Model.used /\
  value (Dirichlet 50 Model.m1 4 10 Model.fresh)
    = value (Dirichlet 50 Model.m1 4 10 Model.used) /\
  value (Shuffle Model.m1 Model.fresh) = value (Shuffle Model.m1 Model.used).
Proof.
  assert (R1 : rtc step (newState "test" Model.seed0) Model.fresh)
    by apply rtc_refl.
  assert (R2 : rtc step (newState "test" Model.seed0) Model.used).
  { eapply rtc_l; [eapply (step_Shuffle Model.m1); vm_compute; reflexivity |].
    eapply rtc_l; [eapply (step_Matrix Model.m1 8); vm_compute; reflexivity |].
    apply rtc_refl. }
  split; [exact R1 |]. split; [exact R2 |].
  destruct (derivations_deterministic "test" Model.seed0 Model.m1 0 50 4 10 8
              Model.fresh Model.used R1 R2)
    as (_ & _ & D & _ & P & _).
  split; [exact D | apply P; reflexivity].
Defined.

(** C4 as stated fails for the two cached generators.  On the generator
    [fresh] the call [Matrix(m1, 16)] returns a matrix of 16 rows; on the
    same generator after [Shuffle(m1)] and [Matrix(m1, 8)] it returns the
    cached matrix of 8 rows.  With the two-byte label ["m1"], whose key is
    that of [m1], [Shuffle] panics on [fresh] and returns the cached
    permutation after the two calls. *)
Lemma derivations_cache_counterexample :
  rtc step (newState "test" Model.seed0) Model.fresh /\
  rtc step (newState "test" Model.seed0) Model.used /\
  (exists a c,
     value (Matrix Model.m1 16 Model.fresh) = Ok a /\
     value (Matrix Model.m1 16 Model.used) = Ok c /\
     length a = 16%nat /\ length c = 8%nat) /\
  value (Matrix Model.m1 16 Model.fresh) <> value (Matrix Model.m1 16 Model.used) /\
  value (Shuffle Model.m1_raw Model.fresh) = Panic InputNotFullBlock /\
  value (Shuffle Model.m1_raw Model.used) = value (Shuffle Model.m1 Model.fresh) /\
  value (Shuffle Model.m1_raw Model.fresh) <> value (Shuffle Model.m1_raw Model.used).
Proof.
  split; [apply rtc_refl |].
  split.
  { eapply rtc_l; [eapply (step_Shuffle Model.m1); vm_compute; reflexivity |].
    eapply rtc_l; [eapply (step_Matrix Model.m1 8); vm_compute; reflexivity |].
    apply rtc_refl. }
  split.
  { eexists. eexists.
    split; [vm_compute; reflexivity |].
    split; [vm_compute; reflexivity |].
    split; reflexivity. }
  split; [intros E; vm_compute in E; discriminate E |].
  split; [vm_compute; reflexivity |].
  split; [vm_compute; reflexivity |].
  intros E; vm_compute in E; discriminate E.
Qed.

(** * Further properties of the code *)

(** ** Bytes *)

Lemma byte_xor_0_l k : is_byte k -> byte_xor 0 k = k.
Proof.
  unfold is_byte, byte_xor. intros Hk. rewrite Z.lxor_0_l.
  change 255 with (Z.ones 8). rewrite Z.land_ones by lia.
  apply Z.mod_small. lia.
Qed.

Lemma byte_xor_0_r k : is_byte k -> byte_xor k 0 = k.
Proof.
  unfold is_byte, byte_xor. intros Hk. rewrite Z.lxor_0_r.
  change 255 with (Z.ones 8). rewrite Z.land_ones by lia.
  apply Z.mod_small. lia.
Qed.

Lemma zip_with_byte_xor_bytes (a b : list Z) :
  Forall is_byte (zip_with byte_xor a b).
Proof.
  revert b. induction a as [|x a IH]; intros [|y b]; simpl; constructor;
    [apply byte_xor_range | apply IH].
Qed.

Lemma Cipher_bytes w block : Forall is_byte (AES.Cipher w block).
Proof. unfold AES.Cipher, AES.AddRoundKey. apply zip_with_byte_xor_bytes. Qed.

(** ** The key stream, block by block *)

(** Bytes taken from the buffered key stream. *)
Lemma XORKeyStream_buffered k c (o src : list Z) :
  (length src <= length o)%nat ->
  XORKeyStream {| b := k; counter := c; out := o |} src
  = (zip_with byte_xor src o,
     {| b := k; counter := c; out := drop (length src) o |}).
Proof.
  revert o. induction src as [|s src IH]; intros o Hl; [reflexivity |].
  destruct o as [|y o]; simpl in Hl; [lia |].
  rewrite XORKeyStream_cons. unfold nextByte. simpl.
  rewrite IH by lia. reflexivity.
Qed.

Lemma zip_with_byte_xor_zeros (o : list Z) n :
  Forall is_byte o -> n = length o ->
  zip_with byte_xor (replicate n 0) o = o.
Proof.
  intros Ho ->. induction Ho as [|y o Hy Ho IH]; simpl; [reflexivity |].
  now rewrite byte_xor_0_l, IH.
Qed.

Lemma Read_block key iv (dst : list Z) :
  valid_key key -> length dst = 16%nat ->
  Read {| b := {| enc := AES.KeyExpansion key |}; counter := iv; out := [] |} dst
  = (AES.Cipher (AES.KeyExpansion key) iv,
     {| b := {| enc := AES.KeyExpansion key |};
        counter := nextCounter iv; out := [] |}).
Proof.
  intros Hk Hl. rewrite Read_eq.
  pose proof (length_Cipher key iv Hk) as HL.
  pose proof (Cipher_bytes (AES.KeyExpansion key) iv) as HB.
  destruct dst as [|d dst]; [discriminate |]. simpl in Hl.
  cbn [map]. rewrite XORKeyStream_cons. unfold nextByte, refill. simpl.
  destruct (AES.Cipher (AES.KeyExpansion key) iv) as [|y o] eqn:E;
    [discriminate |].
  simpl in HL. apply Forall_cons in HB as [Hy Ho]. simpl.
  rewrite XORKeyStream_buffered by (rewrite length_map; lia).
  rewrite length_map.
  replace (map (fun _ : Z => 0) dst) with (replicate (length o) 0).
  - rewrite zip_with_byte_xor_zeros by (try assumption; reflexivity).
    rewrite byte_xor_0_l by exact Hy.
    rewrite drop_ge by lia. reflexivity.
  - replace (length o) with (length dst) by lia.
    clear. induction dst; simpl; congruence.
Qed.

Lemma XORKeyStream_app x (l1 l2 : list Z) :
  XORKeyStream x (l1 ++ l2)
  = let (d1, x1) := XORKeyStream x l1 in
    let (d2, x2) := XORKeyStream x1 l2 in (d1 ++ d2, x2).
Proof.
  revert x. induction l1 as [|s l1 IH]; intros x.
  - simpl. destruct (XORKeyStream x l2). reflexivity.
  - rewrite <- app_comm_cons, !XORKeyStream_cons.
    destruct (nextByte x) as [k x0]. rewrite IH.
    destruct (XORKeyStream x0 l1) as [d1 x1].
    destruct (XORKeyStream x1 l2) as [d2 x2]. reflexivity.
Qed.

(** The counter as a big-endian integer. *)

Lemma length_incr l : length (incr l) = length l.
Proof.
  induction l as [|x l IH]; simpl; [reflexivity |].
  destruct (Z.land (x + 1) 255 =? 0); simpl; congruence.
Qed.

Lemma length_nextCounter c : length (nextCounter c) = length c.
Proof. unfold nextCounter. now rewrite length_rev, length_incr, length_rev. Qed.

Lemma littleEndian_incr l :
  Forall is_byte l ->
  littleEndian (incr l) = (littleEndian l + 1) mod 256 ^ Z.of_nat (length l).
Proof.
  induction 1 as [|x l Hx Hl IH]; [reflexivity |].
  assert (Hb : 0 <= littleEndian l < 256 ^ Z.of_nat (length l)).
  { clear IH. induction Hl as [|y l Hy Hl IH]; [simpl; lia |].
    cbn [littleEndian length]. rewrite Nat2Z.inj_succ, Z.pow_succ_r by lia.
    unfold is_byte in Hy. lia. }
  cbn [incr littleEndian length]. rewrite Nat2Z.inj_succ, Z.pow_succ_r by lia.
  unfold is_byte in Hx.
  change 255 with (Z.ones 8). rewrite Z.land_ones by lia.
  change (2 ^ 8) with 256.
  destruct (Z.eqb_spec ((x + 1) mod 256) 0) as [E | E]; cbn [littleEndian].
  - assert (x = 255).
    { destruct (Z.eq_dec x 255) as [|Hne]; [assumption |].
      rewrite Z.mod_small in E by lia. lia. }
    subst x. rewrite IH. change ((255 + 1) mod 256) with 0.
    set (P := 256 ^ Z.of_nat (length l)) in *.
    replace (255 + 256 * littleEndian l + 1) with (256 * (littleEndian l + 1))
      by lia.
    rewrite Z.mul_mod_distr_l by lia. lia.
  - assert (x < 255).
    { destruct (Z.eq_dec x 255) as [->|Hne]; [| lia]. exfalso. apply E. reflexivity. }
    rewrite (Z.mod_small (x + 1)) by lia.
    rewrite Z.mod_small; lia.
Qed.

(** The successor counter is the counter plus one, as a big-endian integer
    of as many bytes. *)
Lemma bigEndian_nextCounter c :
  Forall is_byte c ->
  bigEndian (nextCounter c) = (bigEndian c + 1) mod 256 ^ Z.of_nat (length c).
Proof.
  intros Hc. unfold bigEndian, nextCounter. rewrite rev_involutive.
  rewrite littleEndian_incr by (apply Forall_rev; exact Hc).
  now rewrite length_rev.
Qed.

(** Reading a buffer in two parts gives the bytes that one read of the
    whole buffer gives, and leaves the stream in the same state. *)
Lemma Read_app (x : ctr) (d1 d2 : list Z) :
  Read x (d1 ++ d2)
  = ((Read x d1).1 ++ (Read (Read x d1).2 d2).1, (Read (Read x d1).2 d2).2).
Proof.
  rewrite !Read_eq, map_app, XORKeyStream_app.
  destruct (XORKeyStream x (map (fun _ => 0) d1)) as [r1 x1]. simpl.
  destruct (XORKeyStream x1 (map (fun _ => 0) d2)). reflexivity.
Qed.

(** What is read from a fresh counter-mode stream is the key stream
    itself, whatever the buffer held before: a buffer of [n] blocks is
    filled with the encryptions of the counter blocks [iv], [iv + 1], ...,
    and the stream is left at the counter block [iv + n] with nothing
    buffered. *)
Lemma Read_keystream (key iv dst : list Z) (n : nat) :
  valid_key key -> length dst = (16 * n)%nat ->
  Read {| b := {| enc := AES.KeyExpansion key |}; counter := iv; out := [] |} dst
  = (keystream {| enc := AES.KeyExpansion key |} iv n,
     {| b := {| enc := AES.KeyExpansion key |};
        counter := Nat.iter n nextCounter iv; out := [] |}).
Proof.
  intros Hk. revert iv dst. induction n as [|n IH]; intros iv dst Hl.
  - destruct dst; [reflexivity | discriminate].
  - rewrite <- (take_drop 16 dst), Read_app.
    rewrite Read_block by (try assumption; rewrite length_take; lia).
    cbn [fst snd]. rewrite IH by (rewrite length_drop; lia).
    cbn [fst snd keystream enc]. f_equal. f_equal.
    rewrite Nat.iter_succ_r. reflexivity.
Qed.

Lemma length_make_bytes n : length (make_bytes n) = n.
Proof. apply length_replicate. Qed.

Lemma make_bytes_add n m : make_bytes (n + m) = make_bytes n ++ make_bytes m.
Proof. unfold make_bytes. apply replicate_add. Qed.

(** [devNull] zeroes the buffer before the key stream is xored into it:
    what is read does not depend on what the buffer held. *)
Lemma Read_zeroed x (dst : list Z) : Read x dst = Read x (make_bytes (length dst)).
Proof.
  rewrite !Read_eq. f_equal. unfold make_bytes.
  induction dst as [|d dst IH]; simpl; [reflexivity | now rewrite IH].
Qed.

(** A shorter read returns a prefix of a longer one. *)
Lemma Read_prefix x n m :
  (n <= m)%nat ->
  (Read x (make_bytes n)).1 = take n (Read x (make_bytes m)).1.
Proof.
  intros Hle. replace m with (n + (m - n))%nat by lia.
  rewrite make_bytes_add, Read_app. cbn [fst].
  rewrite take_app_length'; [reflexivity |].
  now rewrite Read_length, length_make_bytes.
Qed.

Lemma Z2Nat_mul_nat j len : Z.to_nat (Z.of_nat j * len) = (j * Z.to_nat len)%nat.
Proof.
  destruct (Z.le_gt_cases 0 len) as [Hl | Hl].
  - rewrite Z2Nat.inj_mul by lia. now rewrite Nat2Z.id.
  - rewrite (Z2Nat.nonpos len) by lia. rewrite Nat.mul_0_r.
    apply Z2Nat.nonpos. nia.
Qed.

Section KeyStreamProofs.
Context `{Values}.

(** X1.  The reader that [Stream] returns gives the AES key stream in
    counter mode under the subkey of the label, with the label as the
    first counter block: whatever the buffer holds before, a read fills it
    with the first bytes of the encryptions of [label], [label + 1], ... *)
Theorem Stream_keystream (label : list Z) (st : State) :
  streamable st label ->
  exists k s,
    subKey label st = Ok (k, st) /\
    Stream label st = Ok (s, ticked st) /\
    forall (dst : list Z) (n : nat),
      (length dst <= 16 * n)%nat ->
      (Read s dst).1
      = take (length dst) (keystream {| enc := AES.KeyExpansion k |} label n).
Proof.
  intros Hs. destruct (Stream_ok label st Hs) as (k & Hk & Lk & E).
  exists k. eexists. split; [exact Hk |]. split; [exact E |].
  intros dst n Hn. rewrite Read_zeroed.
  rewrite (Read_prefix _ (length dst) (16 * n)) by exact Hn.
  rewrite (Read_keystream k label _ n);
    [reflexivity | left; exact Lk | apply length_make_bytes].
Qed.

End KeyStreamProofs.

(** X2.  Successive draws of the sampler are consecutive segments of one
    key stream: after [j] draws of [len] bytes, the next draw returns the
    bytes [j * len] to [(j + 1) * len - 1] of the stream. *)
Theorem draws_consecutive (s : ctr) (len : Z) (j : nat) :
  draw (Nat.iter j (skip len) s) len
  = take (Z.to_nat len)
      (drop (j * Z.to_nat len) (draw s (Z.of_nat (S j) * len))).
Proof.
  unfold draw. rewrite Z2Nat_mul_nat. set (n := Z.to_nat len).
  revert s. induction j as [|j IH]; intros s.
  - change (Nat.iter 0 (skip len) s) with s.
    rewrite Nat.mul_0_l, Nat.mul_1_l, drop_0, take_ge; [reflexivity |].
    rewrite Read_length, length_make_bytes. lia.
  - rewrite Nat.iter_succ_r, IH. f_equal.
    assert (E : (S (S j) * n = n + S j * n)%nat) by lia.
    rewrite E, make_bytes_add, Read_app. cbn [fst]. fold (skip len s).
    set (l1 := (Read s (make_bytes n)).1).
    assert (L1 : length l1 = n)
      by (unfold l1; now rewrite Read_length, length_make_bytes).
    set (l2 := (Read (skip len s) (make_bytes (S j * n))).1).
    rewrite drop_app_ge by lia. f_equal. lia.
Qed.

(** ** Names that differ by trailing zero bytes *)

Lemma xorName_app i (a c sk : list Z) :
  xorName i (a ++ c) sk = rbind (xorName i a sk) (xorName (i + length a) c).
Proof.
  revert i sk. induction a as [|x a IH]; intros i sk; simpl.
  - now rewrite Nat.add_0_r.
  - destruct (sk !! i); [| reflexivity]. rewrite IH.
    replace (S i + length a)%nat with (i + S (length a))%nat by lia.
    reflexivity.
Qed.

Lemma xorName_zeros i n (sk : list Z) :
  Forall is_byte sk -> (i + n <= length sk)%nat ->
  xorName i (replicate n 0) sk = Ok sk.
Proof.
  revert i. induction n as [|n IH]; intros i Hb Hl; [reflexivity |].
  simpl. destruct (sk !! i) as [x|] eqn:E.
  - rewrite byte_xor_0_r by (eapply Forall_lookup_1; eauto).
    rewrite list_insert_id by exact E. apply IH; [exact Hb | lia].
  - apply lookup_ge_None in E. lia.
Qed.

Lemma xorName_bytes i name (sk sk' : list Z) :
  xorName i name sk = Ok sk' -> Forall is_byte sk -> Forall is_byte sk'.
Proof.
  revert i sk. induction name as [|c name IH]; intros i sk; simpl.
  - now intros [= <-].
  - destruct (sk !! i) as [x|]; [| discriminate]. intros E Hb.
    apply (IH _ _ E). apply Forall_insert; [exact Hb | apply byte_xor_range].
Qed.

Lemma valid_key_dec key : valid_key key \/ ~ valid_key key.
Proof.
  unfold valid_key.
  destruct (decide (length key = 16 \/ length key = 24 \/ length key = 32)%nat);
    [left | right]; assumption.
Qed.

Section PaddingProofs.
Context `{Primitives}.

Lemma subKey_padding label st st2 n :
  Seed (rs st2) = Seed (rs st) ->
  name_bytes st2 = name_bytes st ++ replicate n 0 ->
  (length (name_bytes st2) <= 16)%nat ->
  value (subKey label st2) = value (subKey label st).
Proof.
  intros HS HN HL.
  destruct (valid_key_dec (Seed (rs st))) as [Hk | Hk].
  2:{ rewrite !subKey_bad_seed by (rewrite ?HS; exact Hk). reflexivity. }
  destruct (Nat.lt_ge_cases (length label) 16) as [Hl | Hl].
  { rewrite !subKey_short_label by (rewrite ?HS; assumption). reflexivity. }
  rewrite !subKey_unfold, HS, HN.
  destruct (Encrypt_ok (Seed (rs st)) (make_bytes 16) label Hk Hl)
    as (k & -> & Lk & Ek); [reflexivity |].
  simpl. rewrite xorName_app. rewrite HN, length_app in HL.
  destruct (xorName_ok 0 (name_bytes st) k) as (k' & E' & Lk' & _); [lia |].
  rewrite E'. simpl. rewrite xorName_zeros.
  - simpl. destruct (Encrypt _ k' k'); reflexivity.
  - apply (xorName_bytes _ _ _ _ E'). rewrite Ek. apply Cipher_bytes.
  - rewrite length_replicate in HL. lia.
Qed.

Lemma Dirichlet_value_Stream fuel label len sum st1 st2 :
  value (Stream label st1) = value (Stream label st2) ->
  value (Dirichlet fuel label len sum st1)
  = value (Dirichlet fuel label len sum st2).
Proof.
  intros E. rewrite !Dirichlet_unfold.
  destruct ((len =? 0) && negb (sum =? 0)); [reflexivity |].
  destruct (make_ints len) as [o| |]; simpl; try reflexivity.
  destruct (Stream label st1) as [[s1 st1']| |],
           (Stream label st2) as [[s2 st2']| |]; simpl in *;
    try congruence.
  injection E as <-. destruct (Dirichlet_loop fuel len sum s1 o 0); reflexivity.
Qed.

(** X3.  A name enters the derivation only by being xored into a block, so
    trailing zero bytes of a name change nothing: two generators with the
    same seed whose names differ by trailing zero bytes (at most 16 bytes
    in all) derive the same subkeys, key streams, samples and, where
    neither has the label cached, the same permutations and matrices. *)
Theorem name_padding_collision (label : list Z) (st st2 : State)
        (n m fuel : nat) (len sum size : Z) :
  Seed (rs st2) = Seed (rs st) ->
  name_bytes st2 = name_bytes st ++ replicate n 0 ->
  (length (name_bytes st2) <= 16)%nat ->
  value (subKey label st2) = value (subKey label st) /\
  value (streamPrefix label m st2) = value (streamPrefix label m st) /\
  value (Dirichlet fuel label len sum st2)
    = value (Dirichlet fuel label len sum st) /\
  value (Monotone fuel label len sum st2)
    = value (Monotone fuel label len sum st) /\
  (encodingCache (rs st2) !! copy16 label = None ->
   encodingCache (rs st) !! copy16 label = None ->
   value (Shuffle label st2) = value (Shuffle label st)) /\
  (matrixCache (rs st2) !! copy16 label = None ->
   matrixCache (rs st) !! copy16 label = None ->
   value (Matrix label size st2) = value (Matrix label size st)).
Proof.
  intros HS HN HL.
  assert (Ek : forall l, value (subKey l (ticked st2)) = value (subKey l (ticked st)))
    by (intros l; apply (subKey_padding l (ticked st) (ticked st2) n);
        assumption).
  assert (Es : value (Stream label st2) = value (Stream label st)).
  { rewrite !Stream_unfold.
    rewrite !(value_rbind _ (fun k => NewCTR (NewCipher k).1 label)).
    now rewrite Ek. }
  assert (Ed : value (Dirichlet fuel label len sum st2)
               = value (Dirichlet fuel label len sum st))
    by (apply Dirichlet_value_Stream, Es).
  split; [apply (subKey_padding label st st2 n); assumption |].
  split.
  { unfold streamPrefix. run_M.
    destruct (Stream label st2) as [[s2 st2']| |],
             (Stream label st) as [[s1 st1']| |]; simpl in *; congruence. }
  split; [exact Ed |]. split.
  { rewrite !Monotone_unfold.
    rewrite !(value_rbind _ (fun out => Monotone_loop (Z.to_nat (len - 1)) 1 out)).
    now rewrite Ed. }
  split; intros M2 M1.
  - rewrite !Shuffle_value_miss by assumption. now rewrite Es.
  - rewrite !Matrix_value_miss by assumption. now rewrite Es.
Qed.

(** X4.  What [Stream] does for every generator and label, in the order in
    which the code meets the conditions: a seed that is no AES key makes
    the first encryption dereference a nil cipher; a label of less than 16
    bytes is no full input block; a name of more than 16 bytes runs over the
    subkey; a label of more than 16 bytes is no counter block; in every
    other case the stream is returned, positioned at the label, and the
    generator is left as it was. *)
Theorem Stream_outcomes (label : list Z) (st : State) :
  (~ valid_key (Seed (rs st)) -> Stream label st = Panic NilDereference) /\
  (valid_key (Seed (rs st)) -> (length label < 16)%nat ->
   Stream label st = Panic InputNotFullBlock) /\
  (valid_key (Seed (rs st)) -> (16 <= length label)%nat ->
   (16 < length (name_bytes st))%nat ->
   Stream label st = Panic IndexOutOfRange) /\
  (valid_key (Seed (rs st)) -> (16 < length label)%nat ->
   (length (name_bytes st) <= 16)%nat ->
   Stream label st = Panic IVLength) /\
  (valid_key (Seed (rs st)) -> length label = 16%nat ->
   (length (name_bytes st) <= 16)%nat ->
   exists k,
     subKey label st = Ok (k, st) /\ length k = 16%nat /\
     Stream label st
     = Ok ({| b := {| enc := AES.KeyExpansion k |}; counter := label; out := [] |},
           ticked st)).
Proof.
  split; [| split; [| split; [| split]]].
  - intros Hk. rewrite Stream_unfold, subKey_bad_seed by exact Hk. reflexivity.
  - intros Hk Hl. rewrite Stream_unfold, subKey_short_label by assumption.
    reflexivity.
  - intros Hk Hl Hn. rewrite Stream_unfold, subKey_long_name by assumption.
    reflexivity.
  - intros Hk Hl Hn. rewrite Stream_unfold.
    destruct (subKey_ok label (ticked st)) as (k & -> & Lk); [exact Hk | lia | exact Hn |].
    simpl. rewrite NewCipher_valid by (left; exact Lk). simpl.
    destruct (decide (length label = AES.BlockSize)) as [E | E];
      [unfold AES.BlockSize in E; lia | reflexivity].
  - intros Hk Hl Hn. apply Stream_ok. split; [exact Hk | split; assumption].
Qed.
End PaddingProofs.

(** ** The accepted candidate *)

Lemma rounded_share sum c x :
  0 <= sum -> 0 < c -> 0 <= x -> wraps sum x = 0 ->
  rounded sum c x = share sum c x.
Proof.
  intros Hs Hc Hx Hw. unfold rounded, share.
  rewrite int_mul_wraps, Hw, Z.mul_0_r, Z.sub_0_r.
  rewrite Z.quot_div_nonneg, Z.rem_mod_nonneg by nia. reflexivity.
Qed.

(** An accepted candidate holds the exact shares: no product and no
    increment wrapped around. *)
Lemma scale_share sum buff :
  Forall is_byte buff -> 0 <= sum < 2 ^ 63 ->
  Z.of_nat (length buff) <= 2 ^ 28 \/
  (Z.of_nat (length buff) <= 2 ^ 55 /\ 255 * sum < 2 ^ 63) ->
  0 < Zsum buff ->
  wrap64 (Zsum (map (scale sum (Zsum buff)) buff)) = sum ->
  map (scale sum (Zsum buff)) buff = map (share sum (Zsum buff)) buff.
Proof.
  intros Hb Hs Hn Hpos Hw.
  set (c := Zsum buff) in *.
  pose proof (Zsum_bytes buff Hb) as Hcb. fold c in Hcb.
  assert (Hc : 0 < c < 2 ^ 63) by lia.
  destruct (scale_sums sum c Hs Hc buff Hb) as (W & E & K0 & K2 & D).
  fold c in K2, D.
  set (U := Zsum (map (rounded sum c) buff)) in *.
  pose proof (Zsum_wraps_small sum buff Hb) as Ksmall.
  set (K := Zsum (map (wraps sum) buff)) in *.
  rewrite wrap64_decomp, E in Hw.
  set (j := W + (U - 2 ^ 64 * W + 2 ^ 63) / 2 ^ 64) in *.
  assert (HU : U = sum + 2 ^ 64 * j) by (unfold j; lia).
  assert (HjK : j = 0 /\ K = 0).
  { destruct Hn as [Hn | [Hn Hsmall]].
    - assert (Hcn : c * Z.of_nat (length buff) < 2 ^ 64) by nia.
      assert (Hz : c * j + K = 0).
      { assert (- 2 ^ 64 < 2 ^ 64 * (c * j + K) < 2 ^ 64) by nia. lia. }
      assert (Hj : j = 0) by nia.
      split; [exact Hj | nia].
    - assert (HK : K = 0) by (apply Ksmall; lia).
      split; [| exact HK].
      assert (- Z.of_nat (length buff) <= 2 ^ 64 * j <= Z.of_nat (length buff))
        by nia.
      lia. }
  destruct HjK as [Hj HK].
  assert (Hall : Forall (fun x => wraps sum x = 0) buff)
    by (apply Forall_wraps_zero; assumption).
  assert (Hr0 : Forall (fun x => 0 <= x) (map (rounded sum c) buff)).
  { apply Forall_map. rewrite Forall_forall in *. intros x Hx.
    apply (rounded_exact sum c Hs Hc x (Hall x Hx)). apply (Hb x Hx). }
  pose proof (Zsum_upper _ Hr0) as Hup. fold U in Hup.
  rewrite Forall_map in Hup. apply map_ext_in. intros x Hx.
  rewrite Forall_forall in Hup, Hall, Hb.
  apply list_elem_of_In in Hx.
  rewrite <- (rounded_share sum c x);
    [| lia | lia | apply (Hb x Hx) | apply (Hall x Hx)].
  apply (rounded_exact sum c Hs Hc x (Hall x Hx)); [apply (Hb x Hx) |].
  specialize (Hup x Hx). simpl in Hup. lia.
Qed.

Lemma Dirichlet_loop_accept fuel len sum s (out : list Z) :
  Dirichlet_loop fuel len sum s out sum = Ok out.
Proof. destruct fuel; simpl; now rewrite Z.eqb_refl. Qed.

(** One round of the loop that does not start with the sum reached. *)
Lemma Dirichlet_loop_round fuel len sum s (out : list Z) candSum :
  0 < len <= 2 ^ 55 -> length out = Z.to_nat len -> candSum <> sum ->
  Dirichlet_loop (S fuel) len sum s out candSum =
  if Zsum (draw s len) =? 0 then Panic DivideByZero
  else Dirichlet_loop fuel len sum (skip len s) (candidate len sum s)
         (fold_left int_add (candidate len sum s) 0).
Proof.
  intros Hlen Ho Hne. simpl.
  destruct (Z.eqb_spec candSum sum) as [| _]; [contradiction |].
  rewrite guess_spec by (try exact Ho; lia). cbv zeta.
  fold (draw s len). rewrite candSum_draw by lia.
  destruct (Z.eqb_spec (Zsum (draw s len)) 0) as [Hz | Hz]; simpl.
  - destruct (Z.ltb_spec 0 len); [reflexivity | lia].
  - reflexivity.
Qed.

Lemma Dirichlet_loop_first_accepted fuel len sum :
  0 < len -> 0 <= sum < 2 ^ 63 ->
  len <= 2 ^ 28 \/ (len <= 2 ^ 55 /\ 255 * sum < 2 ^ 63) ->
  forall s (out : list Z) candSum res,
    length out = Z.to_nat len -> candSum <> sum ->
    Dirichlet_loop fuel len sum s out candSum = Ok res ->
    exists j, (j < fuel)%nat /\
      0 < Zsum (draw (Nat.iter j (skip len) s) len) /\
      res = map (share sum (Zsum (draw (Nat.iter j (skip len) s) len)))
                (draw (Nat.iter j (skip len) s) len) /\
      forall i, (i < j)%nat ->
        0 < Zsum (draw (Nat.iter i (skip len) s) len) /\
        fold_left int_add (candidate len sum (Nat.iter i (skip len) s)) 0 <> sum.
Proof.
  intros Hlen Hsum Hrange.
  induction fuel as [|fuel IH]; intros s out candSum res Ho Hne.
  - simpl. destruct (Z.eqb_spec candSum sum); [contradiction | discriminate].
  - rewrite Dirichlet_loop_round by (try assumption; lia).
    destruct (Z.eqb_spec (Zsum (draw s len)) 0) as [Hz | Hz]; [discriminate |].
    pose proof (Zsum_nonneg _ (bytes_nonneg _ (draw_bytes s len))) as Hnn.
    destruct (Z.eq_dec (fold_left int_add (candidate len sum s) 0) sum)
      as [Heq | Hneq].
    + rewrite Heq, Dirichlet_loop_accept. intros [= <-].
      exists 0%nat. split; [lia |]. cbn [Nat.iter nat_rect].
      split; [lia |]. split; [| intros i Hi; lia].
      unfold candidate in *. rewrite fold_left_int_add_0 in Heq.
      apply scale_share; try assumption.
      * apply draw_bytes.
      * rewrite length_draw. lia.
      * lia.
    + intros L. apply IH in L; [| unfold candidate; rewrite length_map;
                                  apply length_draw | exact Hneq].
      destruct L as (j & Hj & Hpos & Hres & Hrej).
      exists (S j). rewrite Nat.iter_succ_r.
      split; [lia |]. split; [exact Hpos |]. split; [exact Hres |].
      intros [|i] Hi; [split; [cbn [Nat.iter nat_rect]; lia | exact Hneq] |].
      rewrite Nat.iter_succ_r. apply Hrej. lia.
Qed.

Lemma Monotone_loop_total n i (out : list Z) :
  (1 <= i)%nat -> (i + n <= length out)%nat ->
  exists r, Monotone_loop n i out = Ok r /\ length r = length out.
Proof.
  revert i out. induction n as [|n IH]; intros i out Hi Hl; simpl.
  - eauto.
  - destruct (lookup_lt_is_Some_2 out i) as [x ->]; [lia |].
    destruct (lookup_lt_is_Some_2 out (i - 1)) as [y ->]; [lia |].
    destruct (IH (S i) (<[i := int_add x y]> out)) as (r & E & Lr);
      [lia | rewrite length_insert; lia |].
    exists r. split; [exact E |]. now rewrite Lr, length_insert.
Qed.

Lemma Monotone_loop_zeros n i m :
  (1 <= i)%nat -> (i + n <= m)%nat ->
  Monotone_loop n i (replicate m 0) = Ok (replicate m 0).
Proof.
  revert i. induction n as [|n IH]; intros i Hi Hl; simpl; [reflexivity |].
  rewrite !lookup_replicate_2 by lia.
  change (int_add 0 0) with 0.
  rewrite list_insert_id by (apply lookup_replicate_2; lia).
  apply IH; lia.
Qed.

Lemma Dirichlet_loop_outcomes fuel len sum :
  0 <= len ->
  forall s (out : list Z) candSum,
    length out = Z.to_nat len ->
    Dirichlet_loop fuel len sum s out candSum = OutOfFuel \/
    Dirichlet_loop fuel len sum s out candSum = Panic DivideByZero \/
    exists res, Dirichlet_loop fuel len sum s out candSum = Ok res /\
                length res = Z.to_nat len.
Proof.
  intros Hlen. induction fuel as [|fuel IH]; intros s out candSum Ho; simpl.
  - destruct (candSum =? sum); [right; right; eauto | left; reflexivity].
  - destruct (candSum =? sum); [right; right; eauto |].
    rewrite guess_spec by assumption. cbv zeta.
    destruct (fold_left int_add _ 0 =? 0); simpl.
    + destruct (0 <? len); simpl; [right; left; reflexivity |].
      apply IH, Ho.
    + apply IH. rewrite length_map, Read_length. apply length_make_bytes.
Qed.

Lemma length_running a l : length (running a l) = length l.
Proof. revert a. induction l as [|x l IH]; intros a; simpl; congruence. Qed.

Lemma running_upper a l :
  Forall (fun x => 0 <= x) l ->
  Forall (fun y => y <= a + Zsum l) (running a l).
Proof.
  intros Hl. revert a. induction Hl as [|x l Hx Hl IH]; intros a; simpl;
    constructor.
  - pose proof (Zsum_nonneg l Hl). lia.
  - eapply Forall_impl; [apply IH |]. simpl. intros; lia.
Qed.

Lemma differences_running a l :
  zip_with Z.sub (running a l) (a :: running a l) = l.
Proof.
  revert a. induction l as [|x l IH]; intros a; simpl; [reflexivity |].
  rewrite IH. f_equal. lia.
Qed.

Section SamplerOutcomes.
Context `{Values}.

(** X5.  With the target sum zero the loop is never entered: for a
    generator and a label that [Stream] accepts, the sampler and the
    monotone sequence return [length] zeros without reading the key stream,
    whatever the bound on the number of rounds. *)
Theorem sampler_zero_sum (fuel : nat) (label : list Z) (len : Z) (st : State) :
  streamable st label -> 0 <= len ->
  Dirichlet fuel label len 0 st = Ok (replicate (Z.to_nat len) 0, ticked st) /\
  Monotone fuel label len 0 st = Ok (replicate (Z.to_nat len) 0, ticked st).
Proof.
  intros Hs Hlen.
  assert (E : Dirichlet fuel label len 0 st
              = Ok (replicate (Z.to_nat len) 0, ticked st)).
  { rewrite Dirichlet_unfold. change (negb (0 =? 0)) with false.
    rewrite andb_false_r. unfold make_ints.
    destruct (Z.ltb_spec len 0); [lia |]. simpl.
    destruct (Stream_ok label st Hs) as (k & _ & _ & ->). simpl.
    rewrite Dirichlet_loop_accept. reflexivity. }
  split; [exact E |]. rewrite Monotone_unfold, E. simpl.
  destruct (Z.eq_dec len 0) as [-> | Hne]; [reflexivity |].
  rewrite Monotone_loop_zeros by lia. reflexivity.
Qed.

(** X6.  What the sampler returns, as a function of the key stream: for
    [0 < length] and [0 < targetSum] the output holds the shares of
    [targetSum] in proportion to the bytes of one draw, each share the
    exact quotient rounded as the code rounds it (no product wrapped); the
    draw is the first one whose candidate adds up to [targetSum], every
    earlier draw holding a non-zero byte, and it is segment [j] of the key
    stream of the label for some [j] below the bound on the number of
    rounds. *)
Theorem Dirichlet_first_accepted (fuel : nat) (label : list Z) (len sum : Z)
        (st st' : State) (out : list Z) :
  0 < len -> 0 < sum < 2 ^ 63 ->
  len <= 2 ^ 28 \/ (len <= 2 ^ 55 /\ 255 * sum < 2 ^ 63) ->
  Dirichlet fuel label len sum st = Ok (out, st') ->
  exists s j,
    Stream label st = Ok (s, st') /\ (j < fuel)%nat /\
    0 < Zsum (draw (Nat.iter j (skip len) s) len) /\
    out = map (share sum (Zsum (draw (Nat.iter j (skip len) s) len)))
              (draw (Nat.iter j (skip len) s) len) /\
    forall i, (i < j)%nat ->
      0 < Zsum (draw (Nat.iter i (skip len) s) len) /\
      fold_left int_add (candidate len sum (Nat.iter i (skip len) s)) 0 <> sum.
Proof.
  intros Hlen Hsum Hrange E.
  destruct (Dirichlet_inv fuel label len sum st st' out Hlen E) as (s & Es & L).
  exists s.
  destruct (Dirichlet_loop_first_accepted fuel len sum Hlen) with (5 := L)
    as (j & Hj); [lia | exact Hrange | apply length_replicate | lia |].
  exists j. split; [exact Es | exact Hj].
Qed.

(** X7.  Every way the two samplers can end.  A negative length fails at
    the allocation, before the label is looked at; [length == 0] with a
    non-zero sum is refused; a generator or label that [Stream] refuses
    fails with the panic of [Stream]; in every other case the only panic
    left is the division by zero of a draw of zero bytes (no index is ever
    out of range), and [Monotone] ends as [Dirichlet] does, a returned
    sequence having [length] entries and the generator having derived one
    stream more. *)
Theorem sampler_outcomes (fuel : nat) (label : list Z) (len sum : Z)
        (st : State) :
  (len < 0 ->
   Dirichlet fuel label len sum st = Panic MakeSliceLen /\
   Monotone fuel label len sum st = Panic MakeSliceLen) /\
  (len = 0 -> sum <> 0 ->
   Dirichlet fuel label len sum st = Panic ZeroVariables /\
   Monotone fuel label len sum st = Panic ZeroVariables) /\
  (0 <= len -> (len = 0 -> sum = 0) ->
   forall p, Stream label st = Panic p ->
     Dirichlet fuel label len sum st = Panic p /\
     Monotone fuel label len sum st = Panic p) /\
  (0 <= len -> (len = 0 -> sum = 0) -> streamable st label ->
   (Dirichlet fuel label len sum st = OutOfFuel /\
    Monotone fuel label len sum st = OutOfFuel) \/
   (Dirichlet fuel label len sum st = Panic DivideByZero /\
    Monotone fuel label len sum st = Panic DivideByZero) \/
   (exists out m,
      Dirichlet fuel label len sum st = Ok (out, ticked st) /\
      Monotone fuel label len sum st = Ok (m, ticked st) /\
      Z.of_nat (length out) = len /\ Z.of_nat (length m) = len)).
Proof.
  assert (Hguard : 0 <= len -> (len = 0 -> sum = 0) ->
                   (len =? 0) && negb (sum =? 0) = false).
  { intros _ Hz. destruct (Z.eqb_spec len 0) as [E | E]; [| reflexivity].
    rewrite (Hz E). reflexivity. }
  split; [| split; [| split]].
  - intros Hlen.
    assert (E : Dirichlet fuel label len sum st = Panic MakeSliceLen).
    { rewrite Dirichlet_unfold.
      destruct (Z.eqb_spec len 0) as [| _]; [lia |]. simpl.
      unfold make_ints. destruct (Z.ltb_spec len 0); [reflexivity | lia]. }
    split; [exact E |]. rewrite Monotone_unfold, E. reflexivity.
  - intros -> Hsum.
    assert (E : Dirichlet fuel label 0 sum st = Panic ZeroVariables).
    { rewrite Dirichlet_unfold.
      destruct (Z.eqb_spec sum 0) as [| _]; [contradiction | reflexivity]. }
    split; [exact E |]. rewrite Monotone_unfold, E. reflexivity.
  - intros Hlen Hz p Ep.
    assert (E : Dirichlet fuel label len sum st = Panic p).
    { rewrite Dirichlet_unfold, Hguard by assumption.
      unfold make_ints. destruct (Z.ltb_spec len 0); [lia |]. simpl.
      rewrite Ep. reflexivity. }
    split; [exact E |]. rewrite Monotone_unfold, E. reflexivity.
  - intros Hlen Hz Hs.
    rewrite Monotone_unfold, Dirichlet_unfold, Hguard by assumption.
    unfold make_ints. destruct (Z.ltb_spec len 0); [lia |]. simpl.
    destruct (Stream_ok label st Hs) as (k & _ & _ & ->). simpl.
    destruct (Dirichlet_loop_outcomes fuel len sum Hlen
                {| b := {| enc := AES.KeyExpansion k |};
                   counter := label; out := [] |}
                (replicate (Z.to_nat len) 0) 0)
      as [-> | [-> | (res & -> & Lr)]];
      [apply length_replicate | left; split; reflexivity
       | right; left; split; reflexivity |].
    right; right. simpl.
    destruct (Z.eq_dec len 0) as [-> | Hne].
    + exists res, res. simpl. repeat split; lia.
    + destruct (Monotone_loop_total (Z.to_nat (len - 1)) 1 res) as (m & -> & Lm);
        [lia | lia |].
      exists res, m. simpl. repeat split; lia.
Qed.

(** X8.  The monotone sequence on its own terms: when [Monotone] returns
    for [0 < length] and [0 <= max], the sequence has [length] entries,
    each between [0] and [max], in non-decreasing order, the last one equal
    to [max]; and its steps are exactly the sequence that [Dirichlet]
    returns for the same arguments, so nothing of the sample is lost. *)
Theorem Monotone_contract (fuel : nat) (label : list Z) (len max : Z)
        (st st' : State) (m : list Z) :
  0 < len -> 0 <= max < 2 ^ 63 ->
  len <= 2 ^ 28 \/ (len <= 2 ^ 55 /\ 255 * max < 2 ^ 63) ->
  Monotone fuel label len max st = Ok (m, st') ->
  Z.of_nat (length m) = len /\
  Forall (fun y => 0 <= y <= max) m /\
  Sorted Z.le m /\
  last m = Some max /\
  Dirichlet fuel label len max st = Ok (differences m, st').
Proof.
  intros Hlen Hmax Hrange. rewrite Monotone_unfold.
  destruct (Dirichlet fuel label len max st) as [[d st1]| |] eqn:E;
    simpl; try discriminate.
  destruct (Dirichlet_inv fuel label len max st st1 d Hlen E) as (s & _ & L).
  destruct (Dirichlet_loop_start_exact fuel len max s d Hlen Hmax Hrange L)
    as (Ld & Hpos & Hs).
  assert (Hd : d <> []) by (intros ->; simpl in Ld; lia).
  replace (Z.to_nat (len - 1)) with (length d - 1)%nat by lia.
  rewrite Monotone_loop_prefix_sums by (try assumption; lia).
  simpl. intros [= <- <-]. unfold prefix_sums, differences.
  split; [rewrite length_running; lia |].
  split.
  { pose proof (running_lower 0 d Hpos) as Hlo.
    pose proof (running_upper 0 d Hpos) as Hup.
    rewrite Forall_forall in *. intros y Hy.
    specialize (Hlo y Hy). specialize (Hup y Hy). simpl in *. lia. }
  split; [apply running_sorted, Hpos |].
  split; [rewrite running_last by exact Hd; f_equal; lia |].
  rewrite differences_running. reflexivity.
Qed.

End SamplerOutcomes.

(** ** The caches *)

Section CacheInvariant.
Context `{Primitives}.

(** X9.  What a call that misses the cache does to the generator: when
    [Shuffle] ([Matrix]) returns for a label that is not cached, the label
    has exactly 16 bytes, the value returned is the one generated from the
    key stream of the label, and the generator afterwards differs from the
    one before by this one entry, stored under the label itself, and by
    one more stream derived; the other cache, the name and the seed are
    untouched. *)
Theorem cache_miss_effect (label : list Z) (size : Z) (st : State) :
  (forall v st',
     encodingCache (rs st) !! copy16 label = None ->
     Shuffle label st = Ok (v, st') ->
     length label = 16%nat /\
     rbind (value (Stream label st)) encoding_GenerateShuffle = Ok v /\
     st' = {| rs := storeShuffle label v (rs st); derived := S (derived st) |}) /\
  (forall v st',
     matrixCache (rs st) !! copy16 label = None ->
     Matrix label size st = Ok (v, st') ->
     length label = 16%nat /\
     rbind (value (Stream label st)) (fun s => matrix_GenerateRandom s size)
     = Ok v /\
     st' = {| rs := storeMatrix label v (rs st); derived := S (derived st) |}).
Proof.
  split; intros v st' Hmiss.
  - rewrite Shuffle_miss by exact Hmiss.
    destruct (Stream label st) as [[s st1]| |] eqn:Es; simpl; try discriminate.
    pose proof (Stream_returns_block _ _ _ _ Es) as Hl.
    apply Stream_state in Es as ->.
    destruct (encoding_GenerateShuffle s) as [v'| |]; simpl; try discriminate.
    intros [= <- <-]. rewrite (copy16_block label Hl). auto.
  - rewrite Matrix_miss by exact Hmiss.
    destruct (Stream label st) as [[s st1]| |] eqn:Es; simpl; try discriminate.
    pose proof (Stream_returns_block _ _ _ _ Es) as Hl.
    apply Stream_state in Es as ->.
    destruct (matrix_GenerateRandom s size) as [v'| |]; simpl; try discriminate.
    intros [= <- <-]. rewrite (copy16_block label Hl). auto.
Qed.

(** X10.  The invariant of the two caches: in every state that method
    calls can bring a generator made by [NewRandomSource] to, each key of
    a cache is a label of 16 bytes, each cached permutation is the one that
    the fresh generator derives from the key stream of its key, and each
    cached matrix is the one it derives for some size. *)
Theorem cache_invariant (name : string) (seed : list Z) (st : State)
        (k : list Z) :
  rtc step (newState name seed) st ->
  (forall v, encodingCache (rs st) !! k = Some v ->
     length k = 16%nat /\
     rbind (value (Stream k (newState name seed))) encoding_GenerateShuffle
     = Ok v) /\
  (forall v, matrixCache (rs st) !! k = Some v ->
     length k = 16%nat /\
     exists size,
       rbind (value (Stream k (newState name seed)))
             (fun s => matrix_GenerateRandom s size) = Ok v).
Proof.
  intros R. destruct (reachable_sound name seed st R) as ([Se Sm] & HN & HS).
  assert (Ev : value (Stream k st) = value (Stream k (newState name seed)))
    by (apply Stream_value; [exact HN | exact HS]).
  assert (Hl : forall s, value (Stream k st) = Ok s -> length k = 16%nat).
  { intros s. destruct (Stream k st) as [[s' st1]| |] eqn:Es; try discriminate.
    intros _. apply (Stream_returns_block _ _ _ _ Es). }
  split; intros v Hv.
  - specialize (Se k v Hv). rewrite <- Ev. split; [| exact Se].
    destruct (value (Stream k st)) as [s| |]; try discriminate.
    apply (Hl s). reflexivity.
  - destruct (Sm k v Hv) as (size & Hsize). rewrite <- Ev.
    split; [| exists size; exact Hsize].
    destruct (value (Stream k st)) as [s| |]; try discriminate.
    apply (Hl s). reflexivity.
Qed.

End CacheInvariant.

(** ** The further properties at concrete inputs *)

Lemma streamable_fresh_m1 : streamable Model.fresh Model.m1.
Proof.
  split; [left; reflexivity | split; [reflexivity | vm_compute; lia]].
Defined.

(** [Stream_keystream] at the generator [fresh] and the label [m1]: a
    read into a buffer of 20 bytes. *)
Lemma Stream_keystream_witness :
  streamable Model.fresh Model.m1 /\
  exists k s,
    subKey Model.m1 Model.fresh = Ok (k, Model.fresh) /\
    Stream Model.m1 Model.fresh = Ok (s, ticked Model.fresh) /\
    (Read s (replicate 20 9)).1
    = take 20 (keystream {| enc := AES.KeyExpansion k |} Model.m1 2).
Proof.
  split; [exact streamable_fresh_m1 |].
  destruct (Stream_keystream Model.m1 Model.fresh streamable_fresh_m1)
    as (k & s & Hk & Hs & Hr).
  exists k, s. split; [exact Hk |]. split; [exact Hs |].
  apply (Hr (replicate 20 9) 2%nat). vm_compute. lia.
Defined.

(** [name_padding_collision] at the names ["test"] and ["test"] followed
    by a zero byte. *)
Lemma name_padding_collision_witness :
  Inputs.padded_name <> "test" /\
  value (streamPrefix Model.m1 32 (newState Inputs.padded_name Model.seed0))
    = value (streamPrefix Model.m1 32 Model.fresh) /\
  value (Dirichlet 50 Model.m1 4 10 (newState Inputs.padded_name Model.seed0))
    = value (Dirichlet 50 Model.m1 4 10 Model.fresh) /\
  value (Shuffle Model.m1 (newState Inputs.padded_name Model.seed0))
    = value (Shuffle Model.m1 Model.fresh).
Proof.
  split; [intros E; vm_compute in E; discriminate E |].
  destruct (name_padding_collision Model.m1 Model.fresh
              (newState Inputs.padded_name Model.seed0) 1 32 50 4 10 8)
    as (_ & Hs & Hd & _ & Hp & _);
    [reflexivity | vm_compute; reflexivity | vm_compute; lia |].
  split; [exact Hs |]. split; [exact Hd |].
  apply Hp; reflexivity.
Defined.

(** The four panics of [Stream_outcomes]: a seed of 5 bytes, the two-byte
    label, a name of 17 bytes, a label of 17 bytes. *)
Lemma Stream_outcomes_witness :
  Stream Model.m1 (newState "test" (replicate 5 0)) = Panic NilDereference /\
  Stream Model.m1_raw Model.fresh = Panic InputNotFullBlock /\
  Stream Model.m1 (newState Model.long_name Model.seed0) = Panic IndexOutOfRange /\
  Stream Model.m1_long Model.fresh = Panic IVLength.
Proof.
  split; [| split; [| split]].
  - apply (proj1 (Stream_outcomes Model.m1 (newState "test" (replicate 5 0)))).
    intros [E | [E | E]]; vm_compute in E; discriminate E.
  - apply (proj1 (proj2 (Stream_outcomes Model.m1_raw Model.fresh)));
      [left; reflexivity | vm_compute; lia].
  - apply (proj1 (proj2 (proj2
             (Stream_outcomes Model.m1 (newState Model.long_name Model.seed0)))));
      [left; reflexivity | vm_compute; lia | vm_compute; lia].
  - apply (proj1 (proj2 (proj2 (proj2
             (Stream_outcomes Model.m1_long Model.fresh)))));
      [left; reflexivity | vm_compute; lia | vm_compute; lia].
Defined.

(** [sampler_zero_sum] with no round allowed. *)
Lemma sampler_zero_sum_witness :
  Dirichlet 0 Model.m1 3 0 Model.fresh = Ok ([0; 0; 0], ticked Model.fresh) /\
  Monotone 0 Model.m1 3 0 Model.fresh = Ok ([0; 0; 0], ticked Model.fresh).
Proof.
  apply (sampler_zero_sum 0 Model.m1 3 Model.fresh streamable_fresh_m1). lia.
Defined.

(** [Dirichlet_first_accepted] at the call that returns [2; 4; 1; 3]. *)
Lemma Dirichlet_first_accepted_witness :
  Dirichlet 50 Model.m1 4 10 Model.fresh = Ok ([2; 4; 1; 3], ticked Model.fresh) /\
  exists s j,
    Stream Model.m1 Model.fresh = Ok (s, ticked Model.fresh) /\ (j < 50)%nat /\
    0 < Zsum (draw (Nat.iter j (skip 4) s) 4) /\
    [2; 4; 1; 3]
    = map (share 10 (Zsum (draw (Nat.iter j (skip 4) s) 4)))
          (draw (Nat.iter j (skip 4) s) 4).
Proof.
  assert (E : Dirichlet 50 Model.m1 4 10 Model.fresh
              = Ok ([2; 4; 1; 3], ticked Model.fresh))
    by (vm_compute; reflexivity).
  split; [exact E |].
  destruct (Dirichlet_first_accepted 50 Model.m1 4 10 Model.fresh
              (ticked Model.fresh) [2; 4; 1; 3])
    as (s & j & Es & Hj & Hpos & Hout & _); [lia | lia | lia | exact E |].
  exists s, j. split; [exact Es |]. split; [exact Hj |].
  split; [exact Hpos | exact Hout].
Defined.

(** [sampler_outcomes]: a negative length, no variable with a sum to
    reach, the two-byte label, and a call that [Stream] accepts. *)
Lemma sampler_outcomes_witness :
  Dirichlet 1 Model.m1_raw (-1) 5 Model.fresh = Panic MakeSliceLen /\
  Monotone 1 Model.m1_raw 0 5 Model.fresh = Panic ZeroVariables /\
  Monotone 1 Model.m1_raw 2 5 Model.fresh = Panic InputNotFullBlock /\
  ((Dirichlet 50 Model.m1 4 10 Model.fresh = OutOfFuel /\
    Monotone 50 Model.m1 4 10 Model.fresh = OutOfFuel) \/
   (Dirichlet 50 Model.m1 4 10 Model.fresh = Panic DivideByZero /\
    Monotone 50 Model.m1 4 10 Model.fresh = Panic DivideByZero) \/
   (exists out m,
      Dirichlet 50 Model.m1 4 10 Model.fresh = Ok (out, ticked Model.fresh) /\
      Monotone 50 Model.m1 4 10 Model.fresh = Ok (m, ticked Model.fresh) /\
      Z.of_nat (length out) = 4 /\ Z.of_nat (length m) = 4)).
Proof.
  split; [| split; [| split]].
  - apply (proj1 (sampler_outcomes 1 Model.m1_raw (-1) 5 Model.fresh)). lia.
  - apply (proj1 (proj2 (sampler_outcomes 1 Model.m1_raw 0 5 Model.fresh)));
      [reflexivity | lia].
  - apply (proj1 (proj2 (proj2
             (sampler_outcomes 1 Model.m1_raw 2 5 Model.fresh))));
      [lia | lia | vm_compute; reflexivity].
  - apply (proj2 (proj2 (proj2
             (sampler_outcomes 50 Model.m1 4 10 Model.fresh))));
      [lia | lia | exact streamable_fresh_m1].
Defined.

(** [Monotone_contract] at the call that returns [2; 6; 7; 10]. *)
Lemma Monotone_contract_witness :
  Monotone 50 Model.m1 4 10 Model.fresh = Ok ([2; 6; 7; 10], ticked Model.fresh) /\
  Forall (fun y => 0 <= y <= 10) [2; 6; 7; 10] /\
  Dirichlet 50 Model.m1 4 10 Model.fresh = Ok ([2; 4; 1; 3], ticked Model.fresh).
Proof.
  assert (E : Monotone 50 Model.m1 4 10 Model.fresh
              = Ok ([2; 6; 7; 10], ticked Model.fresh))
    by (vm_compute; reflexivity).
  split; [exact E |].
  destruct (Monotone_contract 50 Model.m1 4 10 Model.fresh (ticked Model.fresh)
              [2; 6; 7; 10])
    as (_ & Hb & _ & _ & Hd); [lia | lia | lia | exact E |].
  split; [exact Hb | exact Hd].
Defined.

(** [cache_miss_effect] at the first call [Shuffle(m1)] on a fresh
    generator. *)
Lemma cache_miss_effect_witness :
  exists v st',
    Shuffle Model.m1 Model.fresh = Ok (v, st') /\
    st' = {| rs := storeShuffle Model.m1 v (rs Model.fresh); derived := 1 |}.
Proof.
  eexists. eexists.
  assert (E : Shuffle Model.m1 Model.fresh = Ok (_, _)) by (vm_compute; reflexivity).
  split; [exact E |].
  apply (proj1 (cache_miss_effect Model.m1 8 Model.fresh) _ _ eq_refl E).
Defined.

(** [cache_invariant] at the generator after the calls [Shuffle(m1)] and
    [Matrix(m1, 8)]. *)
Lemma cache_invariant_witness :
  rtc step (newState "test" Model.seed0) Model.used /\
  exists v,
    encodingCache (rs Model.used) !! Model.m1 = Some v /\
    length Model.m1 = 16%nat /\
    rbind (value (Stream Model.m1 (newState "test" Model.seed0)))
          encoding_GenerateShuffle = Ok v.
Proof.
  assert (R : rtc step (newState "test" Model.seed0) Model.used).
  { eapply rtc_l; [eapply (step_Shuffle Model.m1); vm_compute; reflexivity |].
    eapply rtc_l; [eapply (step_Matrix Model.m1 8); vm_compute; reflexivity |].
    apply rtc_refl. }
  split; [exact R |].
  eexists. 
  assert (E : encodingCache (rs Model.used) !! Model.m1 = Some _)
    by (vm_compute; reflexivity).
  split; [exact E |].
  apply (proj1 (cache_invariant "test" Model.seed0 Model.used Model.m1 R) _ E).
Defined.

(** ** The block cipher is injective *)

Lemma is_byteb_spec x : is_byteb x = true <-> is_byte x.
Proof. unfold is_byteb, is_byte. rewrite andb_true_iff, Z.leb_le, Z.ltb_lt. tauto. Qed.

Lemma all_bytes_spec x : is_byte x -> In x all_bytes.
Proof.
  intros Hx. unfold all_bytes, is_byte in *. apply in_map_iff.
  exists (Z.to_nat x). split; [lia |]. apply in_seq. lia.
Qed.

Lemma forallb_bytes (f : Z -> bool) :
  forallb f all_bytes = true -> forall x, is_byte x -> f x = true.
Proof.
  intros Hf x Hx. rewrite forallb_forall in Hf. apply Hf, all_bytes_spec, Hx.
Qed.

Lemma forallb_bytes2 (f : Z -> Z -> bool) :
  forallb (fun x => forallb (f x) all_bytes) all_bytes = true ->
  forall x y, is_byte x -> is_byte y -> f x y = true.
Proof.
  intros Hf x y Hx Hy.
  apply (forallb_bytes (f x)); [| exact Hy].
  apply (forallb_bytes (fun x => forallb (f x) all_bytes)); assumption.
Qed.

Lemma SubByte_inj x y :
  is_byte x -> is_byte y -> AES.SubByte x = AES.SubByte y -> x = y.
Proof.
  intros Hx Hy E.
  assert (H : implb (AES.SubByte x =? AES.SubByte y) (x =? y) = true).
  { apply (forallb_bytes2
             (fun x y => implb (AES.SubByte x =? AES.SubByte y) (x =? y)));
      [vm_compute; reflexivity | assumption | assumption]. }
  rewrite E, Z.eqb_refl in H. simpl in H. now apply Z.eqb_eq.
Qed.

Lemma SubByte_byte x : is_byte x -> is_byte (AES.SubByte x).
Proof.
  intros Hx. apply is_byteb_spec.
  apply (forallb_bytes (fun x => is_byteb (AES.SubByte x)));
    [vm_compute; reflexivity | exact Hx].
Qed.

Lemma lxor_byte x y : is_byte x -> is_byte y -> is_byte (Z.lxor x y).
Proof.
  intros Hx Hy. apply is_byteb_spec.
  apply (forallb_bytes2 (fun x y => is_byteb (Z.lxor x y)));
    [vm_compute; reflexivity | assumption | assumption].
Qed.

Lemma gmul_byte x : is_byte x -> is_byte (AES.gmul x 2) /\ is_byte (AES.gmul x 3).
Proof.
  intros Hx. rewrite <- !is_byteb_spec. apply andb_true_iff.
  apply (forallb_bytes
           (fun x => is_byteb (AES.gmul x 2) && is_byteb (AES.gmul x 3)));
    [vm_compute; reflexivity | exact Hx].
Qed.

Lemma gmul_linear x y :
  is_byte x -> is_byte y ->
  AES.gmul (Z.lxor x y) 2 = Z.lxor (AES.gmul x 2) (AES.gmul y 2) /\
  AES.gmul (Z.lxor x y) 3 = Z.lxor (AES.gmul x 3) (AES.gmul y 3).
Proof.
  intros Hx Hy. rewrite <- !Z.eqb_eq. apply andb_true_iff.
  apply (forallb_bytes2
           (fun x y =>
              (AES.gmul (Z.lxor x y) 2 =? Z.lxor (AES.gmul x 2) (AES.gmul y 2)) &&
              (AES.gmul (Z.lxor x y) 3 =? Z.lxor (AES.gmul x 3) (AES.gmul y 3))));
    [vm_compute; reflexivity | assumption | assumption].
Qed.

(** *** One column *)

Lemma is_column_inv c :
  is_column c ->
  exists a0 a1 a2 a3,
    c = [a0; a1; a2; a3] /\ is_byte a0 /\ is_byte a1 /\ is_byte a2 /\ is_byte a3.
Proof.
  intros [Hl Hb].
  destruct c as [|a0 [|a1 [|a2 [|a3 [|? ?]]]]]; try discriminate.
  apply Forall_cons in Hb as [H0 Hb]. apply Forall_cons in Hb as [H1 Hb].
  apply Forall_cons in Hb as [H2 Hb]. apply Forall_cons in Hb as [H3 _].
  exists a0, a1, a2, a3. auto.
Qed.

Lemma is_column_intro a0 a1 a2 a3 :
  is_byte a0 -> is_byte a1 -> is_byte a2 -> is_byte a3 ->
  is_column [a0; a1; a2; a3].
Proof.
  intros. split; [reflexivity |].
  repeat (apply Forall_cons_2; [assumption |]). apply Forall_nil_2.
Qed.

Lemma mixColumn_column c : is_column c -> is_column (AES.mixColumn c).
Proof.
  intros Hc. destruct (is_column_inv c Hc) as (a0 & a1 & a2 & a3 & -> & H0 & H1 & H2 & H3).
  destruct (gmul_byte a0 H0), (gmul_byte a1 H1), (gmul_byte a2 H2),
    (gmul_byte a3 H3).
  cbn [AES.mixColumn].
  apply is_column_intro;
    (apply lxor_byte; [| apply lxor_byte; [| apply lxor_byte]]); assumption.
Qed.

Lemma xorColumn_column u v : is_column u -> is_column v -> is_column (xorColumn u v).
Proof.
  intros Hu Hv.
  destruct (is_column_inv u Hu) as (a0 & a1 & a2 & a3 & -> & ? & ? & ? & ?).
  destruct (is_column_inv v Hv) as (b0 & b1 & b2 & b3 & -> & ? & ? & ? & ?).
  apply is_column_intro; apply lxor_byte; assumption.
Qed.

Lemma mixColumn_linear u v :
  is_column u -> is_column v ->
  AES.mixColumn (xorColumn u v) = xorColumn (AES.mixColumn u) (AES.mixColumn v).
Proof.
  intros Hu Hv.
  destruct (is_column_inv u Hu) as (a0 & a1 & a2 & a3 & -> & A0 & A1 & A2 & A3).
  destruct (is_column_inv v Hv) as (b0 & b1 & b2 & b3 & -> & B0 & B1 & B2 & B3).
  destruct (gmul_linear a0 b0 A0 B0) as [E02 E03].
  destruct (gmul_linear a1 b1 A1 B1) as [E12 E13].
  destruct (gmul_linear a2 b2 A2 B2) as [E22 E23].
  destruct (gmul_linear a3 b3 A3 B3) as [E32 E33].
  cbn [xorColumn zip_with AES.mixColumn].
  rewrite E02, E03, E12, E13, E22, E23, E32, E33.
  do 4 (apply (f_equal2 cons); [lxor_ac |]). reflexivity.
Qed.

Lemma mix4_linear u v :
  is_column u -> is_column v -> mix4 (xorColumn u v) = xorColumn (mix4 u) (mix4 v).
Proof.
  intros Hu Hv. unfold mix4.
  rewrite !mixColumn_linear; auto using mixColumn_column.
Qed.

Lemma mix4_units a :
  is_byte a ->
  mix4 [a; 0; 0; 0] = [a; 0; 0; 0] /\ mix4 [0; a; 0; 0] = [0; a; 0; 0] /\
  mix4 [0; 0; a; 0] = [0; 0; a; 0] /\ mix4 [0; 0; 0; a] = [0; 0; 0; a].
Proof.
  intros Ha.
  pose proof (forallb_bytes
    (fun a => eqb_list (mix4 [a; 0; 0; 0]) [a; 0; 0; 0] &&
              eqb_list (mix4 [0; a; 0; 0]) [0; a; 0; 0] &&
              eqb_list (mix4 [0; 0; a; 0]) [0; 0; a; 0] &&
              eqb_list (mix4 [0; 0; 0; a]) [0; 0; 0; a])%bool) as H.
  specialize (H ltac:(vm_compute; reflexivity) a Ha). cbv beta in H.
  unfold eqb_list in H.
  rewrite !andb_true_iff, !bool_decide_eq_true in H. tauto.
Qed.

(** Applying [MixColumns] four times gives the column back. *)
Lemma mix4_id c : is_column c -> mix4 c = c.
Proof.
  intros Hc.
  destruct (is_column_inv c Hc) as (a0 & a1 & a2 & a3 & -> & H0 & H1 & H2 & H3).
  assert (Hz : is_byte 0) by (unfold is_byte; lia).
  replace [a0; a1; a2; a3]
    with (xorColumn (xorColumn [a0; 0; 0; 0] [0; a1; 0; 0])
                    (xorColumn [0; 0; a2; 0] [0; 0; 0; a3])) at 1
    by (cbn [xorColumn zip_with];
        rewrite ?Z.lxor_0_l, ?Z.lxor_0_r; reflexivity).
  rewrite !mix4_linear by
    (repeat apply xorColumn_column; apply is_column_intro; assumption).
  destruct (mix4_units a0 H0) as (-> & _ & _ & _).
  destruct (mix4_units a1 H1) as (_ & -> & _ & _).
  destruct (mix4_units a2 H2) as (_ & _ & -> & _).
  destruct (mix4_units a3 H3) as (_ & _ & _ & ->).
  cbn [xorColumn zip_with]. rewrite ?Z.lxor_0_l, ?Z.lxor_0_r. reflexivity.
Qed.

Lemma mixColumn_inj u v :
  is_column u -> is_column v -> AES.mixColumn u = AES.mixColumn v -> u = v.
Proof.
  intros Hu Hv E. rewrite <- (mix4_id u Hu), <- (mix4_id v Hv).
  unfold mix4. now rewrite E.
Qed.

(** *** The layers of a round *)

Lemma is_block_inv st :
  is_block st ->
  exists s0 s1 s2 s3 s4 s5 s6 s7 s8 s9 s10 s11 s12 s13 s14 s15,
    st = [s0; s1; s2; s3; s4; s5; s6; s7; s8; s9; s10; s11; s12; s13; s14; s15].
Proof.
  intros [Hl _].
  do 16 (destruct st as [|? st]; [discriminate |]).
  destruct st; [| discriminate]. repeat eexists.
Qed.

Lemma byte_xor_cancel x k : is_byte x -> byte_xor (byte_xor x k) k = x.
Proof.
  intros Hx.
  assert (Ex : Z.land x 255 = x).
  { change 255 with (Z.ones 8). rewrite Z.land_ones by lia.
    apply Z.mod_small. unfold is_byte in Hx. lia. }
  transitivity (Z.land x 255); [| exact Ex].
  unfold byte_xor. apply Z.bits_inj'. intros n _.
  rewrite !Z.land_spec, !Z.lxor_spec, !Z.land_spec, !Z.lxor_spec.
  destruct (Z.testbit x n), (Z.testbit k n), (Z.testbit 255 n); reflexivity.
Qed.

Lemma byte_xor_comm x y : byte_xor x y = byte_xor y x.
Proof. unfold byte_xor. now rewrite Z.lxor_comm. Qed.

Lemma AddRoundKey_inj k (a c : list Z) :
  length a = length c -> (length a <= length k)%nat ->
  Forall is_byte a -> Forall is_byte c ->
  AES.AddRoundKey a k = AES.AddRoundKey c k -> a = c.
Proof.
  unfold AES.AddRoundKey. revert k c.
  induction a as [|x a IH]; intros k [|y c] Hl Hk Ha Hc; try discriminate;
    [reflexivity |].
  destruct k as [|z k]; simpl in Hk; [lia |]. simpl.
  apply Forall_cons in Ha as [Hx Ha]. apply Forall_cons in Hc as [Hy Hc].
  intros [= E1 E2]. f_equal.
  - rewrite <- (byte_xor_cancel x z Hx), E1. apply byte_xor_cancel, Hy.
  - apply (IH k c); [simpl in Hl; lia | lia | assumption | assumption | exact E2].
Qed.

Lemma AddRoundKey_block a k :
  length a = 16%nat -> length k = 16%nat -> is_block (AES.AddRoundKey a k).
Proof.
  intros Ha Hk. split; [| apply zip_with_byte_xor_bytes].
  unfold AES.AddRoundKey. rewrite length_zip_with. lia.
Qed.

Lemma SubBytes_inj (a c : list Z) :
  Forall is_byte a -> Forall is_byte c ->
  AES.SubBytes a = AES.SubBytes c -> a = c.
Proof.
  unfold AES.SubBytes. intros Ha. revert c.
  induction Ha as [|x a Hx Ha IH]; intros [|y c] Hc; try discriminate;
    [reflexivity |].
  apply Forall_cons in Hc as [Hy Hc]. simpl. intros [= E1 E2].
  f_equal; [apply SubByte_inj; assumption | apply IH; assumption].
Qed.

Lemma SubBytes_block a : is_block a -> is_block (AES.SubBytes a).
Proof.
  intros [Hl Hb]. split; [unfold AES.SubBytes; now rewrite length_map |].
  unfold AES.SubBytes. apply Forall_map.
  eapply Forall_impl; [exact Hb |]. apply SubByte_byte.
Qed.

Lemma ShiftRows_eq s0 s1 s2 s3 s4 s5 s6 s7 s8 s9 s10 s11 s12 s13 s14 s15 :
  AES.ShiftRows
    [s0; s1; s2; s3; s4; s5; s6; s7; s8; s9; s10; s11; s12; s13; s14; s15]
  = [s0; s5; s10; s15; s4; s9; s14; s3; s8; s13; s2; s7; s12; s1; s6; s11].
Proof. reflexivity. Qed.

Lemma ShiftRows_inj (a c : list Z) :
  is_block a -> is_block c -> AES.ShiftRows a = AES.ShiftRows c -> a = c.
Proof.
  intros Ha Hc.
  destruct (is_block_inv a Ha)
    as (a0 & a1 & a2 & a3 & a4 & a5 & a6 & a7 & a8 & a9 & a10 & a11 & a12
        & a13 & a14 & a15 & ->).
  destruct (is_block_inv c Hc)
    as (c0 & c1 & c2 & c3 & c4 & c5 & c6 & c7 & c8 & c9 & c10 & c11 & c12
        & c13 & c14 & c15 & ->).
  rewrite !ShiftRows_eq. intros E. injection E. intros. subst. reflexivity.
Qed.

Lemma ShiftRows_block a : is_block a -> is_block (AES.ShiftRows a).
Proof.
  intros Ha.
  destruct (is_block_inv a Ha)
    as (a0 & a1 & a2 & a3 & a4 & a5 & a6 & a7 & a8 & a9 & a10 & a11 & a12
        & a13 & a14 & a15 & ->).
  destruct Ha as [_ Hb]. rewrite ShiftRows_eq. split; [reflexivity |].
  repeat (apply Forall_cons in Hb as [? Hb]).
  repeat (apply Forall_cons_2; [assumption |]). apply Forall_nil_2.
Qed.

Lemma MixColumns_eq s0 s1 s2 s3 s4 s5 s6 s7 s8 s9 s10 s11 s12 s13 s14 s15 :
  AES.MixColumns
    [s0; s1; s2; s3; s4; s5; s6; s7; s8; s9; s10; s11; s12; s13; s14; s15]
  = AES.mixColumn [s0; s1; s2; s3] ++ AES.mixColumn [s4; s5; s6; s7] ++
    AES.mixColumn [s8; s9; s10; s11] ++ AES.mixColumn [s12; s13; s14; s15] ++ [].
Proof. reflexivity. Qed.

Lemma block_columns s0 s1 s2 s3 s4 s5 s6 s7 s8 s9 s10 s11 s12 s13 s14 s15 :
  is_block [s0; s1; s2; s3; s4; s5; s6; s7; s8; s9; s10; s11; s12; s13; s14; s15] ->
  is_column [s0; s1; s2; s3] /\ is_column [s4; s5; s6; s7] /\
  is_column [s8; s9; s10; s11] /\ is_column [s12; s13; s14; s15].
Proof.
  intros [_ Hb]. repeat (apply Forall_cons in Hb as [? Hb]).
  split; [| split; [| split]]; apply is_column_intro; assumption.
Qed.

Lemma MixColumns_inj (a c : list Z) :
  is_block a -> is_block c -> AES.MixColumns a = AES.MixColumns c -> a = c.
Proof.
  intros Ha Hc.
  destruct (is_block_inv a Ha)
    as (a0 & a1 & a2 & a3 & a4 & a5 & a6 & a7 & a8 & a9 & a10 & a11 & a12
        & a13 & a14 & a15 & ->).
  destruct (is_block_inv c Hc)
    as (c0 & c1 & c2 & c3 & c4 & c5 & c6 & c7 & c8 & c9 & c10 & c11 & c12
        & c13 & c14 & c15 & ->).
  destruct (block_columns _ _ _ _ _ _ _ _ _ _ _ _ _ _ _ _ Ha) as (A0 & A1 & A2 & A3).
  destruct (block_columns _ _ _ _ _ _ _ _ _ _ _ _ _ _ _ _ Hc) as (C0 & C1 & C2 & C3).
  pose proof (mixColumn_column _ A0) as [LA0 _].
  pose proof (mixColumn_column _ A1) as [LA1 _].
  pose proof (mixColumn_column _ A2) as [LA2 _].
  pose proof (mixColumn_column _ C0) as [LC0 _].
  pose proof (mixColumn_column _ C1) as [LC1 _].
  pose proof (mixColumn_column _ C2) as [LC2 _].
  rewrite !MixColumns_eq. intros E.
  apply app_inj_1 in E as [E0 E]; [| congruence].
  apply app_inj_1 in E as [E1 E]; [| congruence].
  apply app_inj_1 in E as [E2 E]; [| congruence].
  rewrite !app_nil_r in E.
  apply mixColumn_inj in E0, E1, E2, E; try assumption.
  congruence.
Qed.

Lemma MixColumns_block a : is_block a -> is_block (AES.MixColumns a).
Proof.
  intros Ha.
  destruct (is_block_inv a Ha)
    as (a0 & a1 & a2 & a3 & a4 & a5 & a6 & a7 & a8 & a9 & a10 & a11 & a12
        & a13 & a14 & a15 & ->).
  destruct (block_columns _ _ _ _ _ _ _ _ _ _ _ _ _ _ _ _ Ha) as (A0 & A1 & A2 & A3).
  destruct (mixColumn_column _ A0) as [L0 B0].
  destruct (mixColumn_column _ A1) as [L1 B1].
  destruct (mixColumn_column _ A2) as [L2 B2].
  destruct (mixColumn_column _ A3) as [L3 B3].
  rewrite MixColumns_eq. split.
  - rewrite !length_app, L0, L1, L2, L3. reflexivity.
  - rewrite !Forall_app. auto using Forall_nil_2.
Qed.

(** *** The cipher *)

Lemma length_roundKey key r :
  valid_key key -> (r <= length key / 4 + 6)%nat ->
  length (AES.roundKey (AES.KeyExpansion key) r) = 16%nat.
Proof.
  intros Hk Hr. destruct (KeyExpansion_spec key Hk) as [Hw Hl].
  unfold AES.roundKey. rewrite length_concat_word4.
  - rewrite length_take, length_drop, Hl. lia.
  - apply Forall_take, Forall_drop, Hw.
Qed.

Lemma rounds_block key n round (a : list Z) :
  valid_key key -> (round + n <= length key / 4 + 7)%nat -> is_block a ->
  is_block (AES.rounds n round (AES.KeyExpansion key) a).
Proof.
  intros Hk. revert round a. induction n as [|n IH]; intros round a Hr Ha;
    cbn [AES.rounds]; [exact Ha |].
  apply IH; [lia |]. apply AddRoundKey_block.
  - apply MixColumns_block, ShiftRows_block, SubBytes_block, Ha.
  - apply length_roundKey; [exact Hk | lia].
Qed.

Lemma rounds_inj key n round (a c : list Z) :
  valid_key key -> (round + n <= length key / 4 + 7)%nat ->
  is_block a -> is_block c ->
  AES.rounds n round (AES.KeyExpansion key) a
  = AES.rounds n round (AES.KeyExpansion key) c -> a = c.
Proof.
  intros Hk. revert round a c.
  induction n as [|n IH]; intros round a c Hr Ha Hc; cbn [AES.rounds];
    [auto |].
  intros E.
  assert (Ma : is_block (AES.MixColumns (AES.ShiftRows (AES.SubBytes a))))
    by (apply MixColumns_block, ShiftRows_block, SubBytes_block, Ha).
  assert (Mc : is_block (AES.MixColumns (AES.ShiftRows (AES.SubBytes c))))
    by (apply MixColumns_block, ShiftRows_block, SubBytes_block, Hc).
  assert (Lk : length (AES.roundKey (AES.KeyExpansion key) round) = 16%nat)
    by (apply length_roundKey; [exact Hk | lia]).
  apply IH in E;
    [| lia | apply AddRoundKey_block; [apply Ma | exact Lk]
     | apply AddRoundKey_block; [apply Mc | exact Lk]].
  apply AddRoundKey_inj in E;
    [| destruct Ma, Mc; congruence | destruct Ma; lia | apply Ma | apply Mc].
  apply MixColumns_inj in E;
    [| apply ShiftRows_block, SubBytes_block, Ha
     | apply ShiftRows_block, SubBytes_block, Hc].
  apply ShiftRows_inj in E; [| apply SubBytes_block, Ha | apply SubBytes_block, Hc].
  apply SubBytes_inj in E; [exact E | apply Ha | apply Hc].
Qed.

Lemma Cipher_block key (x : list Z) :
  valid_key key -> is_block (AES.Cipher (AES.KeyExpansion key) x).
Proof. intros Hk. split; [apply length_Cipher, Hk | apply Cipher_bytes]. Qed.

(** Under a key that [aes.NewCipher] accepts, encryption is injective on
    blocks. *)
Lemma Cipher_inj key (a c : list Z) :
  valid_key key -> is_block a -> is_block c ->
  AES.Cipher (AES.KeyExpansion key) a = AES.Cipher (AES.KeyExpansion key) c ->
  a = c.
Proof.
  intros Hk Ha Hc. destruct (KeyExpansion_spec key Hk) as [_ Hl].
  unfold AES.Cipher. rewrite Hl.
  assert (ENr : (4 * (length key / 4 + 7) / 4 - 1 = length key / 4 + 6)%nat).
  { rewrite Nat.mul_comm, Nat.div_mul by lia. lia. }
  rewrite ENr. cbv zeta.
  rewrite (take_ge a), (take_ge c) by (destruct Ha, Hc; lia).
  set (w := AES.KeyExpansion key).
  assert (L0 : length (AES.roundKey w 0) = 16%nat)
    by (apply length_roundKey; [exact Hk | lia]).
  assert (LN : length (AES.roundKey w (length key / 4 + 6)) = 16%nat)
    by (apply length_roundKey; [exact Hk | lia]).
  assert (Ba : is_block (AES.AddRoundKey a (AES.roundKey w 0)))
    by (apply AddRoundKey_block; [apply Ha | exact L0]).
  assert (Bc : is_block (AES.AddRoundKey c (AES.roundKey w 0)))
    by (apply AddRoundKey_block; [apply Hc | exact L0]).
  assert (Ra : is_block (AES.rounds (length key / 4 + 6 - 1) 1 w
                           (AES.AddRoundKey a (AES.roundKey w 0))))
    by (apply rounds_block; [exact Hk | lia | exact Ba]).
  assert (Rc : is_block (AES.rounds (length key / 4 + 6 - 1) 1 w
                           (AES.AddRoundKey c (AES.roundKey w 0))))
    by (apply rounds_block; [exact Hk | lia | exact Bc]).
  intros E.
  apply AddRoundKey_inj in E;
    [| pose proof (ShiftRows_block _ (SubBytes_block _ Ra)) as [-> _];
       pose proof (ShiftRows_block _ (SubBytes_block _ Rc)) as [-> _];
       reflexivity
     | pose proof (ShiftRows_block _ (SubBytes_block _ Ra)) as [-> _]; lia
     | apply ShiftRows_block, SubBytes_block, Ra
     | apply ShiftRows_block, SubBytes_block, Rc].
  apply ShiftRows_inj in E; [| apply SubBytes_block, Ra | apply SubBytes_block, Rc].
  apply SubBytes_inj in E; [| apply Ra | apply Rc].
  apply rounds_inj in E; [| exact Hk | lia | exact Ba | exact Bc].
  apply AddRoundKey_inj in E;
    [exact E | destruct Ha, Hc; congruence | destruct Ha; lia | apply Ha | apply Hc].
Qed.

(** ** The subkey as a function of the label and of the name *)

Lemma xorName_zip name :
  forall pre sk : list Z,
    (length name <= length sk)%nat ->
    xorName (length pre) name (pre ++ sk)
    = Ok (pre ++ zip_with byte_xor sk name ++ drop (length name) sk).
Proof.
  induction name as [|c name IH]; intros pre sk Hl.
  - simpl. now rewrite zip_with_nil_r.
  - destruct sk as [|x sk]; simpl in Hl; [lia |].
    cbn [xorName]. rewrite list_lookup_middle by reflexivity.
    rewrite insert_app_r_alt, Nat.sub_diag by lia. cbn [insert list_insert].
    rewrite (cons_middle (byte_xor x c) pre sk), app_assoc.
    replace (S (length pre)) with (length (pre ++ [byte_xor x c]))
      by (rewrite length_app; simpl; lia).
    rewrite IH by lia. simpl. now rewrite <- app_assoc.
Qed.

Lemma length_copy16 (l : list Z) : length (copy16 l) = 16%nat.
Proof. unfold copy16. rewrite length_app, length_take, length_replicate. lia. Qed.

Lemma copy16_short (l : list Z) :
  (length l <= 16)%nat -> copy16 l = l ++ replicate (16 - length l) 0.
Proof. intros Hl. unfold copy16. now rewrite take_ge by exact Hl. Qed.

Lemma copy16_bytes (l : list Z) : Forall is_byte l -> Forall is_byte (copy16 l).
Proof.
  intros Hl. unfold copy16. apply Forall_app. split.
  - apply Forall_take, Hl.
  - apply Forall_replicate. unfold is_byte. lia.
Qed.

Lemma bytes_of_string_bytes s : Forall is_byte (bytes_of_string s).
Proof.
  unfold bytes_of_string. apply Forall_map, Forall_forall. intros c _.
  pose proof (Byte.to_N_bounded c). unfold is_byte. simpl. lia.
Qed.

Lemma bytes_check (l : list Z) : forallb is_byteb l = true -> Forall is_byte l.
Proof.
  induction l as [|x l IH]; simpl; [constructor |].
  rewrite andb_true_iff, is_byteb_spec. intros [Hx Hl].
  apply Forall_cons_2; auto.
Qed.

Lemma zip_with_byte_xor_comm (a c : list Z) :
  zip_with byte_xor a c = zip_with byte_xor c a.
Proof.
  revert c. induction a as [|x a IH]; intros [|y c]; simpl; try reflexivity.
  now rewrite byte_xor_comm, IH.
Qed.

(** Xoring a name into a block is xoring the name padded with zero bytes
    to the size of the block. *)
Lemma xorName_block name (k : list Z) :
  is_block k -> (length name <= 16)%nat ->
  xorName 0 name k = Ok (zip_with byte_xor k (copy16 name)).
Proof.
  intros [Lk Bk] Hn.
  assert (E : xorName 0 name k = xorName 0 (copy16 name) k).
  { rewrite copy16_short, xorName_app by exact Hn.
    destruct (xorName_ok 0 name k) as (k' & E' & Lk' & _); [lia |].
    rewrite E'. simpl. rewrite xorName_zeros; [reflexivity | | lia].
    apply (xorName_bytes _ _ _ _ E' Bk). }
  rewrite E.
  pose proof (xorName_zip (copy16 name) [] k) as Z. cbn [length app] in Z.
  rewrite Z by (rewrite length_copy16; lia).
  rewrite length_copy16, drop_ge by lia. now rewrite app_nil_r.
Qed.

(** The expanded key starts with the key itself. *)
Lemma expand_prefix fuel Nk i (w : list (list Z)) :
  take (length w) (AES.expand fuel Nk i w) = w.
Proof.
  assert (P : exists t, AES.expand fuel Nk i w = w ++ t).
  { revert i w. induction fuel as [|fuel IH]; intros i w; cbn [AES.expand].
    - exists []. now rewrite app_nil_r.
    - cbv zeta. edestruct IH as [t ->]. rewrite <- app_assoc. eauto. }
  destruct P as [t ->]. apply take_app_length.
Qed.

Lemma concat_words n (key : list Z) :
  length key = (4 * n)%nat -> concat (AES.words n key) = key.
Proof.
  revert key. induction n as [|n IH]; intros key Hl; cbn [AES.words concat].
  - destruct key; [reflexivity | discriminate].
  - rewrite IH by (rewrite length_drop; lia). apply take_drop.
Qed.

Lemma KeyExpansion_inj (k1 k2 : list Z) :
  length k1 = 16%nat -> length k2 = 16%nat ->
  AES.KeyExpansion k1 = AES.KeyExpansion k2 -> k1 = k2.
Proof.
  intros L1 L2 E.
  assert (P : forall k : list Z, length k = 16%nat ->
                concat (take 4 (AES.KeyExpansion k)) = k).
  { intros k Lk. unfold AES.KeyExpansion. rewrite Lk.
    change (16 / 4)%nat with 4%nat.
    pose proof (expand_prefix (4 * (4 + 7) - 4) 4 4 (AES.words 4 k)) as Hp.
    rewrite length_words in Hp. rewrite Hp. apply concat_words. lia. }
  rewrite <- (P k1 L1), <- (P k2 L2), E. reflexivity.
Qed.

Section SubKeyFunction.
Context `{Values}.

(** The subkey in closed form: the encryption, under the seed, of the
    encrypted label xored with the padded name. *)
Lemma subKey_formula label st :
  valid_key (Seed (rs st)) -> (16 <= length label)%nat ->
  (length (name_bytes st) <= 16)%nat ->
  subKey label st
  = Ok (AES.Cipher (AES.KeyExpansion (Seed (rs st)))
          (zip_with byte_xor
             (AES.Cipher (AES.KeyExpansion (Seed (rs st))) label)
             (copy16 (name_bytes st))), st).
Proof.
  intros Hk Hl Hn. rewrite subKey_unfold.
  destruct (Encrypt_ok (Seed (rs st)) (make_bytes 16) label Hk Hl)
    as (k & -> & Lk & Ek); [reflexivity |].
  simpl. rewrite xorName_block; [| rewrite Ek; apply Cipher_block, Hk | exact Hn].
  simpl.
  destruct (Encrypt_ok (Seed (rs st))
              (zip_with byte_xor k (copy16 (name_bytes st)))
              (zip_with byte_xor k (copy16 (name_bytes st))) Hk)
    as (k2 & -> & _ & ->);
    [rewrite length_zip_with, length_copy16; lia
    | rewrite length_zip_with, length_copy16; lia |].
  simpl. now rewrite Ek.
Qed.

(** X11.  The derivation separates labels and names.  Under a seed that is
    an AES key and names of at most 16 bytes: two labels of one block with
    the same subkey are the same label; and two generators with the same
    seed give a label the same subkey, and the same stream, exactly when
    their names, padded with zero bytes to 16 bytes, are the same. *)
Theorem subKey_injective (label l1 l2 : list Z) (st st2 : State) :
  valid_key (Seed (rs st)) -> Seed (rs st2) = Seed (rs st) ->
  (length (name_bytes st) <= 16)%nat -> (length (name_bytes st2) <= 16)%nat ->
  (is_block l1 -> is_block l2 ->
   value (subKey l1 st) = value (subKey l2 st) -> l1 = l2) /\
  ((16 <= length label)%nat ->
   (value (subKey label st2) = value (subKey label st) <->
    copy16 (name_bytes st2) = copy16 (name_bytes st))) /\
  (length label = 16%nat ->
   (value (Stream label st2) = value (Stream label st) <->
    copy16 (name_bytes st2) = copy16 (name_bytes st))).
Proof.
  intros Hk HS Hn Hn2.
  assert (Hk2 : valid_key (Seed (rs st2))) by (rewrite HS; exact Hk).
  set (W := AES.KeyExpansion (Seed (rs st))).
  assert (Bp : forall s : State, is_block (copy16 (name_bytes s))).
  { intros s. split; [apply length_copy16 |].
    apply copy16_bytes, bytes_of_string_bytes. }
  assert (Bx : forall (l : list Z) (s : State),
             is_block (zip_with byte_xor (AES.Cipher W l) (copy16 (name_bytes s)))).
  { intros l s. apply AddRoundKey_block;
      [apply length_Cipher, Hk | apply length_copy16]. }
  assert (Names : forall l : list Z, (16 <= length l)%nat ->
            (value (subKey l st2) = value (subKey l st) <->
             copy16 (name_bytes st2) = copy16 (name_bytes st))).
  { intros l Hl. rewrite !subKey_formula by assumption. rewrite HS. fold W.
    simpl. split.
    - intros [= E].
      apply Cipher_inj in E; [| exact Hk | apply Bx | apply Bx].
      rewrite !(zip_with_byte_xor_comm (AES.Cipher W l)) in E.
      apply (AddRoundKey_inj (AES.Cipher W l)) in E;
        [exact E
        | now rewrite !length_copy16
        | unfold W; rewrite length_copy16, length_Cipher by exact Hk; lia
        | apply Bp | apply Bp].
    - intros ->. reflexivity. }
  split; [| split].
  - intros B1 B2.
    rewrite !subKey_formula by (try assumption; destruct B1, B2; lia).
    fold W. simpl. intros [= E].
    apply Cipher_inj in E; [| exact Hk | apply Bx | apply Bx].
    apply (AddRoundKey_inj (copy16 (name_bytes st))) in E;
      [| unfold W; rewrite !length_Cipher by exact Hk; reflexivity
       | unfold W; rewrite length_Cipher, length_copy16 by exact Hk; lia
       | apply Cipher_bytes | apply Cipher_bytes].
    apply Cipher_inj in E; assumption.
  - apply Names.
  - intros Hl. rewrite <- (Names label) by lia.
    destruct (Stream_ok label st) as (k & Ek & Lk & ->);
      [split; [exact Hk | split; assumption] |].
    destruct (Stream_ok label st2) as (k2 & Ek2 & Lk2 & ->);
      [split; [exact Hk2 | split; assumption] |].
    rewrite Ek, Ek2. simpl. split.
    + intros [= E]. apply KeyExpansion_inj in E; [| assumption | assumption].
      now rewrite E.
    + intros [= ->]. reflexivity.
Qed.

End SubKeyFunction.

(** ** The key stream does not repeat *)

Lemma incr_bytes (l : list Z) : Forall is_byte l -> Forall is_byte (incr l).
Proof.
  induction 1 as [|x l Hx Hl IH]; [constructor |]. cbn [incr]. cbv zeta.
  assert (Hb : is_byte (Z.land (x + 1) 255)).
  { unfold is_byte. change 255 with (Z.ones 8). rewrite Z.land_ones by lia.
    apply Z.mod_pos_bound. lia. }
  destruct (Z.land (x + 1) 255 =? 0); apply Forall_cons_2; assumption.
Qed.

Lemma nextCounter_block c : is_block c -> is_block (nextCounter c).
Proof.
  intros [Hl Hb]. split; [now rewrite length_nextCounter |].
  unfold nextCounter. apply Forall_rev, incr_bytes, Forall_rev, Hb.
Qed.

Lemma iter_nextCounter_block c i : is_block c -> is_block (Nat.iter i nextCounter c).
Proof.
  intros Hc. induction i as [|i IH]; [exact Hc |].
  rewrite Nat.iter_succ. apply nextCounter_block, IH.
Qed.

Lemma bigEndian_iter c i :
  is_block c ->
  bigEndian (Nat.iter i nextCounter c) = (bigEndian c + Z.of_nat i) mod 2 ^ 128.
Proof.
  intros Hc.
  assert (Hr : 0 <= bigEndian c < 2 ^ 128).
  { destruct Hc as [Hl Hb]. unfold bigEndian.
    assert (G : forall l : list Z, Forall is_byte l ->
                  0 <= littleEndian l < 256 ^ Z.of_nat (length l)).
    { induction 1 as [|y l Hy Hl' IH]; [simpl; lia |].
      cbn [littleEndian length].
      rewrite Nat2Z.inj_succ, Z.pow_succ_r by lia.
      unfold is_byte in Hy. lia. }
    specialize (G (rev c) ltac:(apply Forall_rev; exact Hb)).
    rewrite length_rev, Hl in G. exact G. }
  induction i as [|i IH].
  - simpl. rewrite Z.add_0_r, Z.mod_small; [reflexivity | exact Hr].
  - rewrite Nat.iter_succ, bigEndian_nextCounter
      by apply (iter_nextCounter_block c i Hc).
    destruct (iter_nextCounter_block c i Hc) as [-> _]. rewrite IH.
    change (256 ^ Z.of_nat 16) with (2 ^ 128).
    rewrite Nat2Z.inj_succ, Zplus_mod_idemp_l. f_equal. lia.
Qed.

Section NoRepeat.
Context `{Values}.

(** X12.  The key stream of a label does not repeat a block: the stream is
    read in blocks whose counters are all different, and the cipher is
    injective, so any two of its first [2 ^ 128] blocks differ.  Draws of
    16 bytes are therefore pairwise different. *)
Theorem keystream_never_repeats (label : list Z) (st : State) (i j : nat) :
  streamable st label -> Forall is_byte label ->
  i <> j -> Z.of_nat i < 2 ^ 128 -> Z.of_nat j < 2 ^ 128 ->
  exists s,
    Stream label st = Ok (s, ticked st) /\
    draw (Nat.iter i (skip 16) s) 16 <> draw (Nat.iter j (skip 16) s) 16.
Proof.
  intros Hs Hb Hij Hi Hj.
  destruct (Stream_ok label st Hs) as (k & _ & Lk & E).
  eexists. split; [exact E |].
  assert (Hk : valid_key k) by (left; exact Lk).
  assert (Hc : is_block label) by (split; [apply Hs | exact Hb]).
  set (x := fun c => {| b := {| enc := AES.KeyExpansion k |};
                        counter := c; out := [] |}).
  assert (It : forall n, Nat.iter n (skip 16) (x label)
                         = x (Nat.iter n nextCounter label)).
  { induction n as [|n IH]; [reflexivity |].
    rewrite !Nat.iter_succ, IH. unfold skip, x.
    rewrite Read_block; [reflexivity | exact Hk | reflexivity]. }
  assert (Dr : forall n, draw (Nat.iter n (skip 16) (x label)) 16
                         = AES.Cipher (AES.KeyExpansion k)
                             (Nat.iter n nextCounter label)).
  { intros n. rewrite It. unfold draw, x.
    rewrite Read_block; [reflexivity | exact Hk | reflexivity]. }
  fold (x label). rewrite !Dr. intros Eq.
  apply Cipher_inj in Eq;
    [| exact Hk | apply iter_nextCounter_block, Hc
     | apply iter_nextCounter_block, Hc].
  apply (f_equal bigEndian) in Eq. rewrite !bigEndian_iter in Eq by exact Hc.
  assert (Hr : 0 <= bigEndian label) .
  { pose proof (bigEndian_iter label 0 Hc) as B0. simpl in B0.
    pose proof (Z.mod_pos_bound (bigEndian label + 0) (2 ^ 128)). lia. }
  apply Hij.
  set (a := bigEndian label) in *.
  assert (D : (a + Z.of_nat i) mod 2 ^ 128 - (a + Z.of_nat j) mod 2 ^ 128 = 0)
    by lia.
  rewrite (Z.mod_eq (a + Z.of_nat i)), (Z.mod_eq (a + Z.of_nat j)) in D by lia.
  set (qi := (a + Z.of_nat i) / 2 ^ 128) in *.
  set (qj := (a + Z.of_nat j) / 2 ^ 128) in *.
  assert (qi = qj) by nia. nia.
Qed.

End NoRepeat.

(** [subKey_injective] at the labels [m1] and [zero_label], and at the
    names ["test"] and ["other"]. *)
Lemma subKey_injective_witness :
  value (subKey Model.m1 Model.fresh)
    <> value (subKey Model.zero_label Model.fresh) /\
  value (subKey Model.m1 (newState Inputs.other_name Model.seed0))
    <> value (subKey Model.m1 Model.fresh).
Proof.
  destruct (subKey_injective Model.m1 Model.m1 Model.zero_label Model.fresh
              (newState Inputs.other_name Model.seed0))
    as (Hl & Hn & _);
    [left; reflexivity | reflexivity | vm_compute; lia | vm_compute; lia |].
  split.
  - intros E. apply Hl in E.
    + vm_compute in E. discriminate E.
    + split; [reflexivity | apply bytes_check; vm_compute; reflexivity].
    + split; [reflexivity | apply bytes_check; vm_compute; reflexivity].
  - intros E. apply Hn in E; [| vm_compute; lia].
    vm_compute in E. discriminate E.
Defined.

(** [keystream_never_repeats] at the first two blocks of the stream of
    [m1]. *)
Lemma keystream_never_repeats_witness :
  exists s,
    Stream Model.m1 Model.fresh = Ok (s, ticked Model.fresh) /\
    draw (Nat.iter 0 (skip 16) s) 16 <> draw (Nat.iter 1 (skip 16) s) 16.
Proof.
  apply (keystream_never_repeats Model.m1 Model.fresh 0 1 streamable_fresh_m1);
    [apply bytes_check; vm_compute; reflexivity | lia | lia | lia].
Defined.
